(** * PlateeRAG backend: node controller, configuration composer and the
      workflow core they call into.

    The development embeds the Python sources
    [src/controller/nodeController.py] and [src/config/config_composer.py]
    as Rocq functions: Python values are an inductive type, a [str] is the
    bytes of its UTF-8 encoding, dictionaries are association lists in
    insertion order, [try]/[except] is an explicit result type, and the
    process-wide objects the handlers touch (the node registry, the exported
    catalog file) are passed as explicit state.

    The workflow core behind POST /node/execute ([src/workflow_executor.py])
    is not among the sources; module [Core] models it from the
    specification: graph, validator, scheduler, engine and aggregator. *)

From Stdlib Require Import ZArith Lia Ascii String Sorted.
From stdpp Require Import gmap strings list pretty relations.

Local Open Scope string_scope.

(** ** Python values, dictionaries and exceptions *)

(** The JSON-shaped values the handlers receive and return. *)
#[warnings="-register-all"]
Inductive pyval : Type :=
| PNone
| PBool (b : bool)
| PInt (z : Z)
| PStr (s : string)
| PList (l : list pyval)
| PDict (d : list (string * pyval)).

(** A [dict] with string keys, in insertion order. *)
Abbreviation pydict := (list (string * pyval)).

(** [d.get(k)]: the value bound to [k], if any. *)
Fixpoint dict_get {A : Type} (k : string) (d : list (string * A)) : option A :=
  match d with
  | [] => None
  | (k', v) :: d' => if decide (k' = k) then Some v else dict_get k d'
  end.

(** [list(d.keys())]. *)
Definition dict_keys {A : Type} (d : list (string * A)) : list string := d.*1.

(** Python truthiness ([bool(v)], as tested by [if v] and [not v]). *)
Definition truthy (v : pyval) : bool :=
  match v with
  | PNone => false
  | PBool b => b
  | PInt z => negb (z =? 0)%Z
  | PStr s => negb (String.eqb s "")
  | PList l => match l with [] => false | _ => true end
  | PDict d => match d with [] => false | _ => true end
  end.

(** The exception classes the handlers tell apart.  All of them derive from
    [Exception]; [HTTPException] is FastAPI's; [ValueError] is the builtin
    together with its subclasses, which [except ValueError] catches as well
    ([json.JSONDecodeError], [UnicodeDecodeError], ...); and
    [OtherException] stands for every other subclass of [Exception]
    ([KeyError], [TypeError], [OSError], ...). *)
Inductive exn : Type :=
| HTTPException (status_code : Z) (detail : string)
| ValueError (msg : string)
| OtherException (msg : string).

(** The outcome of a Python call: a returned value or a raised exception. *)
Inductive result (A : Type) : Type :=
| Return (a : A)
| Raise (e : exn).
Arguments Return {A} a.
Arguments Raise {A} e.

Definition is_HTTPException (e : exn) : bool :=
  match e with HTTPException _ _ => true | _ => false end.

Definition is_ValueError (e : exn) : bool :=
  match e with ValueError _ => true | _ => false end.

(** [str(e)] for the exceptions above. *)
Definition exn_str (e : exn) : string :=
  match e with
  | HTTPException _ d => d
  | ValueError m => m
  | OtherException m => m
  end.

(** ** Python strings *)

(** A [str] is kept as the bytes of its UTF-8 encoding.  [code_points]
    decodes them into the string's characters, as numbers; a byte that does
    not start a well-formed sequence, which the encoding of a [str] never
    holds, decodes to U+FFFD. *)
Definition continuation (a : Ascii.ascii) : bool :=
  ((128 <=? Ascii.N_of_ascii a) && (Ascii.N_of_ascii a <? 192))%N.

Definition low_bits (a : Ascii.ascii) : N := (Ascii.N_of_ascii a - 128)%N.

Fixpoint code_points (s : string) : list N :=
  match s with
  | EmptyString => []
  | String a s1 =>
      let b := Ascii.N_of_ascii a in
      if (b <? 128)%N then b :: code_points s1
      else if (b <? 192)%N then 65533%N :: code_points s1
      else if (b <? 224)%N then
        match s1 with
        | String a1 s2 =>
            if continuation a1
            then ((b - 192) * 64 + low_bits a1)%N :: code_points s2
            else 65533%N :: code_points s1
        | EmptyString => [65533%N]
        end
      else if (b <? 240)%N then
        match s1 with
        | String a1 (String a2 s3) =>
            if continuation a1 && continuation a2
            then ((b - 224) * 4096 + low_bits a1 * 64 + low_bits a2)%N :: code_points s3
            else 65533%N :: code_points s1
        | _ => 65533%N :: code_points s1
        end
      else
        match s1 with
        | String a1 (String a2 (String a3 s4)) =>
            if continuation a1 && continuation a2 && continuation a3
            then ((b - 240) * 262144 + low_bits a1 * 4096 + low_bits a2 * 64 + low_bits a3)%N
                   :: code_points s4
            else 65533%N :: code_points s1
        | _ => 65533%N :: code_points s1
        end
  end.

(** The UTF-8 encoding of one character. *)
Definition chr (c : N) : string :=
  string_of_list_ascii
    (Ascii.ascii_of_N <$>
       (if (c <? 128)%N then [c]
        else if (c <? 2048)%N then [192 + c / 64; 128 + c mod 64]
        else if (c <? 65536)%N then
          [224 + c / 4096; 128 + (c / 64) mod 64; 128 + c mod 64]
        else [240 + c / 262144; 128 + (c / 4096) mod 64;
              128 + (c / 64) mod 64; 128 + c mod 64])%N).

(** The [str] made of the given characters. *)
Definition of_code_points (l : list N) : string := String.concat "" (chr <$> l).

(** The characters of a [str], each a [str] of length one: what iterating
    over it yields. *)
Definition characters (s : string) : list string := chr <$> code_points s.

(** ** GET /node/get: [get_node_list] and [list_nodes] *)

Module NodeList.

(** What [open] followed by [json.load] yields for a path that exists:
    the decoded value, or the exception raised ([OSError],
    [json.JSONDecodeError], ...). *)
Inductive file :=
| Decodes (v : pyval)
| LoadFails (e : exn).

(** The part of the file system the handler looks at: path to file. *)
Abbreviation filesystem := (gmap string file).

Definition exported_nodes_path : string := "./constants/exported_nodes.json".

Definition os_path_exists (fs : filesystem) (p : string) : bool :=
  bool_decide (is_Some (fs !! p)).

Definition json_load (fs : filesystem) (p : string) : result pyval :=
  match fs !! p with
  | Some (Decodes v) => Return v
  | Some (LoadFails e) => Raise e
  | None => Raise (OtherException "FileNotFoundError")
  end.

Definition no_nodes_available : exn :=
  HTTPException 404%Z "No nodes available. Please run discovery first.".

(** The body of the [try] block of [get_node_list]. *)
Definition get_node_list_try (fs : filesystem) : result pyval :=
  if negb (os_path_exists fs exported_nodes_path) then Raise no_nodes_available
  else
    match json_load fs exported_nodes_path with
    | Raise e => Raise e
    | Return nodes =>
        if negb (truthy nodes) then Raise no_nodes_available
        else Return nodes
    end.

(** [get_node_list]: the [try] block under [except Exception]. *)
Definition get_node_list (fs : filesystem) : result pyval :=
  match get_node_list_try fs with
  | Return nodes => Return nodes
  | Raise _ => Raise (HTTPException 500%Z "Internal Server Error")
  end.

(** [list_nodes]: re-raises an [HTTPException], turns anything else
    into a 500. *)
Definition list_nodes (fs : filesystem) : result pyval :=
  match get_node_list fs with
  | Return nodes => Return nodes
  | Raise e =>
      if is_HTTPException e then Raise e
      else Raise (HTTPException 500%Z "Internal Server Error")
  end.

(** The catalog file is missing, or it decodes to a falsy value. *)
Definition catalog_missing_or_empty (fs : filesystem) : Prop :=
  fs !! exported_nodes_path = None ∨
  ∃ v, fs !! exported_nodes_path = Some (Decodes v) ∧ truthy v = false.

End NodeList.

(** ** [ConfigComposer.validate_critical_configs] *)

Module Config.
Local Open Scope Z_scope.

(** A [PersistentConfig]: only its [.value] is read here. *)
Record PersistentConfig (A : Type) := { value : A }.
Arguments value {A} _.

(** A configuration category instance.  The attributes are looked up with
    [hasattr], so each may be absent. *)
Record category := {
  API_KEY : option (PersistentConfig (option string));
  PORT : option (PersistentConfig Z);
  EXECUTION_TIMEOUT : option (PersistentConfig Z)
}.

(** The state of a [ConfigComposer] that validation reads. *)
Record ConfigComposer := { config_categories : gmap string category }.

Record validation := {
  valid : bool;
  warnings : list string;
  errors : list string
}.

(** [str.isspace] on one character: the characters Python counts as white
    space, which [str.strip()] removes.  They are U+0009 to U+000D, U+001C
    to U+0020, U+0085, U+00A0, U+1680, U+2000 to U+200A, U+2028, U+2029,
    U+202F, U+205F and U+3000. *)
Definition isspace (c : N) : bool :=
  ((9 <=? c) && (c <=? 13) || (28 <=? c) && (c <=? 32) ||
   (c =? 133) || (c =? 160) || (c =? 5760) ||
   (8192 <=? c) && (c <=? 8202) ||
   (c =? 8232) || (c =? 8233) || (c =? 8239) || (c =? 8287) || (c =? 12288))%N.

Fixpoint lstrip (l : list N) : list N :=
  match l with
  | c :: l' => if isspace c then lstrip l' else l
  | [] => []
  end.

Definition rstrip (l : list N) : list N := reverse (lstrip (reverse l)).

(** [s.strip()]. *)
Definition strip (s : string) : string :=
  of_code_points (rstrip (lstrip (code_points s))).

(** Every character of [s] is white space. *)
Definition whitespace_only (s : string) : Prop :=
  Forall (λ c, isspace c = true) (code_points s).

(** [not api_key or not api_key.strip()]. *)
Definition api_key_blank (api_key : option string) : bool :=
  match api_key with
  | None => true
  | Some s => String.eqb s "" || String.eqb (strip s) ""
  end.

Definition check_openai (self : ConfigComposer) (r : validation) : validation :=
  match config_categories self !! "openai" with
  | Some openai_config =>
      match API_KEY openai_config with
      | Some k =>
          if api_key_blank (value k)
          then {| valid := valid r;
                  warnings := warnings r ++ ["OpenAI API key is not configured"];
                  errors := errors r |}
          else r
      | None => r
      end
  | None => r
  end.

Definition check_port (self : ConfigComposer) (r : validation) : validation :=
  match config_categories self !! "app" with
  | Some app_config =>
      match PORT app_config with
      | Some p =>
          let port := value p in
          if negb ((1 <=? port) && (port <=? 65535))
          then {| valid := false;
                  warnings := warnings r;
                  errors := errors r ++ ["Invalid port number: " +:+ pretty port] |}
          else r
      | None => r
      end
  | None => r
  end.

Definition check_timeout (self : ConfigComposer) (r : validation) : validation :=
  match config_categories self !! "workflow" with
  | Some workflow_config =>
      match EXECUTION_TIMEOUT workflow_config with
      | Some t =>
          let workflow_timeout := value t in
          if workflow_timeout <=? 0
          then {| valid := false;
                  warnings := warnings r;
                  errors := errors r ++ ["Invalid workflow timeout: " +:+ pretty workflow_timeout] |}
          else r
      | None => r
      end
  | None => r
  end.

Definition validate_critical_configs (self : ConfigComposer) : validation :=
  let validation_results := {| valid := true; warnings := []; errors := [] |} in
  check_timeout self (check_port self (check_openai self validation_results)).

(** The three conditions the checks test, as propositions on the state:
    the configured port is outside 1..65535, the workflow timeout is not
    positive, the OpenAI key is [None] or holds white space only (the empty
    string included). *)
Definition bad_port (self : ConfigComposer) : Prop :=
  ∃ app p, config_categories self !! "app" = Some app ∧ PORT app = Some p ∧
           ¬ (1 ≤ value p ≤ 65535).

Definition bad_timeout (self : ConfigComposer) : Prop :=
  ∃ wf t, config_categories self !! "workflow" = Some wf ∧
          EXECUTION_TIMEOUT wf = Some t ∧ value t ≤ 0.

Definition blank_api_key (self : ConfigComposer) : Prop :=
  ∃ o k, config_categories self !! "openai" = Some o ∧ API_KEY o = Some k ∧
         match value k with
         | None => True
         | Some api_key => whitespace_only api_key
         end.

End Config.

(** ** The node controller's handlers *)

Module Controller.

(** The process-wide objects a request handler can reach: the node
    registry kept by [src.node_composer] and the files under
    [./constants]. *)
Record process := {
  NODE_REGISTRY : list pydict;
  files : NodeList.filesystem
}.

(** Modelled from the spec: [get_node_registry] is defined in
    [src/node_composer.py], which is not among the sources.  It is the
    registry's [list()] of §6; the [/registry] handler's docstring names
    what it reads, the global [NODE_REGISTRY]. *)
Definition get_node_registry (p : process) : list pydict := NODE_REGISTRY p.

(** *** The request model *)

(** [class Workflow(BaseModel)]: three required fields, none with a
    default. *)
Record Workflow := {
  nodes : list pydict;
  edges : list pydict;
  view : pydict
}.

Definition as_dict (v : pyval) : option pydict :=
  match v with PDict d => Some d | _ => None end.

(** [List[Dict[str, Any]]]: a JSON array of JSON objects. *)
Definition as_list_of_dict (v : pyval) : option (list pydict) :=
  match v with PList l => mapM as_dict l | _ => None end.

(** Validation of a JSON request body against [Workflow].  A field that is
    absent, or whose value has the wrong shape, fails validation; keys the
    model does not declare are ignored. *)
Definition Workflow_validate (body : pyval) : option Workflow :=
  match body with
  | PDict d =>
      ns ← dict_get "nodes" d ≫= as_list_of_dict;
      es ← dict_get "edges" d ≫= as_list_of_dict;
      v ← dict_get "view" d ≫= as_dict;
      Some {| nodes := ns; edges := es; view := v |}
  | _ => None
  end.

(** [workflow.dict()]. *)
Definition Workflow_dict (workflow : Workflow) : pyval :=
  PDict [("nodes", PList (PDict <$> nodes workflow));
         ("edges", PList (PDict <$> edges workflow));
         ("view", PDict (view workflow))].

(** *** POST /node/execute *)

(** [execute_workflow].  [WorkflowExecutor] stands for
    [WorkflowExecutor(workflow_data).execute_workflow()], the constructor
    followed by the call, both inside the [try]. *)
Definition execute_workflow (WorkflowExecutor : pyval → result pyval)
    (workflow : Workflow) : result pydict :=
  let workflow_data := Workflow_dict workflow in
  match WorkflowExecutor workflow_data with
  | Return final_outputs =>
      Return [("status", PStr "success");
              ("message", PStr "워크플로우 실행 완료");
              ("outputs", final_outputs)]
  | Raise e =>
      if is_ValueError e then Raise (HTTPException 400%Z (exn_str e))
      else Raise (HTTPException 500%Z "Internal Server Error")
  end.

(** The route as FastAPI serves it: the body is validated against
    [Workflow] first, and a body that fails validation is answered with
    status 422 without the handler being called (the detail of that answer,
    the list of field errors, is not modelled). *)
Definition post_node_execute (WorkflowExecutor : pyval → result pyval)
    (body : pyval) : result pydict :=
  match Workflow_validate body with
  | None => Raise (HTTPException 422%Z "Unprocessable Entity")
  | Some workflow => execute_workflow WorkflowExecutor workflow
  end.

(** *** GET /node/registry/nodes *)

Definition get_all_nodes (p : process) : result (list pydict) * process :=
  (Return (get_node_registry p), p).

(** *** GET /node/get, with the files taken from the process *)

Definition list_nodes (p : process) : result pyval * process :=
  (NodeList.list_nodes (files p), p).

(** *** GET /node/export *)

Section export.
(** [run_discovery] and [generate_json_spec] come from
    [src/node_composer.py]; they are taken as given, each a transformer
    of the process state that may raise. *)
Variable run_discovery : process → result unit * process.
Variable generate_json_spec : string → process → result unit * process.

Definition export_nodes_try (p : process) : result pydict * process :=
  match run_discovery p with
  | (Raise e, p1) => (Raise e, p1)
  | (Return _, p1) =>
      let output_filename := "./constants/exported_nodes.json" in
      match generate_json_spec output_filename p1 with
      | (Raise e, p2) => (Raise e, p2)
      | (Return _, p2) =>
          if negb (NodeList.os_path_exists (files p2) output_filename)
          then (Raise (HTTPException 500%Z "Failed to generate nodes JSON file."), p2)
          else (Return [("status", PStr "success");
                        ("message", PStr "Nodes exported successfully");
                        ("file", PStr output_filename)], p2)
      end
  end.

Definition export_nodes (p : process) : result pydict * process :=
  match export_nodes_try p with
  | (Return r, p') => (Return r, p')
  | (Raise _, p') => (Raise (HTTPException 500%Z "Internal Server Error"), p')
  end.
End export.

(** *** GET /node/parameters/categorized/{node_id} *)

(** [v == node_id] for a [str] [node_id]. *)
Definition eq_str (v : pyval) (node_id : string) : bool :=
  match v with PStr s => bool_decide (s = node_id) | _ => false end.

(** The [for node in node_registry: if node["id"] == node_id] scan: the
    first node with that id; [node["id"]] raises [KeyError] on a node
    without the key. *)
Fixpoint find_node (node_registry : list pydict) (node_id : string)
    : result (option pydict) :=
  match node_registry with
  | [] => Return None
  | node :: rest =>
      match dict_get "id" node with
      | None => Raise (OtherException "KeyError: 'id'")
      | Some v => if eq_str v node_id then Return (Some node)
                  else find_node rest node_id
      end
  end.

(** What [for param in v] iterates over. *)
Definition py_iter (v : pyval) : result (list pyval) :=
  match v with
  | PList l => Return l
  | PDict d => Return (PStr <$> dict_keys d)
  | PStr s => Return (PStr <$> characters s)
  | _ => Raise (OtherException "TypeError: object is not iterable")
  end.

(** [param.get("optional", False)]; only a [dict] has [.get]. *)
Definition param_get_optional (param : pyval) : result pyval :=
  match param with
  | PDict d => Return (default (PBool false) (dict_get "optional" d))
  | _ => Raise (OtherException "AttributeError: no attribute 'get'")
  end.

(** The loop over [parameters], with the two lists built by [append]. *)
Fixpoint categorize (parameters basic_params advanced_params : list pyval)
    : result (list pyval * list pyval) :=
  match parameters with
  | [] => Return (basic_params, advanced_params)
  | param :: rest =>
      match param_get_optional param with
      | Raise e => Raise e
      | Return o =>
          if truthy o
          then categorize rest basic_params (advanced_params ++ [param])
          else categorize rest (basic_params ++ [param]) advanced_params
      end
  end.

Definition node_not_found (node_id : string) : exn :=
  HTTPException 404%Z ("Node with id '" +:+ node_id +:+ "' not found").

(** The body of the [try] block. *)
Definition get_categorized_parameters_try (node_registry : list pydict)
    (node_id : string) : result pydict :=
  match find_node node_registry node_id with
  | Raise e => Raise e
  | Return None => Raise (node_not_found node_id)
  | Return (Some node) =>
      match py_iter (default (PList []) (dict_get "parameters" node)) with
      | Raise e => Raise e
      | Return parameters =>
          match categorize parameters [] [] with
          | Raise e => Raise e
          | Return (basic_params, advanced_params) =>
              Return [("node_id", PStr node_id);
                      ("node_name", default (PStr "") (dict_get "nodeName" node));
                      ("description", default (PStr "") (dict_get "description" node));
                      ("basic_parameters", PList basic_params);
                      ("advanced_parameters", PList advanced_params);
                      ("has_advanced", PBool (0 <? length advanced_params)%nat)]
          end
      end
  end.

(** [except HTTPException: raise], then [except Exception] to a 500.  The
    registry the handler read is handed back as it was found. *)
Definition get_categorized_parameters (p : process) (node_id : string)
    : result pydict * process :=
  (match get_categorized_parameters_try (get_node_registry p) node_id with
   | Return r => Return r
   | Raise e =>
       if is_HTTPException e then Raise e
       else Raise (HTTPException 500%Z "Internal Server Error")
   end, p).

(** A parameter's classification: [param.get("optional", False)] as a
    truth value. *)
Definition is_optional (param : pydict) : bool :=
  truthy (default (PBool false) (dict_get "optional" param)).

(** The parameter list a node declares, when it has the registry's shape:
    no ["parameters"] key (the [.get] default, an empty list) or a list of
    dictionaries. *)
Definition declared_parameters (node : pydict) : option (list pydict) :=
  match dict_get "parameters" node with
  | None => Some []
  | Some v => as_list_of_dict v
  end.

End Controller.

(** ** The workflow core: graph, validator, scheduler, engine, aggregator *)

Module Core.

(** Modelled from the spec: the workflow core the controller imports as
    [src.workflow_executor.WorkflowExecutor] is not among the sources, so
    this module follows §3 and §4 of the specification.  [NodeInstance],
    [Edge] and [WorkflowGraph] are the data model of §3. *)
Record NodeInstance := {
  instance_id : string;
  type_id : string;
  parameters : pydict
}.

Record Edge := {
  source_instance_id : string;
  source_port : string;
  target_instance_id : string;
  target_port : string
}.

Record WorkflowGraph := {
  instances : list NodeInstance;
  edges : list Edge
}.

(** Modelled from the spec: [ParameterSpec] and the Node Descriptor of §2
    and §3.  The execution function returns the outputs, or raises (a
    [NodeExecutionError]); [output_ports] are the ports the descriptor
    declares besides its parameters, which are its input ports. *)
Record ParameterSpec := {
  name : string;
  required : bool;
  default_value : option pyval;
  type_kind : string
}.

Record Descriptor := {
  identifier : string;
  parameter_list : list ParameterSpec;
  output_ports : list string;
  execution_function : pydict → result pydict
}.

(** The Node Registry, as the lookup capability [resolve(type_id)]. *)
Abbreviation Registry := (string → option Descriptor).

Definition ids (g : WorkflowGraph) : list string := instance_id <$> instances g.

Definition lookup_instance (g : WorkflowGraph) (i : string) : option NodeInstance :=
  head (filter (λ n, instance_id n = i) (instances g)).

(** The dependency relation: [edge_rel g s t] when some edge of [g] leads
    from an output of [s] to an input of [t]. *)
Definition edge_rel (es : list Edge) (s t : string) : Prop :=
  ∃ e, e ∈ es ∧ source_instance_id e = s ∧ target_instance_id e = t.

(** The invariants of §3 the scheduler relies on: instance ids are unique,
    and both endpoints of every edge are instances of the graph. *)
Definition well_formed (g : WorkflowGraph) : Prop :=
  NoDup (ids g) ∧
  ∀ e, e ∈ edges g → source_instance_id e ∈ ids g ∧ target_instance_id e ∈ ids g.

(** [well_formed], as a check. *)
Definition well_formedb (g : WorkflowGraph) : bool :=
  bool_decide (NoDup (ids g)) &&
  forallb (λ e, bool_decide (source_instance_id e ∈ ids g) &&
                bool_decide (target_instance_id e ∈ ids g)) (edges g).

Definition acyclic (g : WorkflowGraph) : Prop :=
  ∀ x, ¬ tc (edge_rel (edges g)) x x.

Definition has_cycle (g : WorkflowGraph) : Prop :=
  ∃ x, tc (edge_rel (edges g)) x x.

(** *** 4.1 Graph Validator *)

Inductive ValidationError :=
| UnknownNodeType (i t : string)
| DanglingEdge (e : Edge)
| MissingParameter (i param : string)
| ConflictingParameter (i param : string).

(** Check 1: every [type_id] resolves. *)
Definition unknown_types (resolve : Registry) (g : WorkflowGraph) : list ValidationError :=
  omap (λ n, match resolve (type_id n) with
             | None => Some (UnknownNodeType (instance_id n) (type_id n))
             | Some _ => None
             end) (instances g).

(** The descriptor of the instance called [i], when both resolve. *)
Definition descriptor_of (resolve : Registry) (g : WorkflowGraph) (i : string)
    : option Descriptor :=
  lookup_instance g i ≫= λ n, resolve (type_id n).

Definition edge_resolves (resolve : Registry) (g : WorkflowGraph) (e : Edge) : bool :=
  match descriptor_of resolve g (source_instance_id e),
        descriptor_of resolve g (target_instance_id e) with
  | Some ds, Some dt =>
      bool_decide (source_port e ∈ output_ports ds) &&
      bool_decide (target_port e ∈ name <$> parameter_list dt)
  | _, _ => false
  end.

(** Check 2: every edge endpoint exists and names a declared port. *)
Definition dangling_edges (resolve : Registry) (g : WorkflowGraph) : list ValidationError :=
  DanglingEdge <$> filter (λ e, edge_resolves resolve g e = false) (edges g).

(** The edges that write input [port] of instance [i]. *)
Definition inbound (es : list Edge) (i port : string) : list Edge :=
  filter (λ e, target_instance_id e = i ∧ target_port e = port) es.

(** The number of sources of a parameter: its literal, if any, and the
    edges into its port. *)
Definition sources (g : WorkflowGraph) (n : NodeInstance) (port : string) : nat :=
  (match dict_get port (parameters n) with Some _ => 1 | None => 0 end) +
  length (inbound (edges g) (instance_id n) port).

(** A parameter that must have a source: a required one (§4.1), and an
    optional one for which the descriptor supplies no default (§9). *)
Definition needs_source (ps : ParameterSpec) : bool :=
  required ps || match default_value ps with Some _ => false | None => true end.

(** Check 3, for one declared parameter: no parameter may have more than
    one source (§3: not both a literal and an edge), and one that needs a
    source must have one. *)
Definition parameter_error (g : WorkflowGraph) (n : NodeInstance) (ps : ParameterSpec)
    : option ValidationError :=
  match sources g n (name ps) with
  | 0 => if needs_source ps
         then Some (MissingParameter (instance_id n) (name ps)) else None
  | 1 => None
  | _ => Some (ConflictingParameter (instance_id n) (name ps))
  end.

(** Check 3: every parameter that needs a source has exactly one (literal
    XOR inbound edge), and no parameter has more than one. *)
Definition parameter_errors (resolve : Registry) (g : WorkflowGraph) : list ValidationError :=
  n ← instances g;
  match resolve (type_id n) with
  | None => []
  | Some d => omap (parameter_error g n) (parameter_list d)
  end.

(** Check 4: no instance has two edges writing the same input port. *)
Definition doubly_written (g : WorkflowGraph) : list ValidationError :=
  omap (λ e,
          match inbound (edges g) (target_instance_id e) (target_port e) with
          | _ :: _ :: _ => Some (ConflictingParameter (target_instance_id e) (target_port e))
          | _ => None
          end) (edges g).

(** Modelled from the spec: [validate] of §4.1, the four checks in order,
    stopping at the first category that has errors and returning all the
    errors of that category; the empty list is [Ok]. *)
Definition validate (resolve : Registry) (g : WorkflowGraph) : list ValidationError :=
  match unknown_types resolve g with
  | (_ :: _) as errs => errs
  | [] =>
      match dangling_edges resolve g with
      | (_ :: _) as errs => errs
      | [] =>
          match parameter_errors resolve g with
          | (_ :: _) as errs => errs
          | [] => doubly_written g
          end
      end
  end.

(** *** 4.2 Dependency Scheduler *)

Inductive order_result :=
| Batches (bs : list (list string))
| CycleError (involved : list string).

(** In-degree counts, kept in a map; an instance without an entry counts
    as zero. *)
Definition indeg (deg : gmap string nat) (i : string) : nat := default 0 (deg !! i).

Definition increment (i : string) (deg : gmap string nat) : gmap string nat :=
  <[i := S (indeg deg i)]> deg.

Definition decrement (i : string) (deg : gmap string nat) : gmap string nat :=
  <[i := pred (indeg deg i)]> deg.

(** The initial counts: one per edge, at the edge's target. *)
Definition in_degrees (es : list Edge) : gmap string nat :=
  foldl (λ deg e, increment (target_instance_id e) deg) ∅ es.

(** Removing a batch: every edge that leaves the batch lowers the count of
    its target. *)
Definition release (es : list Edge) (batch : list string) (deg : gmap string nat)
    : gmap string nat :=
  foldl (λ deg e, if decide (source_instance_id e ∈ batch)
                  then decrement (target_instance_id e) deg else deg) deg es.

(** The first dependency of [x] that is still unresolved. *)
Definition unresolved_dependency (es : list Edge) (remaining : list string) (x : string)
    : option string :=
  source_instance_id <$>
    head (filter (λ e, target_instance_id e = x ∧ source_instance_id e ∈ remaining) es).

(** The part of [l] up to and including the first [p]. *)
Fixpoint take_through (p : string) (l : list string) : list string :=
  match l with
  | [] => []
  | y :: l' => if decide (y = p) then [y] else y :: take_through p l'
  end.

(** Modelled from the spec: the stalled pass of §4.2.  From [x], follow
    unresolved dependencies backwards,
    keeping the instances walked through ([x :: path], each depending on the
    one before it in the walk), until a dependency is met that was already
    walked through: that edge is a back-edge, and the instances from it to
    the current one are the cycle it closes. *)
Fixpoint back_walk (fuel : nat) (es : list Edge) (remaining path : list string) (x : string)
    : list string :=
  match unresolved_dependency es remaining x with
  | None => []
  | Some p =>
      if decide (p ∈ x :: path) then take_through p (x :: path)
      else match fuel with
           | O => []
           | S fuel' => back_walk fuel' es remaining (x :: path) p
           end
  end.

Definition find_cycle (es : list Edge) (remaining : list string) : list string :=
  match remaining with
  | [] => []
  | x :: _ => back_walk (length remaining) es remaining [] x
  end.

(** Modelled from the spec: the reduction of §4.2.  The instances whose
    count is zero form the next batch;
    they are removed and the counts of their dependents lowered.  When
    instances remain and none has count zero, the pass has stalled on a
    cycle.  [fuel] bounds the number of batches; [None] is its exhaustion. *)
Fixpoint reduce (fuel : nat) (es : list Edge) (remaining : list string)
    (deg : gmap string nat) : option order_result :=
  match remaining with
  | [] => Some (Batches [])
  | _ :: _ =>
      match fuel with
      | O => None
      | S fuel' =>
          match filter (λ i, indeg deg i = 0) remaining with
          | [] => Some (CycleError (find_cycle es remaining))
          | (_ :: _) as batch =>
              match reduce fuel' es (filter (λ i, i ∉ batch) remaining)
                           (release es batch deg) with
              | Some (Batches bs) => Some (Batches (batch :: bs))
              | r => r
              end
          end
      end
  end.

(** Modelled from the spec: [order] of §4.2, the in-degree (Kahn-style)
    reduction in batches, with [CycleError] naming the instances of the
    cycle found from a back-edge of the stalled pass.  One batch removes at
    least one instance, so as many rounds as there are instances suffice. *)
Definition order (g : WorkflowGraph) : option order_result :=
  reduce (length (instances g)) (edges g) (ids g) (in_degrees (edges g)).

(** The index of the batch that holds [x]. *)
Fixpoint batch_index (bs : list (list string)) (x : string) : option nat :=
  match bs with
  | [] => None
  | b :: bs' => if decide (x ∈ b) then Some 0 else S <$> batch_index bs' x
  end.

(** *** 4.3 Execution Engine *)

Inductive Status :=
| Success
| Failed (error : string).

Record ExecutionResult := {
  outputs : pydict;
  status : Status
}.

(** The engine's state: the mapping [results], the instances marked
    [Skipped], and the log of the calls made to execution functions, each
    with the instance called and the inputs it was given. *)
Record EngineState := {
  results : gmap string ExecutionResult;
  skipped : list string;
  invocations : list (string * pydict)
}.

Definition initial_state : EngineState :=
  {| results := ∅; skipped := []; invocations := [] |}.

(** An [InternalError] of §7: not a [ValueError]. *)
Definition internal_error (what : string) : exn :=
  OtherException ("InternalError: " +:+ what).

(** Modelled from the spec: input resolution of §4.3, for one declared
    parameter: its literal if the instance has one; otherwise
    the output its inbound edge names, read from the cached result of the
    edge's source; otherwise the descriptor's default, if any. *)
Definition resolve_parameter (g : WorkflowGraph) (n : NodeInstance)
    (res : gmap string ExecutionResult) (ps : ParameterSpec) : result (option pyval) :=
  match dict_get (name ps) (parameters n) with
  | Some literal => Return (Some literal)
  | None =>
      match head (inbound (edges g) (instance_id n) (name ps)) with
      | Some e =>
          match res !! source_instance_id e with
          | Some r =>
              match dict_get (source_port e) (outputs r) with
              | Some v => Return (Some v)
              | None => Raise (internal_error "output port not produced")
              end
          | None => Raise (internal_error "source has no result")
          end
      | None => Return (default_value ps)
      end
  end.

Fixpoint resolve_inputs (g : WorkflowGraph) (n : NodeInstance)
    (res : gmap string ExecutionResult) (specs : list ParameterSpec) : result pydict :=
  match specs with
  | [] => Return []
  | ps :: rest =>
      match resolve_parameter g n res ps with
      | Raise e => Raise e
      | Return v =>
          match resolve_inputs g n res rest with
          | Raise e => Raise e
          | Return inputs =>
              Return (match v with
                      | Some v => (name ps, v) :: inputs
                      | None => inputs
                      end)
          end
      end
  end.

Definition successors (es : list Edge) (x : string) : list string :=
  target_instance_id <$> filter (λ e, source_instance_id e = x) es.

(** Reachability over the edge graph, level by level: [seen] are the
    instances reached so far, [frontier] the ones reached last. *)
Fixpoint reachable_from (fuel : nat) (es : list Edge) (frontier seen : list string)
    : list string :=
  match fuel with
  | O => seen
  | S fuel' =>
      match remove_dups (filter (λ y, y ∉ seen) (frontier ≫= successors es)) with
      | [] => seen
      | (_ :: _) as new => reachable_from fuel' es new (seen ++ new)
      end
  end.

(** Modelled from the spec: the skip set of §4.3, the instances that depend
    on [x], directly or indirectly, by reachability over the edges. *)
Definition descendants (g : WorkflowGraph) (x : string) : list string :=
  reachable_from (length (instances g)) (edges g) [x] [].

(** Modelled from the spec: one instance of a batch, per §4.3.  A skipped
    instance is passed over.  Otherwise
    its inputs are resolved and its descriptor's execution function is
    called: on success the outputs are stored, on failure an empty
    [Failed] result is stored and every descendant is marked [Skipped]. *)
Definition run_instance (resolve : Registry) (g : WorkflowGraph) (st : EngineState)
    (i : string) : result EngineState :=
  if decide (i ∈ skipped st) then Return st
  else
    match lookup_instance g i with
    | None => Raise (internal_error "unknown instance")
    | Some n =>
        match resolve (type_id n) with
        | None => Raise (internal_error "unknown node type")
        | Some d =>
            match resolve_inputs g n (results st) (parameter_list d) with
            | Raise e => Raise e
            | Return inputs =>
                match execution_function d inputs with
                | Return outs =>
                    Return {| results := <[i := {| outputs := outs; status := Success |}]>
                                           (results st);
                              skipped := skipped st;
                              invocations := invocations st ++ [(i, inputs)] |}
                | Raise e =>
                    Return {| results := <[i := {| outputs := [];
                                                   status := Failed (exn_str e) |}]>
                                           (results st);
                              skipped := skipped st ++ descendants g i;
                              invocations := invocations st ++ [(i, inputs)] |}
                end
            end
        end
    end.

Fixpoint run_batch (resolve : Registry) (g : WorkflowGraph) (batch : list string)
    (st : EngineState) : result EngineState :=
  match batch with
  | [] => Return st
  | i :: rest =>
      match run_instance resolve g st i with
      | Raise e => Raise e
      | Return st' => run_batch resolve g rest st'
      end
  end.

(** Modelled from the spec: [run] of §4.3, batch after batch from a given
    state.  The instances of a batch do not depend on one another, so the
    batch is processed in the order it lists them. *)
Fixpoint run (resolve : Registry) (g : WorkflowGraph) (bs : list (list string))
    (st : EngineState) : result EngineState :=
  match bs with
  | [] => Return st
  | batch :: rest =>
      match run_batch resolve g batch st with
      | Raise e => Raise e
      | Return st' => run resolve g rest st'
      end
  end.

(** The number of calls made to the execution function of instance [i]. *)
Definition invocation_count (st : EngineState) (i : string) : nat :=
  length (filter (λ c, c.1 = i) (invocations st)).

(** The inputs instance [i] was called with (the first call's). *)
Definition inputs_of (st : EngineState) (i : string) : option pydict :=
  snd <$> head (filter (λ c, c.1 = i) (invocations st)).

(** *** 4.4 Result Aggregator *)

Definition is_terminal (g : WorkflowGraph) (i : string) : Prop :=
  Forall (λ e, source_instance_id e ≠ i) (edges g).

(** What is reported for an instance: its outputs, or its status. *)
Definition report (st : EngineState) (i : string) : pyval :=
  if decide (i ∈ skipped st) then PStr "Skipped"
  else
    match results st !! i with
    | Some r =>
        match status r with
        | Success => PDict (outputs r)
        | Failed error => PStr ("Failed: " +:+ error)
        end
    | None => PNone
    end.

(** Modelled from the spec: [collect] of §4.4, restricted to the terminal
    instances (the request shape of §6 has no flag for designated
    outputs). *)
Definition collect (g : WorkflowGraph) (st : EngineState) : pydict :=
  (λ n, (instance_id n, report st (instance_id n))) <$>
    filter (λ n, is_terminal g (instance_id n)) (instances g).

(** *** The executor: validator, scheduler, engine, aggregator *)

Definition error_message (err : ValidationError) : string :=
  match err with
  | UnknownNodeType i t => "UnknownNodeType(" +:+ i +:+ ", " +:+ t +:+ ")"
  | DanglingEdge e =>
      "DanglingEdge(" +:+ source_instance_id e +:+ "." +:+ source_port e +:+ " -> "
        +:+ target_instance_id e +:+ "." +:+ target_port e +:+ ")"
  | MissingParameter i param => "MissingParameter(" +:+ i +:+ ", " +:+ param +:+ ")"
  | ConflictingParameter i param => "ConflictingParameter(" +:+ i +:+ ", " +:+ param +:+ ")"
  end.

(** Modelled from the spec: the data flow of §2, Graph, Validator,
    Scheduler, Engine, Aggregator.  The pre-execution errors of §7 are raised
    as [ValueError], the class [execute_workflow] answers with a 4xx.  The
    second component tells whether the engine was invoked, and with what
    outcome. *)
Definition execute (resolve : Registry) (g : WorkflowGraph)
    : result pydict * option (result EngineState) :=
  match validate resolve g with
  | err :: _ => (Raise (ValueError (error_message err)), None)
  | [] =>
      match order g with
      | None => (Raise (internal_error "scheduler"), None)
      | Some (CycleError involved) =>
          (Raise (ValueError ("CycleError(" +:+ String.concat ", " involved +:+ ")")), None)
      | Some (Batches bs) =>
          let r := run resolve g bs initial_state in
          (match r with
           | Return st => Return (collect g st)
           | Raise e => Raise e
           end, Some r)
      end
  end.

Definition as_str (v : pyval) : option string :=
  match v with PStr s => Some s | _ => None end.

(** A node of the request, [{id, type, parameters}]. *)
Definition node_of_dict (d : pydict) : option NodeInstance :=
  i ← dict_get "id" d ≫= as_str;
  t ← dict_get "type" d ≫= as_str;
  ps ← match dict_get "parameters" d with
       | None => Some []
       | Some v => Controller.as_dict v
       end;
  Some {| instance_id := i; type_id := t; parameters := ps |}.

(** An edge of the request, [{source, sourcePort, target, targetPort}]. *)
Definition edge_of_dict (d : pydict) : option Edge :=
  s ← dict_get "source" d ≫= as_str;
  sp ← dict_get "sourcePort" d ≫= as_str;
  t ← dict_get "target" d ≫= as_str;
  tp ← dict_get "targetPort" d ≫= as_str;
  Some {| source_instance_id := s; source_port := sp;
          target_instance_id := t; target_port := tp |}.

(** The Workflow Graph of a request, per the request shape of §6. *)
Definition graph_of_workflow_data (workflow_data : pyval) : option WorkflowGraph :=
  match workflow_data with
  | PDict d =>
      nds ← dict_get "nodes" d ≫= Controller.as_list_of_dict;
      ns ← mapM node_of_dict nds;
      eds ← dict_get "edges" d ≫= Controller.as_list_of_dict;
      es ← mapM edge_of_dict eds;
      Some {| instances := ns; edges := es |}
  | _ => None
  end.

(** Modelled from the spec: [WorkflowExecutor(workflow_data).execute_workflow()],
    absent from the sources.  A request that does not have the shape of §6
    is a malformed definition, reported like the validator's errors. *)
Definition WorkflowExecutor (resolve : Registry) (workflow_data : pyval) : result pyval :=
  match graph_of_workflow_data workflow_data with
  | None => Raise (ValueError "malformed workflow definition")
  | Some g =>
      match (execute resolve g).1 with
      | Return final_outputs => Return (PDict final_outputs)
      | Raise e => Raise e
      end
  end.

(** The dependencies of [k] that are still unresolved, one per edge. *)
Definition pending (es : list Edge) (remaining : list string) (k : string) : nat :=
  length (filter (λ e, target_instance_id e = k ∧ source_instance_id e ∈ remaining) es).

(** The scheduler's invariant: every count is the number of unresolved
    dependencies. *)
Definition counts_unresolved (es : list Edge) (remaining : list string)
    (deg : gmap string nat) : Prop :=
  ∀ k, indeg deg k = pending es remaining k.

(** [linked es l]: every element of [l] has an edge to the next one. *)
Fixpoint linked (es : list Edge) (l : list string) : Prop :=
  match l with
  | a :: l' => match l' with
               | b :: _ => edge_rel es a b ∧ linked es l'
               | [] => True
               end
  | [] => True
  end.


(** Edge [e] is the source of its target's parameter: the target declares
    the port, has no literal for it, and [e] is the edge read for it. *)
Definition consumes (resolve : Registry) (g : WorkflowGraph) (e : Edge) : Prop :=
  ∃ n d,
    lookup_instance g (target_instance_id e) = Some n ∧
    resolve (type_id n) = Some d ∧
    target_port e ∈ name <$> parameter_list d ∧
    dict_get (target_port e) (parameters n) = None ∧
    head (inbound (edges g) (target_instance_id e) (target_port e)) = Some e.

(** What the target of [e] observed of its source's result [r]: if the
    target was called, the value it was given on the edge's target port is
    the value [r] holds on the edge's source port. *)
Definition observed (st : EngineState) (e : Edge) (r : ExecutionResult) : Prop :=
  ∀ inputs, inputs_of st (target_instance_id e) = Some inputs →
    ∃ v, dict_get (source_port e) (outputs r) = Some v ∧
         dict_get (target_port e) inputs = Some v.

(** The engine's invariant once the instances [done] have been processed:
    an instance has been called once if it is processed and not skipped, and
    not at all otherwise; exactly the called instances have a result; and
    every consuming edge whose target was called delivered the value cached
    for its source. *)
Definition engine_invariant (resolve : Registry) (g : WorkflowGraph)
    (done : list string) (st : EngineState) : Prop :=
  (∀ i, invocation_count st i = if decide (i ∈ done ∧ i ∉ skipped st) then 1%nat else 0%nat) ∧
  (∀ i, is_Some (results st !! i) ↔ i ∈ done ∧ i ∉ skipped st) ∧
  (∀ e, consumes resolve g e → is_Some (inputs_of st (target_instance_id e)) →
        ∃ r, results st !! source_instance_id e = Some r ∧ observed st e r).

(** Instance [f] failed: its cached result has status [Failed]. *)
Definition failed (st : EngineState) (f : string) : Prop :=
  ∃ r error, results st !! f = Some r ∧ status r = Failed error.

(** The skip rule of §4.3 and §8: the instances marked [Skipped] are exactly
    those that depend, directly or indirectly, on an instance that failed. *)
Definition skip_invariant (g : WorkflowGraph) (st : EngineState) : Prop :=
  ∀ x, x ∈ skipped st ↔ ∃ f, failed st f ∧ tc (edge_rel (edges g)) f x.

(** What the engine stores for a call: the outputs with [Success], or no
    outputs with [Failed]. *)
Definition result_of (outcome : result pydict) : ExecutionResult :=
  match outcome with
  | Return outs => {| outputs := outs; status := Success |}
  | Raise e => {| outputs := []; status := Failed (exn_str e) |}
  end.

(** Every cached result is the outcome of the call logged for its instance:
    the descriptor's execution function applied to the inputs it was
    given. *)
Definition results_of_calls (resolve : Registry) (g : WorkflowGraph) (st : EngineState)
    : Prop :=
  ∀ f r, results st !! f = Some r →
    ∃ n d inputs,
      lookup_instance g f = Some n ∧ resolve (type_id n) = Some d ∧
      inputs_of st f = Some inputs ∧
      r = result_of (execution_function d inputs).

(** The three invariants of a run, once the instances [done] have been
    processed. *)
Definition run_invariants (resolve : Registry) (g : WorkflowGraph)
    (done : list string) (st : EngineState) : Prop :=
  engine_invariant resolve g done st ∧ skip_invariant g st ∧ results_of_calls resolve g st.

(** A registry whose execution functions, when they return, produce every
    output port their descriptor declares. *)
Definition produces_declared_outputs (resolve : Registry) : Prop :=
  ∀ t d inputs outs,
    resolve t = Some d → execution_function d inputs = Return outs →
    ∀ port, port ∈ output_ports d → is_Some (dict_get port outs).

End Core.

(** ** The scenarios of §8, on a registry of three node types *)

Module Example.
Import Core.

Definition int_param (n : string) : ParameterSpec :=
  {| name := n; required := true; default_value := None; type_kind := "int" |}.

Definition binop (f : Z → Z → Z) (inputs : pydict) : result pydict :=
  match dict_get "x" inputs, dict_get "y" inputs with
  | Some (PInt a), Some (PInt b) => Return [("out", PInt (f a b))]
  | _, _ => Raise (ValueError "expected two integers")
  end.

(** [add] and [multiply] of the scenarios, and [fail], whose execution
    function always raises. *)
Definition registry : Registry := λ t,
  if decide (t = "add") then
    Some {| identifier := "add"; parameter_list := [int_param "x"; int_param "y"];
            output_ports := ["out"]; execution_function := binop Z.add |}
  else if decide (t = "multiply") then
    Some {| identifier := "multiply"; parameter_list := [int_param "x"; int_param "y"];
            output_ports := ["out"]; execution_function := binop Z.mul |}
  else if decide (t = "fail") then
    Some {| identifier := "fail"; parameter_list := [];
            output_ports := ["out"];
            execution_function := λ _, Raise (OtherException "NodeExecutionError: boom") |}
  else None.

Definition edge (s t tp : string) : Edge :=
  {| source_instance_id := s; source_port := "out";
     target_instance_id := t; target_port := tp |}.

Definition node (i t : string) (ps : pydict) : NodeInstance :=
  {| instance_id := i; type_id := t; parameters := ps |}.

(** [A(add, x=2, y=3)], [B(multiply, x <- A.out, y=4)]. *)
Definition add_then_multiply : WorkflowGraph :=
  {| instances := [node "A" "add" [("x", PInt 2); ("y", PInt 3)];
                   node "B" "multiply" [("y", PInt 4)]];
     edges := [edge "A" "B" "x"] |}.

(** [A.out -> B.x] and [B.out -> A.x]: a cycle of two. *)
Definition two_cycle : WorkflowGraph :=
  {| instances := [node "A" "add" [("y", PInt 3)];
                   node "B" "multiply" [("y", PInt 4)]];
     edges := [edge "A" "B" "x"; edge "B" "A" "x"] |}.




(** [add_then_multiply] as a request body. *)
Definition add_then_multiply_body : pyval :=
  PDict [("nodes", PList [PDict [("id", PStr "A"); ("type", PStr "add");
                                 ("parameters", PDict [("x", PInt 2); ("y", PInt 3)])];
                          PDict [("id", PStr "B"); ("type", PStr "multiply");
                                 ("parameters", PDict [("y", PInt 4)])]]);
         ("edges", PList [PDict [("source", PStr "A"); ("sourcePort", PStr "out");
                                 ("target", PStr "B"); ("targetPort", PStr "x")]]);
         ("view", PDict [])].

(** An executor that fails on a valid definition, for a reason of its own,
    with a [ValueError]: here the [json.JSONDecodeError] of a catalog file it
    cannot decode. *)
Definition undecodable_executor (workflow_data : pyval) : result pyval :=
  Raise (ValueError "Expecting value: line 1 column 1 (char 0)").

Definition optional_param (n : string) (default : option pyval) : ParameterSpec :=
  {| name := n; required := false; default_value := default; type_kind := "int" |}.

(** [scale]: [out = x * factor + offset], with [factor] optional and 2 by
    default, and [offset] optional without a default. *)
Definition scale (inputs : pydict) : result pydict :=
  match dict_get "x" inputs, dict_get "factor" inputs, dict_get "offset" inputs with
  | Some (PInt x), Some (PInt factor), Some (PInt offset) =>
      Return [("out", PInt (x * factor + offset))]
  | _, _, _ => Raise (ValueError "expected three integers")
  end.

Definition scale_registry : Registry := λ t,
  if decide (t = "scale") then
    Some {| identifier := "scale";
            parameter_list := [int_param "x"; optional_param "factor" (Some (PInt 2));
                               optional_param "offset" None];
            output_ports := ["out"]; execution_function := scale |}
  else None.

(** A request with two independent nodes, one of which fails. *)
Definition partial_failure_body : pyval :=
  PDict [("nodes", PList [PDict [("id", PStr "F"); ("type", PStr "fail")];
                          PDict [("id", PStr "I"); ("type", PStr "add");
                                 ("parameters", PDict [("x", PInt 2); ("y", PInt 3)])]]);
         ("edges", PList []);
         ("view", PDict [])].

End Example.

(** ** The process serving requests *)

Module Service.
Import Controller.

(** The requests of the routes modelled above. *)
Inductive request :=
| GetNodes
| GetAllNodes
| GetCategorizedParameters (node_id : string)
| GetExport
| PostExecute (body : pyval).

Definition to_pyval {A} (f : A → pyval) (r : result A) : result pyval :=
  match r with Return a => Return (f a) | Raise e => Raise e end.

(** The requests whose handlers only read: GET /node/get,
    /node/registry/nodes and /node/parameters/categorized/{node_id}. *)
Definition read_only (r : request) : bool :=
  match r with
  | GetNodes | GetAllNodes | GetCategorizedParameters _ => true
  | GetExport | PostExecute _ => false
  end.

Section serve.
(** [WorkflowExecutor(workflow_data).execute_workflow()] is built from the
    request alone, so the registry it resolves node types in can only be
    process-wide state.  [src/workflow_executor.py] is not among the
    sources: the executor is taken as given, a function of the request and
    of the process state, which it may change. *)
Variable WorkflowExecutor : pyval → process → result pyval * process.
Variable run_discovery : process → result unit * process.
Variable generate_json_spec : string → process → result unit * process.

(** One request served: the response, and the process state afterwards.
    The handler of POST /node/execute calls the executor once, on
    [workflow.dict()], when the body passes the request model. *)
Definition serve (p : process) (r : request) : result pyval * process :=
  match r with
  | GetNodes => list_nodes p
  | GetAllNodes =>
      let '(resp, p') := get_all_nodes p in (to_pyval (λ l, PList (PDict <$> l)) resp, p')
  | GetCategorizedParameters node_id =>
      let '(resp, p') := get_categorized_parameters p node_id in (to_pyval PDict resp, p')
  | GetExport =>
      let '(resp, p') := export_nodes run_discovery generate_json_spec p in
      (to_pyval PDict resp, p')
  | PostExecute body =>
      (to_pyval PDict
         (post_node_execute (λ workflow_data, (WorkflowExecutor workflow_data p).1) body),
       match Workflow_validate body with
       | Some workflow => (WorkflowExecutor (Workflow_dict workflow) p).2
       | None => p
       end)
  end.

(** Requests served one after the other by the same process. *)
Fixpoint serve_all (p : process) (rs : list request) : list (result pyval) * process :=
  match rs with
  | [] => ([], p)
  | r :: rs' =>
      let '(resp, p') := serve p r in
      let '(resps, p'') := serve_all p' rs' in
      (resp :: resps, p'')
  end.

(** Serving [r] neither reads nor changes process-wide state: the response
    is the same from any two process states, and the state is left as it
    was. *)
Definition ambient_free (r : request) : Prop :=
  ∀ p p', (serve p r).1 = (serve p' r).1 ∧ (serve p r).2 = p.

End serve.

(** An executor that keeps its registry to itself and touches no process
    state: the workflow core on the registry of the scenarios. *)
Definition scenario_executor (workflow_data : pyval) (p : process)
    : result pyval * process :=
  (Core.WorkflowExecutor Example.registry workflow_data, p).

(** Discovery and generation that do nothing. *)
Definition no_discovery (p : process) : result unit * process := (Return (), p).

Definition no_generation (output_path : string) (p : process) : result unit * process :=
  (Return (), p).

(** A generation that writes the catalog [nodes] to [output_path]. *)
Definition write_catalog (nodes : pyval) (output_path : string) (p : process)
    : result unit * process :=
  (Return (),
   {| NODE_REGISTRY := NODE_REGISTRY p;
      files := <[output_path := NodeList.Decodes nodes]> (files p) |}).

End Service.


(** ** The catalog endpoints of the node controller *)

Module Catalog.
Import Controller.

(** [node.get(key, default)]. *)
Definition node_get (key : string) (dflt : pyval) (node : pydict) : pyval :=
  default dflt (dict_get key node).

(** [except HTTPException: raise] followed by [except Exception] to a 500. *)
Definition reraise_http {A : Type} (r : result A) : result A :=
  match r with
  | Return a => Return a
  | Raise e =>
      if is_HTTPException e then Raise e
      else Raise (HTTPException 500%Z "Internal Server Error")
  end.

(** A lone [except Exception] to a 500. *)
Definition internal_server_error {A : Type} (r : result A) : result A :=
  match r with
  | Return a => Return a
  | Raise _ => Raise (HTTPException 500%Z "Internal Server Error")
  end.

(** *** GET /node/registry/node/{node_id} *)

Definition get_node_by_id_try (node_registry : list pydict) (node_id : string)
    : result pydict :=
  match find_node node_registry node_id with
  | Raise e => Raise e
  | Return (Some node) => Return node
  | Return None => Raise (node_not_found node_id)
  end.

Definition get_node_by_id (p : process) (node_id : string) : result pydict * process :=
  (reraise_http (get_node_by_id_try (get_node_registry p) node_id), p).

(** A node that has an id, and another one than [node_id]: the scan of
    [find_node] passes over it. *)
Definition other_id (node_id : string) (node : pydict) : Prop :=
  ∃ v, dict_get "id" node = Some v ∧ eq_str v node_id = false.

(** *** GET /node/registry *)

(** [[node["id"] for node in node_registry]]. *)
Fixpoint available_nodes (node_registry : list pydict) : result (list pyval) :=
  match node_registry with
  | [] => Return []
  | node :: rest =>
      match dict_get "id" node with
      | None => Raise (OtherException "KeyError: 'id'")
      | Some v =>
          match available_nodes rest with
          | Raise e => Raise e
          | Return l => Return (v :: l)
          end
      end
  end.

(** [get_node_registry_info].  [node_class_registry] is what
    [get_node_class_registry()] of [src/node_composer.py] returns, a
    dictionary of which only the keys are used. *)
Definition get_node_registry_info {C : Type} (node_class_registry : list (string * C))
    (p : process) : result pydict * process :=
  let node_registry := get_node_registry p in
  (internal_server_error
     (match available_nodes node_registry with
      | Raise e => Raise e
      | Return ids =>
          Return [("status", PStr "success");
                  ("node_count", PInt (Z.of_nat (length node_registry)));
                  ("available_nodes", PList ids);
                  ("registry_data", PList (PDict <$> node_registry));
                  ("class_registry_keys", PList (PStr <$> dict_keys node_class_registry))]
      end), p).

(** *** GET /node/search *)

(** [needle in hay] for two strings. *)
Fixpoint contains (needle hay : string) : bool :=
  String.prefix needle hay ||
  match hay with
  | EmptyString => false
  | String _ hay' => contains needle hay'
  end.

(** [s.split(sep)] for a separator of one character. *)
Fixpoint split (sep : Ascii.ascii) (s : string) : list string :=
  match s with
  | EmptyString => [EmptyString]
  | String c s' =>
      if Ascii.eqb c sep then EmptyString :: split sep s'
      else match split sep s' with
           | h :: t => String c h :: t
           | [] => [String c EmptyString]
           end
  end.

(** The list comprehension [[node for node in nodes if test(node)]], where
    the test may raise: the tests run in list order and the first exception
    ends the comprehension. *)
Fixpoint filter_nodes (test : pydict → result bool) (nodes : list pydict)
    : result (list pydict) :=
  match nodes with
  | [] => Return []
  | node :: rest =>
      match test node with
      | Raise e => Raise e
      | Return b =>
          match filter_nodes test rest with
          | Raise e => Raise e
          | Return l => Return (if b then node :: l else l)
          end
      end
  end.

(** [[f(x) for x in l]] for an [f] that may raise. *)
Fixpoint map_result {A B : Type} (f : A → result B) (l : list A) : result (list B) :=
  match l with
  | [] => Return []
  | x :: rest =>
      match f x with
      | Raise e => Raise e
      | Return y =>
          match map_result f rest with
          | Raise e => Raise e
          | Return ys => Return (y :: ys)
          end
      end
  end.

Section search.
(** [str.lower] and [str.strip], taken as given. *)
Variable str_lower : string → string.
Variable str_strip : string → string.

(** [v.lower()]: only a [str] has the method. *)
Definition py_lower (v : pyval) : result string :=
  match v with
  | PStr s => Return (str_lower s)
  | _ => Raise (OtherException "AttributeError: no attribute 'lower'")
  end.

(** [query_lower in node.get("description", "").lower() or
     query_lower in node.get("nodeName", "").lower()]. *)
Definition query_test (query_lower : string) (node : pydict) : result bool :=
  match py_lower (node_get "description" (PStr "") node) with
  | Raise e => Raise e
  | Return description =>
      if contains query_lower description then Return true
      else
        match py_lower (node_get "nodeName" (PStr "") node) with
        | Raise e => Raise e
        | Return node_name => Return (contains query_lower node_name)
        end
  end.

(** [[node_tag.lower() for node_tag in node.get("tags", [])]]. *)
Definition node_tags_lower (node : pydict) : result (list string) :=
  match py_iter (node_get "tags" (PList []) node) with
  | Raise e => Raise e
  | Return node_tags => map_result py_lower node_tags
  end.

(** [any(search_tag in [...] for search_tag in search_tags)]: the list of
    lowered tags is built anew for each search tag, and the first hit ends
    the scan. *)
Fixpoint tags_test (search_tags : list string) (node : pydict) : result bool :=
  match search_tags with
  | [] => Return false
  | search_tag :: rest =>
      match node_tags_lower node with
      | Raise e => Raise e
      | Return lowered =>
          if bool_decide (search_tag ∈ lowered) then Return true
          else tags_test rest node
      end
  end.

(** [node.get(key, "").lower() == wanted.lower()]. *)
Definition field_test (key wanted : string) (node : pydict) : result bool :=
  match py_lower (node_get key (PStr "") node) with
  | Raise e => Raise e
  | Return v => Return (bool_decide (v = str_lower wanted))
  end.

(** [if criterion:] for an optional query parameter. *)
Definition given (criterion : option string) : option string :=
  match criterion with
  | Some s => if String.eqb s "" then None else Some s
  | None => None
  end.

(** One [if criterion: filtered_nodes = [...]] step. *)
Definition narrow (criterion : option string) (test : string → pydict → result bool)
    (filtered_nodes : result (list pydict)) : result (list pydict) :=
  match filtered_nodes with
  | Raise e => Raise e
  | Return nodes =>
      match given criterion with
      | None => Return nodes
      | Some c => filter_nodes (test c) nodes
      end
  end.

(** [[tag.strip().lower() for tag in tags.split(",")]]. *)
Definition search_tags_of (tags : string) : list string :=
  (λ tag, str_lower (str_strip tag)) <$> split "," tags.

(** The body of the [try] block of [search_nodes]. *)
Definition search_nodes_try (node_registry : list pydict)
    (query tags category function : option string) : result (list pydict) :=
  let filtered_nodes := Return node_registry in
  let filtered_nodes := narrow query (λ q, query_test (str_lower q)) filtered_nodes in
  let filtered_nodes := narrow tags (λ t, tags_test (search_tags_of t)) filtered_nodes in
  let filtered_nodes := narrow category (field_test "categoryId") filtered_nodes in
  narrow function (field_test "functionId") filtered_nodes.

Definition search_nodes (p : process) (query tags category function : option string)
    : result (list pydict) * process :=
  (internal_server_error
     (search_nodes_try (get_node_registry p) query tags category function), p).

(** The truth value of a test that did not raise. *)
Definition holds (r : result bool) : bool :=
  match r with Return b => b | Raise _ => false end.

(** A node passes a criterion that is not given, and one whose test holds. *)
Definition passes (criterion : option string) (test : string → pydict → result bool)
    (node : pydict) : bool :=
  match given criterion with
  | None => true
  | Some c => holds (test c node)
  end.

(** A node passes every criterion that is given. *)
Definition matches (query tags category function : option string) (node : pydict) : bool :=
  passes query (λ q, query_test (str_lower q)) node &&
  passes tags (λ t, tags_test (search_tags_of t)) node &&
  passes category (field_test "categoryId") node &&
  passes function (field_test "functionId") node.

(** The fields the search reads have the registry's types: strings, and a
    list of strings for [tags]. *)
Definition is_str (v : pyval) : bool :=
  match v with PStr _ => true | _ => false end.

Definition searchable (node : pydict) : bool :=
  is_str (node_get "description" (PStr "") node) &&
  is_str (node_get "nodeName" (PStr "") node) &&
  is_str (node_get "categoryId" (PStr "") node) &&
  is_str (node_get "functionId" (PStr "") node) &&
  match node_get "tags" (PList []) node with
  | PList l => forallb is_str l
  | _ => false
  end.

End search.

(** *** GET /node/categories *)

(** Whether a value can be a dictionary key or a member of a set: lists and
    dictionaries are unhashable. *)
Definition hashable (v : pyval) : bool :=
  match v with PList _ | PDict _ => false | _ => true end.

(** The number an [int] or a [bool] compares as. *)
Definition as_number (v : pyval) : option Z :=
  match v with
  | PInt z => Some z
  | PBool b => Some (if b then 1%Z else 0%Z)
  | _ => None
  end.

(** [a == b] between two keys: strings by contents, numbers and booleans by
    value ([True == 1]), [None] with itself. *)
Definition key_eq (a b : pyval) : bool :=
  match a, b with
  | PNone, PNone => true
  | PStr s, PStr t => String.eqb s t
  | _, _ =>
      match as_number a, as_number b with
      | Some x, Some y => (x =? y)%Z
      | _, _ => false
      end
  end.

(** [d[k] = v] on a dictionary in insertion order: a key that is present
    keeps its place (and the key object), a new key goes last. *)
Fixpoint key_set (k v : pyval) (d : list (pyval * pyval)) : list (pyval * pyval) :=
  match d with
  | [] => [(k, v)]
  | (k', v') :: d' =>
      if key_eq k' k then (k', v) :: d' else (k', v') :: key_set k v d'
  end.

(** [d[k]] read back. *)
Definition key_lookup (k : pyval) (d : list (pyval * pyval)) : option pyval :=
  snd <$> head (filter (λ kv, key_eq kv.1 k = true) d).

(** The loop of [get_all_categories] over the registry. *)
Fixpoint collect_categories (node_registry : list pydict) (categories : list (pyval * pyval))
    : result (list (pyval * pyval)) :=
  match node_registry with
  | [] => Return categories
  | node :: rest =>
      let cat_id := node_get "categoryId" PNone node in
      let cat_name := node_get "categoryName" PNone node in
      if truthy cat_id && truthy cat_name then
        if hashable cat_id
        then collect_categories rest (key_set cat_id cat_name categories)
        else Raise (OtherException "TypeError: unhashable type")
      else collect_categories rest categories
  end.

Definition get_all_categories (p : process) : result (list pydict) * process :=
  (internal_server_error
     (match collect_categories (get_node_registry p) [] with
      | Raise e => Raise e
      | Return categories =>
          Return ((λ kv, [("id", kv.1); ("name", kv.2)]) <$> categories)
      end), p).

(** The name the registry gives category [k]: that of the last node that
    has a category id equal to [k] and a category name, both truthy. *)
Definition category_name (node_registry : list pydict) (k : pyval) : option pyval :=
  last (omap (λ node,
                let cat_id := node_get "categoryId" PNone node in
                let cat_name := node_get "categoryName" PNone node in
                if truthy cat_id && truthy cat_name && key_eq cat_id k
                then Some cat_name else None) node_registry).

(** No two keys of the dictionary are equal. *)
Fixpoint distinct_keys (d : list (pyval * pyval)) : Prop :=
  match d with
  | [] => True
  | kv :: d' => Forall (λ kv', key_eq kv.1 kv'.1 = false) d' ∧ distinct_keys d'
  end.

(** *** GET /node/tags *)

(** [s.add(v)] on a set, kept as the list of its members. *)
Definition set_add (v : pyval) (s : list pyval) : list pyval :=
  if existsb (λ x, key_eq x v) s then s else (s ++ [v])%list.

(** [for tag in tags: all_tags.add(tag)]. *)
Fixpoint add_tags (tags all_tags : list pyval) : result (list pyval) :=
  match tags with
  | [] => Return all_tags
  | tag :: rest =>
      if hashable tag then add_tags rest (set_add tag all_tags)
      else Raise (OtherException "TypeError: unhashable type")
  end.

Fixpoint collect_tags (node_registry : list pydict) (all_tags : list pyval)
    : result (list pyval) :=
  match node_registry with
  | [] => Return all_tags
  | node :: rest =>
      match py_iter (node_get "tags" (PList []) node) with
      | Raise e => Raise e
      | Return tags =>
          match add_tags tags all_tags with
          | Raise e => Raise e
          | Return all_tags' => collect_tags rest all_tags'
          end
      end
  end.

(** Insertion into a list sorted by [le]. *)
Fixpoint insert_sorted {A : Type} (le : A → A → bool) (x : A) (l : list A) : list A :=
  match l with
  | [] => [x]
  | y :: l' => if le x y then x :: l else y :: insert_sorted le x l'
  end.

Definition sort_by {A : Type} (le : A → A → bool) (l : list A) : list A :=
  foldr (insert_sorted le) [] l.

Definition str_of (v : pyval) : option string :=
  match v with PStr s => Some s | _ => None end.

(** [sorted(l)] on the members of a set, which are hashable and pairwise
    unequal.  Fewer than two members are compared with nothing.  Strings
    sort by code point, which on UTF-8 is the order of the bytes; numbers and
    booleans sort by value; any other mix ([None], or a string next to a
    number) cannot be compared and raises [TypeError]. *)
Definition py_sorted (l : list pyval) : result (list pyval) :=
  match l with
  | [] | [_] => Return l
  | _ =>
      match mapM str_of l with
      | Some strs => Return (PStr <$> sort_by String.leb strs)
      | None =>
          match mapM as_number l with
          | Some _ =>
              Return (sort_by (λ a b, match as_number a, as_number b with
                                      | Some x, Some y => (x <=? y)%Z
                                      | _, _ => true
                                      end) l)
          | None => Raise (OtherException "TypeError: '<' not supported")
          end
      end
  end.

Definition get_all_tags (p : process) : result (list pyval) * process :=
  (internal_server_error
     (match collect_tags (get_node_registry p) [] with
      | Raise e => Raise e
      | Return all_tags => py_sorted all_tags
      end), p).

(** The tags of a node whose ["tags"] is absent or a list of strings. *)
Definition string_tags (node : pydict) : option (list string) :=
  match node_get "tags" (PList []) node with
  | PList l => mapM str_of l
  | _ => None
  end.

(** *** GET /node/parameters/validation *)

(** [len(s)] for a string: its code points, the bytes of the UTF-8 encoding
    that are not continuation bytes. *)
Definition str_len (s : string) : nat :=
  length (filter (λ a, negb (((128 <=? Ascii.N_of_ascii a) && (Ascii.N_of_ascii a <? 192))%N) = true)
                 (list_ascii_of_string s)).

(** [len(v)]. *)
Definition py_len (v : pyval) : result Z :=
  match v with
  | PList l => Return (Z.of_nat (length l))
  | PDict d => Return (Z.of_nat (length d))
  | PStr s => Return (Z.of_nat (str_len s))
  | _ => Raise (OtherException "TypeError: object has no len()")
  end.

Section validation.
(** [validate_parameters] of [src/model/node.py], taken as given: it
    returns the pair [(is_valid, errors)] or raises. *)
Variable validate_parameters : pyval → result (pyval * pyval).

(** The loop of [validate_all_parameters]: a node whose parameters are
    falsy is passed over. *)
Fixpoint validation_results (node_registry : list pydict) : result (list pydict) :=
  match node_registry with
  | [] => Return []
  | node :: rest =>
      let parameters := node_get "parameters" (PList []) node in
      if truthy parameters then
        match validate_parameters parameters with
        | Raise e => Raise e
        | Return (is_valid, errors) =>
            match dict_get "id" node with
            | None => Raise (OtherException "KeyError: 'id'")
            | Some node_id =>
                match py_len parameters with
                | Raise e => Raise e
                | Return parameter_count =>
                    match validation_results rest with
                    | Raise e => Raise e
                    | Return results =>
                        Return ([("node_id", node_id);
                                 ("node_name", node_get "nodeName" (PStr "") node);
                                 ("is_valid", is_valid);
                                 ("errors", errors);
                                 ("parameter_count", PInt parameter_count)] :: results)
                    end
                end
            end
        end
      else validation_results rest
  end.

(** [sum(1 for result in validation_results if result["is_valid"])]. *)
Definition valid_count (results : list pydict) : nat :=
  length (filter (λ r, truthy (node_get "is_valid" PNone r) = true) results).

Definition validate_all_parameters (p : process) : result pydict * process :=
  (internal_server_error
     (match validation_results (get_node_registry p) with
      | Raise e => Raise e
      | Return results =>
          Return [("total_nodes", PInt (Z.of_nat (length results)));
                  ("valid_nodes", PInt (Z.of_nat (valid_count results)));
                  ("invalid_nodes",
                   PInt (Z.of_nat (length results) - Z.of_nat (valid_count results)));
                  ("validation_results", PList (PDict <$> results))]
      end), p).

End validation.

(** A node of the registry that [validate_all_parameters] examines. *)
Definition has_parameters (node : pydict) : Prop :=
  truthy (node_get "parameters" (PList []) node) = true.

#[global] Instance has_parameters_dec node : Decision (has_parameters node).
Proof. unfold has_parameters. apply _. Defined.

(** A stand-in for [validate_parameters]: a parameter list is valid when it
    has at most one entry. *)
Definition at_most_one (parameters : pyval) : result (pyval * pyval) :=
  match parameters with
  | PList ([] | [_]) => Return (PBool true, PList [])
  | _ => Return (PBool false, PList [PStr "too many parameters"])
  end.

Definition three_nodes : process :=
  {| NODE_REGISTRY := [ [("id", PStr "a"); ("parameters", PList [PDict [("id", PStr "x")]])];
                        [("id", PStr "b")];
                        [("id", PStr "c"); ("parameters", PList [PDict [("id", PStr "y")];
                                                                 PDict [("id", PStr "z")]])] ];
     files := ∅ |}.

(** [str.lower] on the ASCII letters; other characters are left alone. *)
Definition ascii_lower (a : Ascii.ascii) : Ascii.ascii :=
  let n := Ascii.N_of_ascii a in
  if ((65 <=? n) && (n <=? 90))%N then Ascii.ascii_of_N (n + 32) else a.

Fixpoint lower (s : string) : string :=
  match s with
  | EmptyString => EmptyString
  | String a s' => String (ascii_lower a) (lower s')
  end.

End Catalog.

(** ** [ConfigComposer]: initialisation, lookup, summary and directories *)

Module Composer.

(** The exception classes these methods tell apart: [AttributeError] is
    caught around each category, [KeyError] is what a failed lookup raises,
    and [OtherError] stands for every other exception. *)
Inductive error : Type :=
| AttributeError (msg : string)
| KeyError (msg : string)
| OtherError (msg : string).

Inductive outcome (A : Type) : Type :=
| Ok (a : A)
| Err (e : error).
Arguments Ok {A} a.
Arguments Err {A} e.

(** [Dict[str, PersistentConfig]]. *)
Abbreviation setting := (Config.PersistentConfig pyval).
Abbreviation settings := (gmap string setting).

(** A configuration category instance, as these methods use it: what its
    [initialize()] and [get_config_summary()] calls yield (a missing method
    is an [AttributeError]), and its [DATA_DIRECTORIES] attribute, looked up
    with [hasattr]. *)
Record category := {
  initialize : outcome settings;
  config_summary : outcome pyval;
  DATA_DIRECTORIES : option (Config.PersistentConfig (list string))
}.

(** The attributes of a [ConfigComposer]; [config_categories] is a dict in
    insertion order. *)
Record ConfigComposer := {
  config_categories : list (string * category);
  all_configs : settings
}.

(** [d.update(other)]. *)
Definition update (d other : settings) : settings := other ∪ d.

(** [d[k] = v] on a dict in insertion order. *)
Fixpoint dict_set {A : Type} (k : string) (v : A) (d : list (string * A))
    : list (string * A) :=
  match d with
  | [] => [(k, v)]
  | (k', v') :: d' =>
      if decide (k' = k) then (k', v) :: d' else (k', v') :: dict_set k v d'
  end.

Definition with_all_configs (self : ConfigComposer) (configs : settings) : ConfigComposer :=
  {| config_categories := config_categories self; all_configs := configs |}.

(** A value of the dict [initialize_all_configs] returns: a category
    instance, or the [all_configs] dict. *)
Inductive entry : Type :=
| Category (c : category)
| AllConfigs (configs : settings).

Section initialize.
(** [initialize_database] of [config/database_manager.py], taken as given:
    it returns a flag or raises. *)
Variable initialize_database : category → outcome bool.

(** Steps 1 and 2: the database category, when there is one. *)
Definition initialize_database_category (self : ConfigComposer) : outcome unit * settings :=
  match dict_get "database" (config_categories self) with
  | Some database =>
      match initialize database with
      | Err e => (Err e, all_configs self)
      | Ok database_configs =>
          let configs := update (all_configs self) database_configs in
          match initialize_database database with
          | Err e => (Err e, configs)
          | Ok _ => (Ok (), configs)
          end
      end
  | None => (Ok (), all_configs self)
  end.

(** Step 3: the loop over the other categories, each under
    [except AttributeError]. *)
Fixpoint initialize_categories (items : list (string * category)) (configs : settings)
    : outcome unit * settings :=
  match items with
  | [] => (Ok (), configs)
  | (category_name, config_instance) :: rest =>
      if negb (String.eqb category_name "database") then
        match initialize config_instance with
        | Ok category_configs => initialize_categories rest (update configs category_configs)
        | Err (AttributeError _) => initialize_categories rest configs
        | Err e => (Err e, configs)
        end
      else initialize_categories rest configs
  end.

(** [initialize_all_configs]: the outer handler logs and re-raises. *)
Definition initialize_all_configs (self : ConfigComposer)
    : outcome (list (string * entry)) * ConfigComposer :=
  match initialize_database_category self with
  | (Err e, configs) => (Err e, with_all_configs self configs)
  | (Ok _, configs) =>
      match initialize_categories (config_categories self) configs with
      | (Err e, configs') => (Err e, with_all_configs self configs')
      | (Ok _, configs') =>
          let result := prod_map id Category <$> config_categories self in
          (Ok (dict_set "all_configs" (AllConfigs configs') result),
           with_all_configs self configs')
      end
  end.

(** What one pass of the loop merges from [item]. *)
Definition contribution (item : string * category) : option settings :=
  if String.eqb item.1 "database" then None
  else match initialize item.2 with Ok c => Some c | Err _ => None end.

(** The setting dicts merged by a call that returns, in the order they are
    merged: the database category's first. *)
Definition merged (self : ConfigComposer) : list settings :=
  (match dict_get "database" (config_categories self) with
   | Some database => match initialize database with Ok c => [c] | Err _ => [] end
   | None => []
   end ++ omap contribution (config_categories self))%list.

(** The value the last merged dict that has [config_name] gives it. *)
Definition last_provided (self : ConfigComposer) (config_name : string) : option setting :=
  last (omap (λ c : settings, c !! config_name) (merged self)).

End initialize.

Definition get_config_by_name (self : ConfigComposer) (config_name : string) : outcome setting :=
  match all_configs self !! config_name with
  | Some c => Ok c
  | None => Err (KeyError ("Configuration '" +:+ config_name +:+ "' not found"))
  end.

Section summary.
(** [export_config_summary] of [config/persistent_config.py], taken as
    given. *)
Variable export_config_summary : outcome pyval.

(** The loop of [get_config_summary]. *)
Fixpoint summarize (items : list (string * category)) (categories_summary : pydict)
    : outcome pydict :=
  match items with
  | [] => Ok categories_summary
  | (category_name, config_instance) :: rest =>
      match config_summary config_instance with
      | Ok s => summarize rest (dict_set category_name s categories_summary)
      | Err (AttributeError msg) =>
          summarize rest (dict_set category_name (PDict [("error", PStr msg)]) categories_summary)
      | Err e => Err e
      end
  end.

Definition get_config_summary (self : ConfigComposer) : outcome pydict :=
  match summarize (config_categories self) [] with
  | Err e => Err e
  | Ok categories_summary =>
      match export_config_summary with
      | Err e => Err e
      | Ok persistent_summary =>
          Ok [("total_configs", PInt (Z.of_nat (size (all_configs self))));
              ("discovered_categories", PList (PStr <$> dict_keys (config_categories self)));
              ("categories", PDict categories_summary);
              ("persistent_summary", persistent_summary)]
      end
  end.

End summary.

Section directories.
(** The paths for which [os.path.exists] holds, and [os.makedirs(path,
    exist_ok=True)], taken as given: a transformer of those that may
    raise. *)
Variable os_makedirs : string → gset string → outcome unit * gset string.

Definition os_path_exists (fs : gset string) (path : string) : bool :=
  bool_decide (path ∈ fs).

Fixpoint make_directories (directories : list string) (fs : gset string)
    : outcome unit * gset string :=
  match directories with
  | [] => (Ok (), fs)
  | directory :: rest =>
      if negb (os_path_exists fs directory) then
        match os_makedirs directory fs with
        | (Err e, fs') => (Err e, fs')
        | (Ok _, fs') => make_directories rest fs'
        end
      else make_directories rest fs
  end.

Definition ensure_directories (self : ConfigComposer) (fs : gset string)
    : outcome unit * gset string :=
  match dict_get "app" (config_categories self) with
  | Some app_config =>
      match DATA_DIRECTORIES app_config with
      | Some directories => make_directories (Config.value directories) fs
      | None => (Ok (), fs)
      end
  | None => (Ok (), fs)
  end.

End directories.

(** The directories [ensure_directories] is asked for. *)
Definition data_directories (self : ConfigComposer) : list string :=
  match dict_get "app" (config_categories self) with
  | Some app_config =>
      match DATA_DIRECTORIES app_config with
      | Some directories => Config.value directories
      | None => []
      end
  | None => []
  end.

(** A category whose [initialize()] may be relied on by the loop: it
    returns, or it raises [AttributeError]. *)
Definition tolerated (c : category) : Prop :=
  (∃ configs, initialize c = Ok configs) ∨ (∃ msg, initialize c = Err (AttributeError msg)).

(** [os.makedirs] as on a file system where nothing fails. *)
Definition makedirs_ok (path : string) (fs : gset string) : outcome unit * gset string :=
  (Ok (), {[path]} ∪ fs).

(** The entry [get_config_summary] records for a category, when the loop
    goes on past it. *)
Definition summary_entry (c : category) : option pyval :=
  match config_summary c with
  | Ok s => Some s
  | Err (AttributeError msg) => Some (PDict [("error", PStr msg)])
  | Err _ => None
  end.

(** [os.makedirs] behaves: when it returns, the path exists and nothing
    that existed is gone. *)
Definition makedirs_creates (os_makedirs : string → gset string → outcome unit * gset string)
    : Prop :=
  ∀ path fs fs', os_makedirs path fs = (Ok (), fs') → path ∈ fs' ∧ fs ⊆ fs'.

(** A composer with three categories.  The database category comes last in
    the dict, ["legacy"] has no [initialize] and no [get_config_summary],
    and ["PORT"] is provided twice. *)
Definition a_setting (v : pyval) : setting := {| Config.value := v |}.

Definition app_category : category :=
  {| initialize := Ok {[ "PORT" := a_setting (PInt 8000); "HOST" := a_setting (PStr "0.0.0.0") ]};
     config_summary := Ok (PDict [("settings", PInt 2)]);
     DATA_DIRECTORIES := Some {| Config.value := ["data"; "logs"] |} |}.

Definition legacy_category : category :=
  {| initialize := Err (AttributeError "'LegacyConfig' object has no attribute 'initialize'");
     config_summary :=
       Err (AttributeError "'LegacyConfig' object has no attribute 'get_config_summary'");
     DATA_DIRECTORIES := None |}.

Definition database_category : category :=
  {| initialize := Ok {[ "PORT" := a_setting (PInt 5432);
                         "DATABASE_URL" := a_setting (PStr "sqlite://") ]};
     config_summary := Ok (PDict [("settings", PInt 2)]);
     DATA_DIRECTORIES := None |}.

Definition three_categories : ConfigComposer :=
  {| config_categories := [("app", app_category); ("legacy", legacy_category);
                           ("database", database_category)];
     all_configs := {[ "DEBUG" := a_setting (PBool false) ]} |}.

Definition database_up (database : category) : outcome bool := Ok true.

Definition database_down (database : category) : outcome bool :=
  Err (OtherError "connection refused").

End Composer.

(** * Properties *)

(** ** GET /node/get *)

Section NodeList_facts.
Import NodeList.

Lemma get_node_list_raises_500 fs e :
  get_node_list fs = Raise e → e = HTTPException 500%Z "Internal Server Error".
Proof.
  unfold get_node_list. destruct (get_node_list_try fs); congruence.
Qed.

Lemma get_node_list_try_404 fs :
  catalog_missing_or_empty fs → get_node_list_try fs = Raise no_nodes_available.
Proof.
  unfold get_node_list_try, os_path_exists, json_load.
  intros [Hnone | (v & Hv & Hfalsy)].
  - rewrite Hnone. rewrite bool_decide_eq_false_2; [done|].
    intros [? ?]; discriminate.
  - rewrite Hv. rewrite bool_decide_eq_true_2 by eauto.
    simpl. by rewrite Hfalsy.
Qed.

(** C9: when the exported catalog is missing or empty, [get_node_list]
    builds a 404 inside its [try] block, but what reaches the caller (and
    what [list_nodes] passes on) is the 500 "Internal Server Error" of the
    enclosing [except Exception]; no 404 ever leaves [get_node_list]. *)
Theorem get_node_list_404_surfaces_as_500 (fs : filesystem) :
  catalog_missing_or_empty fs →
  get_node_list_try fs = Raise (HTTPException 404%Z "No nodes available. Please run discovery first.") ∧
  get_node_list fs = Raise (HTTPException 500%Z "Internal Server Error") ∧
  list_nodes fs = Raise (HTTPException 500%Z "Internal Server Error") ∧
  (∀ fs' detail, get_node_list fs' ≠ Raise (HTTPException 404%Z detail)).
Proof.
  intros Hcat. pose proof (get_node_list_try_404 fs Hcat) as Htry.
  assert (get_node_list fs = Raise (HTTPException 500%Z "Internal Server Error")) as Hget.
  { unfold get_node_list. by rewrite Htry. }
  repeat split; [done | done | | ].
  - unfold list_nodes. by rewrite Hget.
  - intros fs' detail Habs. apply get_node_list_raises_500 in Habs. discriminate.
Qed.

(** The theorem at a missing file and at a file holding the empty list. *)
Lemma get_node_list_404_surfaces_as_500_witness :
  (get_node_list ∅ = Raise (HTTPException 500%Z "Internal Server Error") ∧
   list_nodes ∅ = Raise (HTTPException 500%Z "Internal Server Error")) ∧
  (get_node_list {[ exported_nodes_path := Decodes (PList []) ]}
     = Raise (HTTPException 500%Z "Internal Server Error")).
Proof.
  split.
  - pose proof (get_node_list_404_surfaces_as_500 ∅) as H.
    destruct H as (_ & H1 & H2 & _); [left; reflexivity | by split].
  - pose proof (get_node_list_404_surfaces_as_500
                  {[ exported_nodes_path := Decodes (PList []) ]}) as H.
    destruct H as (_ & H1 & _); [|exact H1].
    right. exists (PList []). split; [apply lookup_singleton_eq | reflexivity].
Defined.

End NodeList_facts.

(** ** [validate_critical_configs] *)

Section Config_facts.
Import Config.
Local Open Scope Z_scope.

Lemma check_openai_keeps self r :
  valid (check_openai self r) = valid r ∧ errors (check_openai self r) = errors r.
Proof.
  unfold check_openai.
  destruct (config_categories self !! "openai") as [o|]; [|done].
  destruct (API_KEY o) as [k|]; [|done].
  by destruct (api_key_blank (value k)).
Qed.

(** *** Blank strings *)

Lemma lstrip_nil l : lstrip l = [] ↔ Forall (λ c, isspace c = true) l.
Proof.
  induction l as [|c l IH]; simpl.
  { split; [constructor|done]. }
  destruct (isspace c) eqn:Hc.
  - rewrite IH. split; [by constructor|]. by intros [_ ?]%Forall_cons.
  - split; [done|]. intros [? _]%Forall_cons. congruence.
Qed.

Lemma lstrip_all_space l : Forall (λ c, isspace c = true) (lstrip l) → lstrip l = [].
Proof.
  induction l as [|c l IH]; simpl; [done|].
  destruct (isspace c) eqn:Hc; [done|].
  intros [? _]%Forall_cons. congruence.
Qed.

Lemma rstrip_lstrip_nil l :
  rstrip (lstrip l) = [] ↔ Forall (λ c, isspace c = true) l.
Proof.
  unfold rstrip. split.
  - intros H. apply (f_equal reverse) in H. rewrite reverse_involutive in H.
    change (reverse []) with (@nil N) in H. apply lstrip_nil in H.
    apply lstrip_nil, lstrip_all_space. rewrite Forall_forall in *.
    intros c Hc. apply H. by apply elem_of_reverse.
  - intros H%lstrip_nil. by rewrite H.
Qed.

Lemma chr_not_empty c : chr c ≠ "".
Proof.
  unfold chr.
  destruct (c <? 128)%N; [done|]. destruct (c <? 2048)%N; [done|].
  by destruct (c <? 65536)%N.
Qed.

Lemma of_code_points_empty l : of_code_points l = "" ↔ l = [].
Proof.
  split; [|by intros ->]. unfold of_code_points.
  destruct l as [|c l]; [done|]. rewrite fmap_cons. simpl.
  pose proof (chr_not_empty c) as Hc.
  destruct (chr c) as [|a t]; [done|]. by destruct (chr <$> l).
Qed.

(** [s.strip()] is empty exactly when [s] holds white space only. *)
Lemma strip_empty s : strip s = "" ↔ whitespace_only s.
Proof. unfold strip, whitespace_only. by rewrite of_code_points_empty, rstrip_lstrip_nil. Qed.

(** The test of the code on [API_KEY.value], read on the value. *)
Lemma api_key_blank_spec (api_key : option string) :
  api_key_blank api_key = true ↔
  match api_key with None => True | Some s => whitespace_only s end.
Proof.
  unfold api_key_blank. destruct api_key as [s|]; [|done].
  rewrite orb_true_iff, !String.eqb_eq, strip_empty. split; [|by right].
  intros [->|?]; [constructor|done].
Qed.

Lemma check_openai_warnings self r :
  (blank_api_key self ∧
   warnings (check_openai self r) =
     (warnings r ++ ["OpenAI API key is not configured"])%list) ∨
  (¬ blank_api_key self ∧ check_openai self r = r).
Proof.
  unfold check_openai, blank_api_key.
  destruct (config_categories self !! "openai") as [o|] eqn:Ho; [|right; split; [intros (? & ? & ? & ? & ?); simplify_eq | done]].
  destruct (API_KEY o) as [k|] eqn:Hk; [|right; split; [intros (? & ? & ? & ? & ?); simplify_eq | done]].
  destruct (api_key_blank (value k)) eqn:Hb.
  - left. split; [|done]. exists o, k. split; [done|]. split; [done|].
    by apply api_key_blank_spec.
  - right. split; [|done]. intros (o' & k' & ? & ? & Hblank). simplify_eq.
    apply api_key_blank_spec in Hblank. congruence.
Qed.

Lemma check_port_spec self r :
  (bad_port self ∧
   ∃ app p, config_categories self !! "app" = Some app ∧ PORT app = Some p ∧
     check_port self r =
       {| valid := false; warnings := warnings r;
          errors := (errors r ++ ["Invalid port number: " +:+ pretty (value p)])%list |}) ∨
  (¬ bad_port self ∧ check_port self r = r).
Proof.
  unfold check_port, bad_port.
  destruct (config_categories self !! "app") as [app|] eqn:Ha; [|right; split; [intros (? & ? & ? & ? & ?); simplify_eq | done]].
  destruct (PORT app) as [p|] eqn:Hp; [|right; split; [intros (? & ? & ? & ? & ?); simplify_eq | done]].
  destruct ((1 <=? value p) && (value p <=? 65535)) eqn:Hr; simpl.
  - right. split; [|done]. intros (a' & p' & ? & ? & Hn). simplify_eq.
    apply Hn. apply andb_true_iff in Hr as [?%Z.leb_le ?%Z.leb_le]. lia.
  - left. split; [|eauto 6]. exists app, p. repeat split; [done..|].
    intros [? ?]. apply andb_false_iff in Hr as [Hr|Hr]; apply Z.leb_gt in Hr; lia.
Qed.

Lemma check_timeout_spec self r :
  (bad_timeout self ∧
   ∃ wf t, config_categories self !! "workflow" = Some wf ∧ EXECUTION_TIMEOUT wf = Some t ∧
     check_timeout self r =
       {| valid := false; warnings := warnings r;
          errors := (errors r ++ ["Invalid workflow timeout: " +:+ pretty (value t)])%list |}) ∨
  (¬ bad_timeout self ∧ check_timeout self r = r).
Proof.
  unfold check_timeout, bad_timeout.
  destruct (config_categories self !! "workflow") as [wf|] eqn:Ha; [|right; split; [intros (? & ? & ? & ? & ?); simplify_eq | done]].
  destruct (EXECUTION_TIMEOUT wf) as [t|] eqn:Hp; [|right; split; [intros (? & ? & ? & ? & ?); simplify_eq | done]].
  destruct (value t <=? 0) eqn:Hr; simpl.
  - left. apply Z.leb_le in Hr. split; eauto 8.
  - right. split; [|done]. intros (a' & p' & ? & ? & Hn). simplify_eq.
    apply Z.leb_gt in Hr. lia.
Qed.

(** C10: the result of [validate_critical_configs] has [valid] true exactly
    when its [errors] list is empty.  A port outside 1..65535 and a
    non-positive workflow timeout each append their error and make [valid]
    false, and nothing else does: an OpenAI key that is [None], empty or
    made only of the white space [str.strip()] removes appends a warning
    only, every other key appends nothing, and the warning is never among
    the errors. *)
Theorem validate_critical_configs_valid_iff_no_errors (self : ConfigComposer) :
  let r := validate_critical_configs self in
  (valid r = true ↔ errors r = []) ∧
  (valid r = false ↔ bad_port self ∨ bad_timeout self) ∧
  (∀ app p, config_categories self !! "app" = Some app → PORT app = Some p →
     ¬ (1 ≤ value p ≤ 65535) →
     valid r = false ∧ ("Invalid port number: " +:+ pretty (value p)) ∈ errors r) ∧
  (∀ wf t, config_categories self !! "workflow" = Some wf → EXECUTION_TIMEOUT wf = Some t →
     value t ≤ 0 →
     valid r = false ∧ ("Invalid workflow timeout: " +:+ pretty (value t)) ∈ errors r) ∧
  (blank_api_key self → warnings r = ["OpenAI API key is not configured"]) ∧
  (¬ blank_api_key self → warnings r = []) ∧
  (∀ msg, msg ∈ errors r → msg ≠ "OpenAI API key is not configured").
Proof.
  cbv zeta. unfold validate_critical_configs.
  set (r0 := {| valid := true; warnings := []; errors := [] |}).
  pose proof (check_openai_keeps self r0) as [Hv1 He1].
  assert (Hw1 : (blank_api_key self → warnings (check_openai self r0)
                   = ["OpenAI API key is not configured"]) ∧
                (¬ blank_api_key self → warnings (check_openai self r0) = [])).
  { destruct (check_openai_warnings self r0) as [[Hb ->]|[Hb ->]]; split; done. }
  destruct Hw1 as [Hwb Hwn].
  set (r1 := check_openai self r0) in *.
  simpl in Hv1, He1.
  destruct (check_port_spec self r1) as [(Hbp & a & p & Ha & Hp & E2)|(Hbp & E2)];
    destruct (check_timeout_spec self (check_port self r1))
      as [(Hbt & w & t & Hw & Ht & E3)|(Hbt & E3)];
    rewrite E3, ?E2; simpl; rewrite ?He1, ?Hv1; simpl.
  all: repeat match goal with |- _ ∧ _ => split end.
  all: try done.
  all: try (split; [by auto | done]).
  all: try (split; [done | intros [?|?]; done]).
  all: try (intros; exfalso;
            first [ apply Hbt; unfold bad_timeout; by eauto 8
                  | apply Hbp; unfold bad_port; by eauto 8 ]).
  all: try (intros ? ? ? ? ?; simplify_eq; split; [done|];
            rewrite ?elem_of_cons; by auto).
  all: try (intros msg Hm; rewrite ?elem_of_cons, elem_of_nil in Hm;
            destruct_or?; subst; done).
Qed.

(** A state whose key is a no-break space (U+00A0), with port 70000 and
    timeout -5: invalid, with both errors, and with the warning. *)
Lemma validate_critical_configs_valid_iff_no_errors_witness :
  let self :=
    {| config_categories :=
         {[ "openai" := {| API_KEY := Some {| value := Some (chr 160) |};
                           PORT := None; EXECUTION_TIMEOUT := None |};
            "app" := {| API_KEY := None; PORT := Some {| value := 70000 |};
                        EXECUTION_TIMEOUT := None |};
            "workflow" := {| API_KEY := None; PORT := None;
                             EXECUTION_TIMEOUT := Some {| value := -5 |} |} ]} |} in
  valid (validate_critical_configs self) = false ∧
  errors (validate_critical_configs self) ≠ [] ∧
  "Invalid port number: 70000" ∈ errors (validate_critical_configs self) ∧
  "Invalid workflow timeout: -5" ∈ errors (validate_critical_configs self) ∧
  warnings (validate_critical_configs self) = ["OpenAI API key is not configured"].
Proof.
  intros self.
  destruct (validate_critical_configs_valid_iff_no_errors self)
    as (Hiff & _ & Hport & Htimeout & Hblank & _ & _).
  destruct (Hport {| API_KEY := None; PORT := Some {| value := 70000 |};
                     EXECUTION_TIMEOUT := None |} {| value := 70000 |}
                  eq_refl eq_refl) as [Hinvalid Hp]; [simpl; lia|].
  destruct (Htimeout {| API_KEY := None; PORT := None;
                        EXECUTION_TIMEOUT := Some {| value := -5 |} |} {| value := -5 |}
                     eq_refl eq_refl) as [_ Ht]; [simpl; lia|].
  split; [exact Hinvalid|]. split.
  { intros Hnil. apply Hiff in Hnil. congruence. }
  split; [exact Hp|]. split; [exact Ht|].
  apply Hblank.
  exists {| API_KEY := Some {| value := Some (chr 160) |};
            PORT := None; EXECUTION_TIMEOUT := None |}, {| value := Some (chr 160) |}.
  split; [reflexivity|]. split; [reflexivity|].
  repeat constructor.
Defined.

(** A state with a blank key, port 70000 and timeout -5. *)
Example validate_critical_configs_example :
  validate_critical_configs
    {| config_categories :=
         {[ "openai" := {| API_KEY := Some {| value := Some "  " |};
                           PORT := None; EXECUTION_TIMEOUT := None |};
            "app" := {| API_KEY := None; PORT := Some {| value := 70000 |};
                        EXECUTION_TIMEOUT := None |};
            "workflow" := {| API_KEY := None; PORT := None;
                             EXECUTION_TIMEOUT := Some {| value := -5 |} |} ]} |}
  = {| valid := false;
       warnings := ["OpenAI API key is not configured"];
       errors := ["Invalid port number: 70000"; "Invalid workflow timeout: -5"] |}.
Proof. vm_compute. reflexivity. Qed.

End Config_facts.

(** ** The node controller *)

Section Controller_facts.
Import Controller.

Lemma mapM_as_dict (l : list pyval) (ps : list pydict) :
  mapM as_dict l = Some ps → l = PDict <$> ps.
Proof.
  rewrite mapM_Some. induction 1 as [|x d l ps Hx Hf IH]; [done|].
  destruct x; simplify_eq/=; done.
Qed.


Lemma categorize_dicts (params : list pydict) (basic advanced : list pyval) :
  categorize (PDict <$> params) basic advanced =
  Return (basic ++ (PDict <$> filter (λ d, is_optional d = false) params),
          advanced ++ (PDict <$> filter (λ d, is_optional d = true) params))%list.
Proof.
  revert basic advanced. induction params as [|d params IH]; intros basic advanced.
  { by rewrite !app_nil_r. }
  rewrite !filter_cons. simpl.
  assert (truthy (default (PBool false) (dict_get "optional" d)) = is_optional d) as -> by done.
  destruct (is_optional d) eqn:Ho.
  - rewrite IH. rewrite decide_False by done. rewrite decide_True by done.
    by rewrite fmap_cons, <- app_assoc.
  - rewrite IH. rewrite decide_True by done. rewrite decide_False by done.
    by rewrite fmap_cons, <- app_assoc.
Qed.

Lemma declared_parameters_iter (node : pydict) (params : list pydict) :
  declared_parameters node = Some params →
  py_iter (default (PList []) (dict_get "parameters" node)) = Return (PDict <$> params).
Proof.
  unfold declared_parameters.
  destruct (dict_get "parameters" node) as [v|]; simpl.
  - destruct v; try done. simpl. intros ->%mapM_as_dict. done.
  - by intros [= <-].
Qed.

Lemma filter_optional_split (params : list pydict) :
  filter (λ d, is_optional d = false) params ++ filter (λ d, is_optional d = true) params
  ≡ₚ params.
Proof.
  induction params as [|d params IH]; [done|].
  rewrite !filter_cons. destruct (is_optional d) eqn:Ho.
  - rewrite decide_False by done. rewrite decide_True by done.
    rewrite <- Permutation_middle. by f_equiv.
  - rewrite decide_True by done. rewrite decide_False by done.
    simpl. by f_equiv.
Qed.

(** C8: for a node id found in the registry, the categorized-parameters
    endpoint answers with [basic_parameters] and [advanced_parameters] that
    are the declared parameters whose [optional] flag is falsy, respectively
    truthy, each in the declared order; together they are a rearrangement of
    the declared list, every parameter being in exactly one of them;
    [has_advanced] is true exactly when [advanced_parameters] is not empty;
    and the process state, registry included, is handed back unchanged. *)
Theorem get_categorized_parameters_partitions
    (p : process) (node_id : string) (node : pydict) (params : list pydict) :
  find_node (get_node_registry p) node_id = Return (Some node) →
  declared_parameters node = Some params →
  let basic := filter (λ d, is_optional d = false) params in
  let advanced := filter (λ d, is_optional d = true) params in
  ∃ resp has_advanced,
    get_categorized_parameters p node_id = (Return resp, p) ∧
    dict_get "node_id" resp = Some (PStr node_id) ∧
    dict_get "basic_parameters" resp = Some (PList (PDict <$> basic)) ∧
    dict_get "advanced_parameters" resp = Some (PList (PDict <$> advanced)) ∧
    dict_get "has_advanced" resp = Some (PBool has_advanced) ∧
    (has_advanced = true ↔ advanced ≠ []) ∧
    basic ++ advanced ≡ₚ params ∧
    sublist basic params ∧ sublist advanced params ∧
    (∀ d, d ∈ params → (d ∈ basic ∧ d ∉ advanced) ∨ (d ∈ advanced ∧ d ∉ basic)) ∧
    (length basic + length advanced = length params)%nat.
Proof.
  intros Hfind Hdecl basic advanced.
  unfold get_categorized_parameters, get_categorized_parameters_try.
  rewrite Hfind, (declared_parameters_iter _ _ Hdecl), categorize_dicts. simpl.
  fold basic advanced.
  eexists _, _. split; [reflexivity|].
  repeat split; try reflexivity.
  - rewrite length_fmap. destruct advanced; simpl; [discriminate | done].
  - rewrite length_fmap. destruct advanced; simpl; done.
  - apply filter_optional_split.
  - apply sublist_filter.
  - apply sublist_filter.
  - intros d Hd. subst basic advanced. rewrite !list_elem_of_filter.
    destruct (is_optional d) eqn:Ho; [right | left]; split; try done;
      intros [? ?]; congruence.
  - rewrite <- length_app. subst basic advanced.
    by rewrite (filter_optional_split params).
Qed.

(** A registry with two nodes; the endpoint is asked for the second one,
    which declares a required, an optional and a flagless parameter. *)
Lemma get_categorized_parameters_partitions_witness :
  let reg := [ [("id", PStr "add")];
               [("id", PStr "chat"); ("nodeName", PStr "Chat");
                ("parameters", PList [PDict [("id", PStr "model"); ("optional", PBool false)];
                                      PDict [("id", PStr "temperature"); ("optional", PBool true)];
                                      PDict [("id", PStr "prompt")]])] ] in
  let p := {| NODE_REGISTRY := reg; files := ∅ |} in
  ∃ resp,
    get_categorized_parameters p "chat" = (Return resp, p) ∧
    dict_get "basic_parameters" resp =
      Some (PList [PDict [("id", PStr "model"); ("optional", PBool false)];
                   PDict [("id", PStr "prompt")]]) ∧
    dict_get "advanced_parameters" resp =
      Some (PList [PDict [("id", PStr "temperature"); ("optional", PBool true)]]) ∧
    dict_get "has_advanced" resp = Some (PBool true).
Proof.
  intros reg p.
  destruct (get_categorized_parameters_partitions p "chat"
              [("id", PStr "chat"); ("nodeName", PStr "Chat");
               ("parameters", PList [PDict [("id", PStr "model"); ("optional", PBool false)];
                                     PDict [("id", PStr "temperature"); ("optional", PBool true)];
                                     PDict [("id", PStr "prompt")]])]
              [ [("id", PStr "model"); ("optional", PBool false)];
                [("id", PStr "temperature"); ("optional", PBool true)];
                [("id", PStr "prompt")] ]
              eq_refl eq_refl)
    as (resp & b & Hrun & _ & Hb & Ha & Hh & Hiff & _).
  exists resp. split; [exact Hrun|]. split; [exact Hb|]. split; [exact Ha|].
  rewrite Hh. destruct b; [done|].
  exfalso. assert (false = true) as ?; [|done]. apply Hiff. done.
Defined.

(** C5: a response that POST /node/execute returns (rather than raises) is
    the dictionary with exactly the keys [status], [message] and [outputs];
    [status] is the string "success" and [outputs] is the value the
    execution of the validated request returned. *)
Theorem post_node_execute_success_shape
    (WorkflowExecutor : pyval → result pyval) (body : pyval) (resp : pydict) :
  post_node_execute WorkflowExecutor body = Return resp →
  ∃ workflow final_outputs,
    Workflow_validate body = Some workflow ∧
    WorkflowExecutor (Workflow_dict workflow) = Return final_outputs ∧
    resp = [("status", PStr "success");
            ("message", PStr "워크플로우 실행 완료");
            ("outputs", final_outputs)] ∧
    NoDup (dict_keys resp) ∧
    (∀ k, k ∈ dict_keys resp ↔ k = "status" ∨ k = "outputs" ∨ k = "message") ∧
    dict_get "status" resp = Some (PStr "success") ∧
    dict_get "outputs" resp = Some final_outputs.
Proof.
  unfold post_node_execute, execute_workflow.
  destruct (Workflow_validate body) as [workflow|]; [|done].
  destruct (WorkflowExecutor (Workflow_dict workflow)) as [final_outputs|e] eqn:Hex.
  2:{ by destruct (is_ValueError e). }
  intros [= <-]. exists workflow, final_outputs.
  repeat split; try done.
  - simpl. repeat constructor; rewrite ?elem_of_cons, ?elem_of_nil; naive_solver.
  - simpl. rewrite !elem_of_cons, elem_of_nil. naive_solver.
  - simpl. rewrite !elem_of_cons, elem_of_nil. naive_solver.
Qed.

(** An executor that answers every request with one instance's outputs. *)
Lemma post_node_execute_success_shape_witness :
  let executor := λ _ : pyval, Return (PDict [("A", PDict [("out", PInt 5)])]) in
  let body := PDict [("nodes", PList []); ("edges", PList []); ("view", PDict [])] in
  ∃ workflow final_outputs,
    Workflow_validate body = Some workflow ∧
    executor (Workflow_dict workflow) = Return final_outputs ∧
    final_outputs = PDict [("A", PDict [("out", PInt 5)])].
Proof.
  intros executor body.
  destruct (post_node_execute_success_shape executor body
              [("status", PStr "success");
               ("message", PStr "워크플로우 실행 완료");
               ("outputs", PDict [("A", PDict [("out", PInt 5)])])] eq_refl)
    as (workflow & final_outputs & Hv & Hex & _).
  exists workflow, final_outputs. split; [exact Hv|]. split; [exact Hex|].
  unfold executor in Hex. congruence.
Defined.




End Controller_facts.

(** ** The dependency scheduler *)

Section Scheduler_facts.
Import Core.
Variable es : list Edge.

Lemma indeg_increment i deg k :
  indeg (increment i deg) k = (indeg deg k + if decide (i = k) then 1 else 0)%nat.
Proof.
  unfold increment, indeg at 1. destruct (decide (i = k)) as [->|Hne].
  - rewrite lookup_insert_eq. simpl. lia.
  - rewrite lookup_insert_ne by done. fold (indeg deg k). lia.
Qed.

Lemma indeg_decrement i deg k :
  indeg (decrement i deg) k = (indeg deg k - if decide (i = k) then 1 else 0)%nat.
Proof.
  unfold decrement, indeg at 1. destruct (decide (i = k)) as [->|Hne].
  - rewrite lookup_insert_eq. simpl. lia.
  - rewrite lookup_insert_ne by done. fold (indeg deg k). lia.
Qed.

Lemma indeg_in_degrees_from deg l k :
  indeg (foldl (λ deg e, increment (target_instance_id e) deg) deg l) k
  = (indeg deg k + length (filter (λ e, target_instance_id e = k) l))%nat.
Proof.
  revert deg. induction l as [|e l IH]; intros deg; simpl; [lia|].
  rewrite IH, indeg_increment, filter_cons.
  destruct (decide (target_instance_id e = k)); simpl; lia.
Qed.

Lemma indeg_in_degrees l k :
  indeg (in_degrees l) k = length (filter (λ e, target_instance_id e = k) l).
Proof. unfold in_degrees. rewrite indeg_in_degrees_from. done. Qed.

Lemma indeg_release l batch deg k :
  indeg (release l batch deg) k = (indeg deg k - pending l batch k)%nat.
Proof.
  unfold release, pending. revert deg.
  induction l as [|e l IH]; intros deg; simpl; [lia|].
  rewrite IH, filter_cons.
  destruct (decide (source_instance_id e ∈ batch)) as [Hin|Hout].
  - rewrite indeg_decrement.
    destruct (decide (target_instance_id e = k)).
    + rewrite decide_True by done. simpl. lia.
    + rewrite decide_False by tauto. lia.
  - rewrite decide_False by tauto. done.
Qed.

Lemma length_filter_split {A} (P Q R : A → Prop)
    `{!∀ x, Decision (P x), !∀ x, Decision (Q x), !∀ x, Decision (R x)} (l : list A) :
  (∀ x, x ∈ l → (P x ↔ Q x ∨ R x) ∧ ¬ (Q x ∧ R x)) →
  length (filter P l) = (length (filter Q l) + length (filter R l))%nat.
Proof.
  induction l as [|x l IH]; intros Hsplit; [done|].
  rewrite !filter_cons.
  destruct (Hsplit x) as [Hiff Hex]; [left|].
  assert (IH' := IH (λ y Hy, Hsplit y (list_elem_of_further _ _ _ Hy))).
  destruct (decide (P x)), (decide (Q x)), (decide (R x)); simpl; tauto || lia.
Qed.

Lemma filter_ext_elem {A} (P Q : A → Prop)
    `{!∀ x, Decision (P x), !∀ x, Decision (Q x)} (l : list A) :
  (∀ x, x ∈ l → (P x ↔ Q x)) → filter P l = filter Q l.
Proof.
  induction l as [|x l IH]; intros Hext; [done|].
  rewrite !filter_cons, IH by (intros; apply Hext; by right).
  destruct (Hext x) as [? ?]; [left|].
  destruct (decide (P x)), (decide (Q x)); tauto || done.
Qed.

(** Removing a batch keeps the invariant. *)
Lemma counts_unresolved_step remaining deg :
  let batch := filter (λ i, indeg deg i = 0%nat) remaining in
  counts_unresolved es remaining deg →
  counts_unresolved es (filter (λ i, i ∉ batch) remaining) (release es batch deg).
Proof.
  intros batch Hinv k. rewrite indeg_release, Hinv. unfold pending.
  rewrite (length_filter_split
             (λ e, target_instance_id e = k ∧ source_instance_id e ∈ remaining)
             (λ e, target_instance_id e = k ∧ source_instance_id e ∈ batch)
             (λ e, target_instance_id e = k ∧
                   source_instance_id e ∈ filter (λ i, i ∉ batch) remaining)).
  { lia. }
  intros e _. rewrite list_elem_of_filter. unfold batch. rewrite list_elem_of_filter.
  destruct (decide (indeg deg (source_instance_id e) = 0%nat)); tauto.
Qed.

Lemma counts_unresolved_init (nodes : list string) :
  (∀ e, e ∈ es → source_instance_id e ∈ nodes) →
  counts_unresolved es nodes (in_degrees es).
Proof.
  intros Hsrc k. rewrite indeg_in_degrees. unfold pending.
  f_equal. apply filter_ext_elem. intros e He. specialize (Hsrc e He). tauto.
Qed.

(** *** Batch indices *)

Lemma batch_index_here b bs x : x ∈ b → batch_index (b :: bs) x = Some 0%nat.
Proof. intros. simpl. by rewrite decide_True. Qed.

Lemma batch_index_later b bs x :
  x ∉ b → batch_index (b :: bs) x = S <$> batch_index bs x.
Proof. intros. simpl. by rewrite decide_False. Qed.

Lemma batch_index_elem bs x : x ∈ concat bs → is_Some (batch_index bs x).
Proof.
  induction bs as [|b bs IH]; simpl; [by intros ?%elem_of_nil|].
  rewrite elem_of_app. intros Hx. destruct (decide (x ∈ b)); [by eexists|].
  destruct IH as [i Hi]; [tauto|]. rewrite Hi. by eexists.
Qed.

Lemma batch_index_lookup bs x i :
  batch_index bs x = Some i → ∃ b, bs !! i = Some b ∧ x ∈ b.
Proof.
  revert i. induction bs as [|b bs IH]; intros i; simpl; [done|].
  destruct (decide (x ∈ b)).
  - intros [= <-]. eauto.
  - destruct (batch_index bs x) as [j|]; [|done]. intros [= <-]. by apply IH.
Qed.

Lemma elem_of_concat (bs : list (list string)) x :
  x ∈ concat bs ↔ ∃ b, b ∈ bs ∧ x ∈ b.
Proof.
  induction bs as [|b bs IH]; simpl.
  - split; [by intros ?%elem_of_nil | by intros (? & ?%elem_of_nil & _)].
  - rewrite elem_of_app, IH. split.
    + intros [?|(b' & ? & ?)]; [exists b; split; [left|done] | exists b'; split; [by right|done]].
    + intros (b' & [->|?]%elem_of_cons & ?); [by left | right; eauto].
Qed.

Lemma batch_index_unique bs x j b :
  NoDup (concat bs) → bs !! j = Some b → x ∈ b → batch_index bs x = Some j.
Proof.
  revert j. induction bs as [|b' bs IH]; intros j Hnd Hj Hx; [done|].
  simpl in Hnd. apply NoDup_app in Hnd as (_ & Hdisj & Hnd).
  destruct j as [|j]; simpl in Hj.
  - simplify_eq. by apply batch_index_here.
  - assert (x ∉ b') as Hnb.
    { intros Hx'. apply (Hdisj x Hx'). apply elem_of_concat.
      exists b. split; [|done]. by eapply list_elem_of_lookup_2. }
    rewrite batch_index_later by done. by rewrite (IH j).
Qed.

(** *** The reduction *)

Lemma reduce_nil fuel deg : reduce fuel es [] deg = Some (Batches []).
Proof. by destruct fuel. Qed.

Lemma reduce_step fuel remaining deg :
  remaining ≠ [] →
  reduce (S fuel) es remaining deg =
    match filter (λ i, indeg deg i = 0%nat) remaining with
    | [] => Some (CycleError (find_cycle es remaining))
    | (_ :: _) as batch =>
        match reduce fuel es (filter (λ i, i ∉ batch) remaining) (release es batch deg) with
        | Some (Batches bs) => Some (Batches (batch :: bs))
        | r => r
        end
    end.
Proof. by destruct remaining. Qed.

Lemma pending_pos remaining e :
  e ∈ es → source_instance_id e ∈ remaining →
  (0 < pending es remaining (target_instance_id e))%nat.
Proof.
  intros He Hs. unfold pending.
  assert (e ∈ filter (λ e', target_instance_id e' = target_instance_id e ∧
                            source_instance_id e' ∈ remaining) es) as Hin.
  { by apply list_elem_of_filter. }
  destruct (filter _ es); [by apply elem_of_nil in Hin | simpl; lia].
Qed.

Lemma remaining_after_batch remaining deg :
  let batch := filter (λ i, indeg deg i = 0%nat) remaining in
  batch ++ filter (λ i, i ∉ batch) remaining ≡ₚ remaining.
Proof.
  intros batch.
  rewrite (filter_ext_elem (λ i, i ∉ batch) (λ i, ¬ indeg deg i = 0%nat)).
  - apply filter_app_complement.
  - intros i Hi. unfold batch. rewrite list_elem_of_filter. tauto.
Qed.

(** What a successful reduction returns: the batches hold the remaining
    instances, none is empty, and every edge between remaining instances
    leads to a strictly later batch. *)
Lemma reduce_batches fuel remaining deg bs :
  counts_unresolved es remaining deg →
  reduce fuel es remaining deg = Some (Batches bs) →
  concat bs ≡ₚ remaining ∧ Forall (λ b, b ≠ []) bs ∧
  ∀ e, e ∈ es → source_instance_id e ∈ remaining → target_instance_id e ∈ remaining →
    ∃ i j, batch_index bs (source_instance_id e) = Some i ∧
           batch_index bs (target_instance_id e) = Some j ∧ (i < j)%nat.
Proof.
  revert remaining deg bs.
  induction fuel as [|fuel IH]; intros remaining deg bs Hinv Hred.
  { destruct remaining; [|done]. simplify_eq/=.
    split; [done|]. split; [constructor|]. by intros e _ ?%elem_of_nil. }
  destruct (decide (remaining = [])) as [->|Hne].
  { simplify_eq/=. split; [done|]. split; [constructor|]. by intros e _ ?%elem_of_nil. }
  rewrite reduce_step in Hred by done.
  pose proof (counts_unresolved_step remaining deg Hinv) as Hinv'.
  pose proof (remaining_after_batch remaining deg) as Hperm.
  cbv zeta in Hinv', Hperm.
  destruct (filter (λ i, indeg deg i = 0%nat) remaining) as [|b0 batch'] eqn:Hbatch; [done|].
  remember (b0 :: batch') as batch eqn:Hb. cbv zeta in Hred.
  destruct (reduce fuel es (filter (λ i, i ∉ batch) remaining) (release es batch deg))
    as [[bs'|?]|] eqn:Hrec; [|done..].
  injection Hred as <-.
  destruct (IH _ _ _ Hinv' Hrec) as (Hp & Hnonempty & Hedges).
  split; [|split].
  - simpl. by rewrite Hp.
  - constructor; [by subst batch | done].
  - intros e He Hs Ht.
    assert (target_instance_id e ∉ batch) as Htb.
    { intros Hin. rewrite <- Hbatch in Hin. apply list_elem_of_filter in Hin as [Hz _].
      rewrite Hinv in Hz. pose proof (pending_pos remaining e He Hs). lia. }
    assert (target_instance_id e ∈ filter (λ i, i ∉ batch) remaining) as Ht'.
    { by apply list_elem_of_filter. }
    destruct (decide (source_instance_id e ∈ batch)) as [Hsb|Hsb].
    + destruct (batch_index_elem bs' (target_instance_id e)) as [j Hj].
      { by rewrite Hp. }
      exists 0%nat, (S j). rewrite batch_index_here, batch_index_later, Hj by done.
      split; [done|]. split; [done|lia].
    + destruct (Hedges e He) as (i & j & Hi & Hj & Hlt); [by apply list_elem_of_filter|done|].
      exists (S i), (S j). rewrite !batch_index_later, Hi, Hj by done.
      split; [done|]. split; [done|lia].
Qed.

(** Enough fuel always gives a result. *)
Lemma reduce_total fuel remaining deg :
  (length remaining ≤ fuel)%nat → is_Some (reduce fuel es remaining deg).
Proof.
  revert remaining deg. induction fuel as [|fuel IH]; intros remaining deg Hlen.
  { destruct remaining; [by eexists | simpl in Hlen; lia]. }
  destruct (decide (remaining = [])) as [->|Hne]; [by eexists|].
  rewrite reduce_step by done.
  destruct (filter (λ i, indeg deg i = 0%nat) remaining) as [|b0 batch'] eqn:Hbatch;
    [by eexists|].
  remember (b0 :: batch') as batch eqn:Hb. cbv zeta.
  destruct (IH (filter (λ i, i ∉ batch) remaining) (release es batch deg)) as [r Hr].
  - assert (b0 ∈ remaining) as Hb0.
    { assert (b0 ∈ filter (λ i, indeg deg i = 0%nat) remaining) as Hin
        by (rewrite Hbatch, Hb; left).
      by apply list_elem_of_filter in Hin as [_ ?]. }
    pose proof (length_filter_lt (λ i, i ∉ batch) remaining b0 Hb0) as Hlt.
    assert (¬ (b0 ∉ batch)) as Hnn by (intros Hn; apply Hn; subst batch; left).
    specialize (Hlt Hnn). lia.
  - rewrite Hr. destruct r; by eexists.
Qed.

(** *** The stalled pass *)

Lemma unresolved_dependency_Some remaining x p :
  unresolved_dependency es remaining x = Some p → p ∈ remaining ∧ edge_rel es p x.
Proof.
  unfold unresolved_dependency.
  destruct (head _) as [e|] eqn:Hhd; [|done]. intros [= <-].
  apply head_Some_elem_of, list_elem_of_filter in Hhd as [[Ht Hs] He].
  split; [done|]. by exists e.
Qed.

Lemma unresolved_dependency_stalled remaining deg x :
  counts_unresolved es remaining deg → indeg deg x ≠ 0%nat →
  is_Some (unresolved_dependency es remaining x).
Proof.
  intros Hinv Hpos. rewrite Hinv in Hpos. unfold pending in Hpos.
  unfold unresolved_dependency.
  destruct (filter _ es) as [|e ?]; [done|]. by eexists.
Qed.

Lemma linked_tail a l : linked es (a :: l) → linked es l.
Proof. destruct l; simpl; tauto. Qed.

Lemma linked_rtc_head a l y :
  linked es (a :: l) → y ∈ a :: l → rtc (edge_rel es) a y.
Proof.
  revert a. induction l as [|b l IH]; intros a Hl Hy.
  - apply list_elem_of_singleton in Hy as ->. done.
  - apply elem_of_cons in Hy as [->|Hy]; [done|].
    destruct Hl as [Hab Hl]. eapply rtc_l; [exact Hab|]. by apply IH.
Qed.

Lemma linked_rtc_last l z y :
  linked es l → last l = Some z → y ∈ l → rtc (edge_rel es) y z.
Proof.
  revert y. induction l as [|a l IH]; intros y Hl Hz Hy; [by apply elem_of_nil in Hy|].
  destruct l as [|b l].
  - simplify_eq/=. apply list_elem_of_singleton in Hy as ->. done.
  - apply elem_of_cons in Hy as [->|Hy].
    + destruct Hl as [Hab Hl]. eapply rtc_l; [exact Hab|].
      apply IH; [done|done|left].
    + apply IH; [by eapply linked_tail|done|done].
Qed.

(** A linked list whose last element has an edge back to the first: every
    element lies on a cycle. *)
Lemma closed_walk_cycle a l z y :
  linked es (a :: l) → last (a :: l) = Some z → edge_rel es z a →
  y ∈ a :: l → tc (edge_rel es) y y.
Proof.
  intros Hl Hz Hza Hy.
  eapply tc_rtc_l; [by eapply linked_rtc_last|].
  eapply tc_rtc_r; [by apply tc_once|]. by eapply linked_rtc_head.
Qed.

Lemma take_through_head p a l : head (take_through p (a :: l)) = Some a.
Proof. simpl. by destruct (decide (a = p)). Qed.

Lemma take_through_last p l : p ∈ l → last (take_through p l) = Some p.
Proof.
  induction l as [|a l IH]; intros Hp; [by apply elem_of_nil in Hp|].
  simpl. destruct (decide (a = p)) as [->|Hne]; [done|].
  apply elem_of_cons in Hp as [->|Hp]; [done|].
  specialize (IH Hp). destruct (take_through p l) eqn:Ht; [done|]. done.
Qed.

Lemma take_through_elem p l y : y ∈ take_through p l → y ∈ l.
Proof.
  induction l as [|a l IH]; simpl; [done|].
  destruct (decide (a = p)).
  - intros ->%list_elem_of_singleton. left.
  - intros [->|?]%elem_of_cons; [left | right; auto].
Qed.

Lemma take_through_linked p l : linked es l → linked es (take_through p l).
Proof.
  induction l as [|a l IH]; intros Hl; [done|].
  simpl. destruct (decide (a = p)); [done|].
  destruct l as [|b l]; [done|]. destruct Hl as [Hab Hl].
  specialize (IH Hl). simpl in *. destruct (decide (b = p)); simpl; tauto.
Qed.

(** A back-edge [p → x] into the walk closes a cycle: the walk up to [p]. *)
Lemma take_through_closes (remaining : list string) p x path :
  p ∈ x :: path → linked es (x :: path) → edge_rel es p x →
  (∀ y, y ∈ x :: path → y ∈ remaining) →
  take_through p (x :: path) ≠ [] ∧
  ∀ y, y ∈ take_through p (x :: path) → y ∈ remaining ∧ tc (edge_rel es) y y.
Proof.
  intros Hin Hl Hpx Hsub.
  pose proof (take_through_head p x path) as Hhd.
  pose proof (take_through_last p (x :: path) Hin) as Hlast.
  pose proof (take_through_linked p (x :: path) Hl) as Hlk.
  pose proof (take_through_elem p (x :: path)) as Hel.
  destruct (take_through p (x :: path)) as [|a c]; [done|].
  injection Hhd as ->. split; [done|]. intros y Hy. split; [auto|].
  by eapply closed_walk_cycle.
Qed.

(** The backward walk ends on a cycle among the remaining instances. *)
Lemma back_walk_finds_cycle fuel remaining path x :
  (∀ y, y ∈ remaining → is_Some (unresolved_dependency es remaining y)) →
  x ∈ remaining → (∀ y, y ∈ path → y ∈ remaining) →
  NoDup (x :: path) → linked es (x :: path) →
  (length remaining ≤ fuel + length (x :: path))%nat →
  back_walk fuel es remaining path x ≠ [] ∧
  ∀ y, y ∈ back_walk fuel es remaining path x →
       y ∈ remaining ∧ tc (edge_rel es) y y.
Proof.
  intros Hdep. revert path x.
  induction fuel as [|fuel IH]; intros path x Hx Hpath Hnd Hl Hlen.
  all: destruct (Hdep x Hx) as [p Hp].
  all: destruct (unresolved_dependency_Some _ _ _ Hp) as [Hpr Hpx].
  all: assert (∀ y, y ∈ x :: path → y ∈ remaining) as Hsub
         by (intros y [->|?]%elem_of_cons; auto).
  all: simpl; rewrite Hp.
  all: destruct (decide (p ∈ x :: path)) as [Hin|Hout];
         [by apply take_through_closes|].
  - exfalso.
    assert (p :: x :: path ⊆+ remaining) as Hsub'.
    { apply NoDup_submseteq; [by constructor|].
      intros y [->|?]%elem_of_cons; auto. }
    apply submseteq_length in Hsub'. simpl in *. lia.
  - apply IH; try done.
    + by constructor.
    + simpl in *. lia.
Qed.

Lemma find_cycle_stalled remaining deg :
  counts_unresolved es remaining deg → remaining ≠ [] →
  filter (λ i, indeg deg i = 0%nat) remaining = [] →
  find_cycle es remaining ≠ [] ∧
  ∀ y, y ∈ find_cycle es remaining → y ∈ remaining ∧ tc (edge_rel es) y y.
Proof.
  intros Hinv Hne Hstall. destruct remaining as [|x rest] eqn:Hrem; [done|].
  unfold find_cycle. rewrite <- Hrem in *.
  apply back_walk_finds_cycle.
  - intros y Hy. eapply unresolved_dependency_stalled; [done|].
    intros Hz. eapply filter_nil_not_elem_of; [exact Hstall| |exact Hy]. done.
  - rewrite Hrem. left.
  - by intros y ?%elem_of_nil.
  - apply NoDup_singleton.
  - done.
  - simpl. lia.
Qed.

(** What a reduction that reports a cycle names: at least one instance,
    each of them remaining and each on a cycle of the graph. *)
Lemma reduce_cycle fuel remaining deg involved :
  counts_unresolved es remaining deg →
  reduce fuel es remaining deg = Some (CycleError involved) →
  involved ≠ [] ∧ ∀ y, y ∈ involved → y ∈ remaining ∧ tc (edge_rel es) y y.
Proof.
  revert remaining deg.
  induction fuel as [|fuel IH]; intros remaining deg Hinv Hred.
  { by destruct remaining. }
  destruct (decide (remaining = [])) as [->|Hne]; [done|].
  rewrite reduce_step in Hred by done.
  pose proof (counts_unresolved_step remaining deg Hinv) as Hinv'. cbv zeta in Hinv'.
  destruct (filter (λ i, indeg deg i = 0%nat) remaining) as [|b0 batch'] eqn:Hbatch.
  { injection Hred as <-. by eapply find_cycle_stalled. }
  remember (b0 :: batch') as batch eqn:Hb. cbv zeta in Hred.
  destruct (reduce fuel es (filter (λ i, i ∉ batch) remaining) (release es batch deg))
    as [[?|c]|] eqn:Hrec; [done| |done].
  injection Hred as <-.
  destruct (IH _ _ Hinv' Hrec) as [Hc Hall]. split; [done|].
  intros y Hy. destruct (Hall y Hy) as [Hyr Hcyc]. split; [|done].
  by apply list_elem_of_filter in Hyr as [_ ?].
Qed.

(** When every edge leads to a strictly later batch, so does every path. *)
Lemma batch_index_tc bs a b :
  (∀ e, e ∈ es →
     ∃ i j, batch_index bs (source_instance_id e) = Some i ∧
            batch_index bs (target_instance_id e) = Some j ∧ (i < j)%nat) →
  tc (edge_rel es) a b →
  ∃ i j, batch_index bs a = Some i ∧ batch_index bs b = Some j ∧ (i < j)%nat.
Proof.
  intros Hedges. induction 1 as [a b (e & He & <- & <-)|a b c (e & He & <- & <-) _ IH].
  - by apply Hedges.
  - destruct (Hedges e He) as (i & j & Hi & Hj & Hij).
    destruct IH as (j' & k & Hj' & Hk & Hjk).
    exists i, k. split; [done|]. split; [done|]. simplify_eq. lia.
Qed.

End Scheduler_facts.

(** ** The validator *)

Section Validator_facts.
Import Core.
Variable resolve : Registry.
Variable g : WorkflowGraph.

Lemma validate_nil :
  validate resolve g = [] →
  unknown_types resolve g = [] ∧ dangling_edges resolve g = [] ∧
  parameter_errors resolve g = [] ∧ doubly_written g = [].
Proof.
  unfold validate.
  destruct (unknown_types resolve g); [|done].
  destruct (dangling_edges resolve g); [|done].
  destruct (parameter_errors resolve g); [|done]. done.
Qed.

Lemma validate_edge_resolves e :
  validate resolve g = [] → e ∈ edges g → edge_resolves resolve g e = true.
Proof.
  intros (_ & Hd & _)%validate_nil He. unfold dangling_edges in Hd.
  apply fmap_nil_inv in Hd.
  destruct (edge_resolves resolve g e) eqn:Hr; [done|].
  exfalso. by eapply (filter_nil_not_elem_of _ _ e Hd).
Qed.

Lemma descriptor_of_Some i d :
  descriptor_of resolve g i = Some d →
  ∃ n, lookup_instance g i = Some n ∧ resolve (type_id n) = Some d ∧ i ∈ ids g.
Proof.
  unfold descriptor_of. destruct (lookup_instance g i) as [n|] eqn:Hn; [|done].
  simpl. intros Hd. exists n. split; [done|]. split; [done|].
  unfold lookup_instance in Hn.
  apply head_Some_elem_of, list_elem_of_filter in Hn as [<- Hn].
  unfold ids. apply list_elem_of_fmap. by exists n.
Qed.

(** A graph that passes validation has resolving edge endpoints; with
    unique instance ids it is well formed. *)
Lemma validate_well_formed :
  validate resolve g = [] → NoDup (ids g) → well_formed g.
Proof.
  intros Hval Hnd. split; [done|]. intros e He.
  pose proof (validate_edge_resolves e Hval He) as Hr. unfold edge_resolves in Hr.
  destruct (descriptor_of resolve g (source_instance_id e)) as [ds|] eqn:Hs; [|done].
  destruct (descriptor_of resolve g (target_instance_id e)) as [dt|] eqn:Ht; [|done].
  apply descriptor_of_Some in Hs as (_ & _ & _ & ?).
  apply descriptor_of_Some in Ht as (_ & _ & _ & ?). done.
Qed.


Lemma lookup_instance_elem i : i ∈ ids g → ∃ n, lookup_instance g i = Some n.
Proof.
  unfold ids. intros (n & -> & Hn)%list_elem_of_fmap. unfold lookup_instance.
  destruct (filter (λ n0, instance_id n0 = instance_id n) (instances g)) as [|n' l] eqn:Hf.
  - exfalso. by eapply (filter_nil_not_elem_of _ _ n Hf).
  - by exists n'.
Qed.

Lemma validate_resolves n :
  validate resolve g = [] → n ∈ instances g → ∃ d, resolve (type_id n) = Some d.
Proof.
  intros (Hu & _)%validate_nil Hn.
  destruct (resolve (type_id n)) as [d|] eqn:Hd; [by exists d|]. exfalso.
  assert (UnknownNodeType (instance_id n) (type_id n) ∈ unknown_types resolve g) as Hin.
  { unfold unknown_types. apply list_elem_of_omap. exists n. split; [done|]. by rewrite Hd. }
  rewrite Hu in Hin. by apply elem_of_nil in Hin.
Qed.



End Validator_facts.

Section Validator_scenarios.
Import Core.

(** The scenario of §8: [C] declares the required parameter [x] and has
    neither a literal nor an inbound edge for it; the definition is rejected
    and the engine is not invoked. *)
Example required_parameter_without_source :
  let g := {| instances := [Example.node "C" "add" [("y", PInt 1)]]; edges := [] |} in
  validate Example.registry g = [MissingParameter "C" "x"] ∧
  execute Example.registry g = (Raise (ValueError "MissingParameter(C, x)"), None).
Proof. split; reflexivity. Qed.

(** The decision of §9 and the invariant of §3, on [scale], whose [factor]
    is optional with a default and whose [offset] is optional without one:
    [offset] without a source is missing; [factor] may be left to its
    default; and a parameter, even an optional one, with both a literal and
    an edge is in conflict. *)
Example optional_parameters :
  let s1 := Example.node "S1" "scale" [("x", PInt 3); ("offset", PInt 1)] in
  validate Example.scale_registry
    {| instances := [Example.node "S" "scale" [("x", PInt 3)]]; edges := [] |}
  = [MissingParameter "S" "offset"] ∧
  (execute Example.scale_registry {| instances := [s1]; edges := [] |}).1
  = Return [("S1", PDict [("out", PInt 7)])] ∧
  validate Example.scale_registry
    {| instances := [s1; Example.node "S2" "scale"
                           [("x", PInt 1); ("factor", PInt 5); ("offset", PInt 0)]];
       edges := [Example.edge "S1" "S2" "factor"] |}
  = [ConflictingParameter "S2" "factor"].
Proof. split; [reflexivity|]. split; [vm_compute; reflexivity|reflexivity]. Qed.

End Validator_scenarios.

Section Order_facts.
Import Core.

Lemma well_formedb_sound g : well_formedb g = true → well_formed g.
Proof.
  unfold well_formedb. intros [Hnd Hall]%andb_true_iff.
  split; [by apply bool_decide_eq_true in Hnd|].
  intros e He. rewrite forallb_forall in Hall.
  specialize (Hall e (proj1 (list_elem_of_In _ _) He)).
  apply andb_true_iff in Hall as [?%bool_decide_eq_true ?%bool_decide_eq_true]. done.
Qed.

Lemma well_formed_counts g :
  well_formed g → counts_unresolved (edges g) (ids g) (in_degrees (edges g)).
Proof. intros [_ Hend]. apply counts_unresolved_init. intros e He. by apply Hend. Qed.

Lemma order_total g : is_Some (order g).
Proof. apply reduce_total. unfold ids. by rewrite length_fmap. Qed.

(** What [order] returns when it returns batches, on a well-formed graph. *)
Lemma order_batches g bs :
  well_formed g → order g = Some (Batches bs) →
  concat bs ≡ₚ ids g ∧ NoDup (concat bs) ∧ Forall (λ b, b ≠ []) bs ∧
  (∀ e, e ∈ edges g →
     ∃ i j, batch_index bs (source_instance_id e) = Some i ∧
            batch_index bs (target_instance_id e) = Some j ∧ (i < j)%nat).
Proof.
  intros Hwf Hord.
  destruct (reduce_batches _ _ _ _ _ (well_formed_counts g Hwf) Hord) as (Hp & Hne & Hedges).
  destruct Hwf as [Hnd Hend].
  split; [done|]. split; [by rewrite Hp|]. split; [done|].
  intros e He. destruct (Hend e He). by apply Hedges.
Qed.

Lemma order_batches_acyclic g bs :
  well_formed g → order g = Some (Batches bs) → acyclic g.
Proof.
  intros Hwf Hord x Hcyc.
  destruct (order_batches g bs Hwf Hord) as (_ & _ & _ & Hedges).
  destruct (batch_index_tc _ _ _ _ Hedges Hcyc) as (i & j & Hi & Hj & Hij).
  simplify_eq. lia.
Qed.

(** C1: on a well-formed acyclic graph, [order] returns batches.  Their
    concatenation is a rearrangement of the instance ids without repetition,
    so every instance id is in exactly one batch; no batch is empty; and
    for every edge the batch of its source comes strictly before the batch
    of its target. *)
Theorem order_partitions_and_respects_edges (g : WorkflowGraph) :
  well_formed g → acyclic g →
  ∃ bs, order g = Some (Batches bs) ∧
    concat bs ≡ₚ ids g ∧ NoDup (concat bs) ∧ Forall (λ b, b ≠ []) bs ∧
    (∀ x, x ∈ ids g →
       ∃ i b, batch_index bs x = Some i ∧ bs !! i = Some b ∧ x ∈ b ∧
              ∀ j b', bs !! j = Some b' → x ∈ b' → j = i) ∧
    (∀ e, e ∈ edges g →
       ∃ i j, batch_index bs (source_instance_id e) = Some i ∧
              batch_index bs (target_instance_id e) = Some j ∧ (i < j)%nat).
Proof.
  intros Hwf Hacyc.
  destruct (order_total g) as [[bs|involved] Hord].
  - destruct (order_batches g bs Hwf Hord) as (Hp & Hnd & Hne & Hedges).
    exists bs. split; [done|]. split; [done|]. split; [done|]. split; [done|].
    split; [|done].
    intros x Hx. destruct (batch_index_elem bs x) as [i Hi]; [by rewrite Hp|].
    destruct (batch_index_lookup bs x i Hi) as (b & Hb & Hxb).
    exists i, b. split; [done|]. split; [done|]. split; [done|].
    intros j b' Hj Hxb'. pose proof (batch_index_unique bs x j b' Hnd Hj Hxb'). congruence.
  - exfalso.
    destruct (reduce_cycle _ _ _ _ _ (well_formed_counts g Hwf) Hord) as [Hne Hall].
    destruct involved as [|y ?]; [done|].
    destruct (Hall y) as [_ Hcyc]; [left|]. by apply (Hacyc y).
Qed.

(** The scenario of §8: [A] then [B]. *)
Lemma order_partitions_and_respects_edges_witness :
  ∃ bs, order Example.add_then_multiply = Some (Batches bs) ∧
        bs = [["A"]; ["B"]].
Proof.
  assert (well_formed Example.add_then_multiply) as Hwf
    by (apply well_formedb_sound; reflexivity).
  destruct (order_partitions_and_respects_edges Example.add_then_multiply Hwf)
    as (bs & Hord & _).
  - by apply (order_batches_acyclic _ [["A"]; ["B"]]).
  - exists bs. split; [done|]. vm_compute in Hord. congruence.
Defined.

(** C2: on a well-formed graph whose edges contain a cycle, [order] returns
    [CycleError]; it names at least one instance, every instance it names is
    an instance of the graph that lies on a cycle, and the executor raises
    without invoking the engine: there is no engine run, hence no
    [ExecutionResult] for any instance. *)
Theorem order_reports_cycle (g : WorkflowGraph) :
  well_formed g → has_cycle g →
  ∃ involved, order g = Some (CycleError involved) ∧
    involved ≠ [] ∧
    (∀ y, y ∈ involved → y ∈ ids g ∧ tc (edge_rel (edges g)) y y) ∧
    (∀ resolve, (execute resolve g).2 = None ∧
                ∃ msg, (execute resolve g).1 = Raise (ValueError msg)).
Proof.
  intros Hwf [x Hcyc].
  destruct (order_total g) as [[bs|involved] Hord].
  { exfalso. by apply (order_batches_acyclic g bs Hwf Hord x). }
  destruct (reduce_cycle _ _ _ _ _ (well_formed_counts g Hwf) Hord) as [Hne Hall].
  exists involved. split; [done|]. split; [done|]. split; [done|].
  intros resolve. unfold execute. rewrite Hord.
  destruct (validate resolve g); simpl; eauto.
Qed.

(** The scenario of §8: the cycle of two is reported with both instances,
    and nothing is executed. *)
Lemma order_reports_cycle_witness :
  order Example.two_cycle = Some (CycleError ["B"; "A"]) ∧
  (execute Example.registry Example.two_cycle).2 = None.
Proof.
  destruct (order_reports_cycle Example.two_cycle) as (involved & Hord & _ & _ & Hex).
  - apply well_formedb_sound. reflexivity.
  - exists "A". eapply tc_l; [|apply tc_once].
    + exists (Example.edge "A" "B" "x"). split; [left|done].
    + exists (Example.edge "B" "A" "x"). split; [right; left|done].
  - split; [reflexivity|]. apply Hex.
Defined.

End Order_facts.

(** ** The execution engine *)

Section Engine_facts.
Import Core.
Variable resolve : Registry.
Variable g : WorkflowGraph.

(** *** Reachability *)

Lemma elem_of_successors x z : z ∈ successors (edges g) x → edge_rel (edges g) x z.
Proof.
  unfold successors. intros (e & -> & [Hs He]%list_elem_of_filter)%list_elem_of_fmap.
  by exists e.
Qed.

Lemma reachable_from_sound fuel x frontier seen z :
  (∀ f, f ∈ frontier → rtc (edge_rel (edges g)) x f) →
  (∀ s, s ∈ seen → tc (edge_rel (edges g)) x s) →
  z ∈ reachable_from fuel (edges g) frontier seen → tc (edge_rel (edges g)) x z.
Proof.
  revert frontier seen. induction fuel as [|fuel IH]; intros frontier seen Hf Hs; simpl; [auto|].
  assert (∀ y, y ∈ remove_dups (filter (λ y, y ∉ seen) (frontier ≫= successors (edges g))) →
               tc (edge_rel (edges g)) x y) as Hnew.
  { intros y [_ (f & Hy & Hfr)%list_elem_of_bind]%elem_of_remove_dups%list_elem_of_filter.
    eapply tc_rtc_l; [by apply Hf|]. by apply tc_once, elem_of_successors. }
  destruct (remove_dups _) as [|n new]; [auto|].
  apply IH.
  - intros f Hfn. by apply tc_rtc, Hnew.
  - intros s [?|?]%elem_of_app; auto.
Qed.

(** Every instance the engine marks as a descendant is reached by a path. *)
Lemma descendants_sound x z :
  z ∈ descendants g x → tc (edge_rel (edges g)) x z.
Proof.
  apply reachable_from_sound.
  - intros f ->%list_elem_of_singleton. done.
  - by intros s ?%elem_of_nil.
Qed.

Lemma successors_edge_rel x z : edge_rel (edges g) x z → z ∈ successors (edges g) x.
Proof.
  intros (e & He & <- & <-). unfold successors.
  apply list_elem_of_fmap. exists e. split; [done|]. by apply list_elem_of_filter.
Qed.

Lemma tc_last_edge x z :
  tc (edge_rel (edges g)) x z → ∃ y, edge_rel (edges g) y z.
Proof. induction 1 as [a b Hab|a b c _ _ IH]; [by exists a|done]. Qed.

(** A set that holds the successors of the start and of each of its own
    members holds everything reachable from the start. *)
Lemma closed_reachable x (seen : list string) z :
  (∀ s w, s = x ∨ s ∈ seen → edge_rel (edges g) s w → w ∈ seen) →
  tc (edge_rel (edges g)) x z → z ∈ seen.
Proof.
  intros Hclosed Hreach.
  assert (∀ a b, tc (edge_rel (edges g)) a b → a = x ∨ a ∈ seen → b ∈ seen) as Hall.
  { induction 1 as [a b Hab|a b c Hab _ IH]; intros Ha.
    - by eapply Hclosed.
    - apply IH. right. by eapply Hclosed. }
  apply (Hall x z Hreach). by left.
Qed.

Lemma reachable_from_complete fuel x frontier seen z :
  well_formed g →
  NoDup seen → (∀ s, s ∈ seen → s ∈ ids g) →
  (length (ids g) ≤ length seen + fuel)%nat →
  (∀ s w, s = x ∨ s ∈ seen → s ∉ frontier → edge_rel (edges g) s w → w ∈ seen) →
  tc (edge_rel (edges g)) x z →
  z ∈ reachable_from fuel (edges g) frontier seen.
Proof.
  intros [Hids Hends]. revert frontier seen.
  induction fuel as [|fuel IH]; intros frontier seen Hnd Hsub Hlen Hclosed Hreach.
  - simpl.
    assert (seen ≡ₚ ids g) as Hperm.
    { apply submseteq_length_Permutation; [by apply NoDup_submseteq|lia]. }
    rewrite Hperm.
    destruct (tc_last_edge _ _ Hreach) as (y & e & He & _ & <-).
    by apply Hends.
  - simpl.
    set (new := remove_dups (filter (λ y, y ∉ seen) (frontier ≫= successors (edges g)))).
    assert (∀ y, y ∈ new ↔ y ∉ seen ∧ ∃ f, f ∈ frontier ∧ edge_rel (edges g) f y) as Hnew.
    { intros y. unfold new. rewrite elem_of_remove_dups, list_elem_of_filter, list_elem_of_bind.
      split.
      - intros [Hy (f & Hyf & Hf)]. split; [done|]. exists f. split; [done|].
        by apply elem_of_successors.
      - intros [Hy (f & Hf & Hyf)]. split; [done|]. exists f. split; [|done].
        by apply successors_edge_rel. }
    assert (NoDup new) as Hndnew by apply NoDup_remove_dups.
    clearbody new. destruct new as [|n new].
    + apply (closed_reachable x); [|done].
      intros s w Hs Hsw. destruct (decide (s ∈ frontier)) as [Hf|Hf].
      * destruct (decide (w ∈ seen)) as [|Hw]; [done|].
        exfalso. eapply elem_of_nil. apply Hnew. eauto.
      * by eapply Hclosed.
    + apply IH.
      * apply NoDup_app. split; [done|]. split; [|done].
        intros y Hy Hyn. by apply Hnew in Hyn as [? _].
      * intros s [?|Hs]%elem_of_app; [auto|].
        apply Hnew in Hs as (_ & f & _ & e & He & _ & <-). by apply Hends.
      * rewrite length_app. simpl. lia.
      * intros s w Hs Hsn Hsw. apply elem_of_app.
        assert (s = x ∨ s ∈ seen) as Hs'.
        { destruct Hs as [?|[?|?]%elem_of_app]; [by left|by right|done]. }
        destruct (decide (w ∈ seen)) as [|Hw]; [by left|].
        destruct (decide (s ∈ frontier)) as [Hf|Hf].
        -- right. apply Hnew. eauto.
        -- left. by eapply Hclosed.
      * done.
Qed.

(** On a well-formed graph the skip set of [x] holds every instance
    reachable from [x]. *)
Lemma descendants_complete x z :
  well_formed g → tc (edge_rel (edges g)) x z → z ∈ descendants g x.
Proof.
  intros Hwf Hreach. unfold descendants.
  apply (reachable_from_complete _ x); try done.
  - constructor.
  - by intros s ?%elem_of_nil.
  - unfold ids. rewrite length_fmap. simpl. lia.
  - intros s w [->|?%elem_of_nil] Hs; [|done]. exfalso. apply Hs. by left.
Qed.

(** *** The order in which the batches list the instances *)

Lemma concat_lookup_batch_index bs i j y z iy iz :
  NoDup (concat bs) →
  concat bs !! i = Some y → concat bs !! j = Some z → (j ≤ i)%nat →
  batch_index bs y = Some iy → batch_index bs z = Some iz → (iz ≤ iy)%nat.
Proof.
  revert i j iy iz. induction bs as [|b bs IH]; intros i j iy iz Hnd Hi Hj Hji Hy Hz; [done|].
  simpl in Hnd, Hi, Hj. apply NoDup_app in Hnd as (_ & Hdisj & Hnd).
  destruct (decide (z ∈ b)) as [Hzb|Hzb].
  { rewrite batch_index_here in Hz by done. simplify_eq. lia. }
  rewrite batch_index_later in Hz by done.
  destruct (batch_index bs z) as [iz'|] eqn:Hz'; [|done]. injection Hz as <-.
  assert (length b ≤ j)%nat as Hbj.
  { destruct (decide (j < length b)%nat) as [Hlt|]; [|lia].
    rewrite lookup_app_l in Hj by done. exfalso. apply Hzb.
    by eapply list_elem_of_lookup_2. }
  rewrite lookup_app_r in Hi, Hj by lia.
  assert (y ∉ b) as Hyb.
  { intros Hyb. apply (Hdisj y Hyb). by eapply list_elem_of_lookup_2. }
  rewrite batch_index_later in Hy by done.
  destruct (batch_index bs y) as [iy'|] eqn:Hy'; [|done]. injection Hy as <-.
  pose proof (IH _ _ _ _ Hnd Hi Hj ltac:(lia) eq_refl eq_refl). lia.
Qed.

(** On a scheduled graph, no descendant of an instance is listed before it,
    and no instance is its own descendant. *)
Lemma descendants_listed_later bs (l1 : list string) y l2 z :
  well_formed g → order g = Some (Batches bs) →
  concat bs = (l1 ++ y :: l2)%list → z ∈ descendants g y → z ∉ l1 ∧ z ≠ y.
Proof.
  intros Hwf Hord Hsplit Hz.
  destruct (order_batches g bs Hwf Hord) as (_ & Hnd & _ & Hedges).
  destruct (batch_index_tc _ _ _ _ Hedges (descendants_sound _ _ Hz))
    as (iy & iz & Hy & Hzi & Hlt).
  assert (concat bs !! length l1 = Some y) as Hyl.
  { rewrite Hsplit. apply list_lookup_middle. done. }
  split.
  - intros (j & Hj)%list_elem_of_lookup_1.
    pose proof (lookup_lt_Some _ _ _ Hj) as Hjl.
    assert (concat bs !! j = Some z) as Hzl.
    { rewrite Hsplit. by apply lookup_app_l_Some. }
    pose proof (concat_lookup_batch_index bs _ _ _ _ _ _ Hnd Hyl Hzl ltac:(lia) Hy Hzi). lia.
  - intros ->. simplify_eq. lia.
Qed.

(** *** The call log *)

Lemma invocation_count_snoc res sk inv y inputs i :
  invocation_count {| results := res; skipped := sk;
                      invocations := (inv ++ [(y, inputs)])%list |} i
  = (length (filter (λ c : string * pydict, c.1 = i) inv) + if decide (y = i) then 1 else 0)%nat.
Proof.
  unfold invocation_count. simpl. rewrite filter_app, length_app. f_equal.
  rewrite filter_cons. simpl. by destruct (decide (y = i)).
Qed.

Lemma inputs_of_snoc res sk inv y inputs i :
  inputs_of {| results := res; skipped := sk;
               invocations := (inv ++ [(y, inputs)])%list |} i
  = match head (filter (λ c : string * pydict, c.1 = i) inv) with
    | Some c => Some c.2
    | None => if decide (y = i) then Some inputs else None
    end.
Proof.
  unfold inputs_of. simpl. rewrite filter_app.
  destruct (filter _ inv) as [|c ?]; simpl; [|done].
  rewrite filter_cons. simpl. by destruct (decide (y = i)).
Qed.

(** *** Input resolution *)

Lemma lookup_instance_Some i n :
  lookup_instance g i = Some n → instance_id n = i ∧ n ∈ instances g.
Proof.
  unfold lookup_instance. intros Hhd%head_Some_elem_of.
  by apply list_elem_of_filter in Hhd.
Qed.

(** When the inputs resolve, a port fed by an edge carries the value cached
    for the edge's source. *)
Lemma resolve_inputs_consumed n res specs inputs port e :
  resolve_inputs g n res specs = Return inputs →
  port ∈ name <$> specs →
  dict_get port (parameters n) = None →
  head (inbound (edges g) (instance_id n) port) = Some e →
  ∃ r v, res !! source_instance_id e = Some r ∧
         dict_get (source_port e) (outputs r) = Some v ∧
         dict_get port inputs = Some v.
Proof.
  intros Hres Hport Hlit Hedge. revert inputs Hres Hport.
  induction specs as [|ps rest IH]; intros inputs Hres Hport; [by apply elem_of_nil in Hport|].
  simpl in Hres.
  destruct (resolve_parameter g n res ps) as [ov|] eqn:Hps; [|done].
  destruct (resolve_inputs g n res rest) as [inputs'|] eqn:Hrest; [|done].
  injection Hres as <-.
  destruct (decide (name ps = port)) as [Heq|Hne].
  - unfold resolve_parameter in Hps. rewrite Heq, Hlit, Hedge in Hps.
    destruct (res !! source_instance_id e) as [r|]; [|done].
    destruct (dict_get (source_port e) (outputs r)) as [v|] eqn:Hv; [|done].
    injection Hps as <-. exists r, v. split; [done|]. split; [done|].
    simpl. by rewrite decide_True.
  - rewrite fmap_cons in Hport. apply elem_of_cons in Hport as [?|Hport]; [congruence|].
    destruct (IH inputs' eq_refl Hport) as (r & v & Hr & Hv & Hin).
    exists r, v. split; [done|]. split; [done|].
    destruct ov; [|done]. simpl. by rewrite decide_False.
Qed.

(** *** The invariant *)

Lemma engine_invariant_initial : engine_invariant resolve g [] initial_state.
Proof.
  split; [|split].
  - intros i. rewrite decide_False; [done|]. by intros [?%elem_of_nil _].
  - intros i. simpl. rewrite lookup_empty. split; [by intros [? ?]|].
    by intros [?%elem_of_nil _].
  - intros e _ [? ?]. done.
Qed.

(** A call of [y], not processed before: its result is stored, the call is
    logged, and [extra], none of them processed, are marked skipped. *)
Lemma invoke_invariant done st y n d inputs r (extra : list string) :
  engine_invariant resolve g done st →
  y ∉ done → y ∉ skipped st →
  (∀ z, z ∈ extra → z ∉ done ∧ z ≠ y) →
  lookup_instance g y = Some n → resolve (type_id n) = Some d →
  resolve_inputs g n (results st) (parameter_list d) = Return inputs →
  engine_invariant resolve g (y :: done)
    {| results := <[y := r]> (results st);
       skipped := (skipped st ++ extra)%list;
       invocations := (invocations st ++ [(y, inputs)])%list |}.
Proof.
  intros (Hcount & Hres & Hobs) Hy Hysk Hextra Hn Hd Hin.
  assert (∀ i, i ∈ y :: done ∧ i ∉ (skipped st ++ extra)%list ↔
               i = y ∨ (i ∈ done ∧ i ∉ skipped st)) as Hmem.
  { intros i. rewrite elem_of_cons, elem_of_app. split.
    - intros [[->|Hi] Hns]; [by left | right; tauto].
    - intros [->|[Hi Hns]].
      + split; [by left|]. intros [?|Hex]; [done|]. by destruct (Hextra _ Hex).
      + split; [by right|]. intros [?|Hex]; [done|]. by destruct (Hextra _ Hex). }
  assert (length (filter (λ c : string * pydict, c.1 = y) (invocations st)) = 0%nat) as Hy0.
  { specialize (Hcount y). unfold invocation_count in Hcount.
    rewrite decide_False in Hcount by tauto. done. }
  split; [|split].
  - intros i. rewrite invocation_count_snoc. specialize (Hcount i).
    unfold invocation_count in Hcount.
    destruct (decide (y = i)) as [<-|Hne].
    + rewrite Hy0. rewrite decide_True; [done|]. apply Hmem. by left.
    + rewrite Hcount.
      destruct (decide (i ∈ done ∧ i ∉ skipped st)) as [Hi|Hi].
      * rewrite decide_True; [lia|]. apply Hmem. by right.
      * rewrite decide_False; [lia|]. rewrite Hmem. intros [?|?]; [congruence|done].
  - intros i. simpl. rewrite Hmem. destruct (decide (y = i)) as [<-|Hne].
    + rewrite lookup_insert_eq. split; [by left | by eexists].
    + rewrite lookup_insert_ne by done. rewrite Hres.
      split; [by right | intros [?|?]; [congruence|done]].
  - intros e Hcons Hcalled.
    assert (∃ r', results st !! source_instance_id e = Some r' ∧
                  ∀ inputs', inputs_of {| results := <[y := r]> (results st);
                                          skipped := (skipped st ++ extra)%list;
                                          invocations := (invocations st ++ [(y, inputs)])%list |}
                               (target_instance_id e) = Some inputs' →
                    ∃ v, dict_get (source_port e) (outputs r') = Some v ∧
                         dict_get (target_port e) inputs' = Some v) as (r' & Hr' & Hobs').
    { rewrite inputs_of_snoc in Hcalled. setoid_rewrite inputs_of_snoc.
      destruct (head (filter (λ c : string * pydict, c.1 = target_instance_id e)
                             (invocations st))) as [c|] eqn:Hhd.
      - destruct (Hobs e Hcons) as (r' & Hr' & Ho).
        { unfold inputs_of. rewrite Hhd. by eexists. }
        exists r'. split; [done|]. intros inputs' [= <-]. apply Ho.
        unfold inputs_of. by rewrite Hhd.
      - destruct (decide (y = target_instance_id e)) as [Heq|]; [|by destruct Hcalled].
        destruct Hcons as (n' & d' & Hn' & Hd' & Hport & Hlit & Hedge).
        subst y. simplify_eq.
        destruct (lookup_instance_Some _ _ Hn) as [Hid _].
        rewrite <- Hid in Hedge at 1.
        destruct (resolve_inputs_consumed _ _ _ _ _ _ Hin Hport Hlit Hedge)
          as (r' & v & Hr' & Hv & Hget).
        exists r'. split; [done|]. intros inputs' [= <-]. eauto. }
    assert (source_instance_id e ≠ y) as Hsy.
    { intros Heq. apply Hy. rewrite <- Heq.
      apply (Hres (source_instance_id e)). by eexists. }
    exists r'. split; [by simpl; rewrite lookup_insert_ne|]. exact Hobs'.
Qed.

(** One instance of the scheduled list. *)
Lemma run_instance_invariant done st y st' :
  engine_invariant resolve g done st →
  y ∉ done →
  (∀ z, z ∈ descendants g y → z ∉ done ∧ z ≠ y) →
  run_instance resolve g st y = Return st' →
  engine_invariant resolve g (y :: done) st'.
Proof.
  intros Hinv Hy Hdesc. unfold run_instance.
  destruct (decide (y ∈ skipped st)) as [Hsk|Hsk].
  { intros [= <-]. destruct Hinv as (Hcount & Hres & Hobs). split; [|split].
    - intros i. rewrite Hcount. destruct (decide (i = y)) as [->|Hne].
      + rewrite !decide_False; [done|tauto|tauto].
      + destruct (decide (i ∈ done ∧ i ∉ skipped st)) as [Hi|Hi].
        * rewrite decide_True; [done|]. rewrite elem_of_cons. tauto.
        * rewrite decide_False; [done|]. rewrite elem_of_cons. tauto.
    - intros i. rewrite Hres, elem_of_cons. split; [tauto|].
      intros [[->|?] ?]; tauto.
    - done. }
  destruct (lookup_instance g y) as [n|] eqn:Hn; [|done].
  destruct (resolve (type_id n)) as [d|] eqn:Hd; [|done].
  destruct (resolve_inputs g n (results st) (parameter_list d)) as [inputs|] eqn:Hin; [|done].
  destruct (execution_function d inputs) as [outs|e]; intros [= <-].
  - rewrite <- (app_nil_r (skipped st)).
    eapply invoke_invariant; eauto. by intros z ?%elem_of_nil.
  - eapply invoke_invariant; eauto.
Qed.

(** The skip rule is kept by one step: a failure marks exactly the
    instances reachable from the failed one. *)
Lemma run_instance_skip st y st' :
  well_formed g → results st !! y = None → skip_invariant g st →
  run_instance resolve g st y = Return st' → skip_invariant g st'.
Proof.
  intros Hwf Hy Hskip. unfold run_instance.
  destruct (decide (y ∈ skipped st)) as [|Hnsk]; [by intros [= <-]|].
  destruct (lookup_instance g y) as [n|]; [|done].
  destruct (resolve (type_id n)) as [d|]; [|done].
  destruct (resolve_inputs g n (results st) (parameter_list d)) as [inputs|]; [|done].
  destruct (execution_function d inputs) as [outs|e]; intros [= <-]; intros x; simpl.
  - rewrite (Hskip x).
    split; intros (f & (r & err & Hr & Hst) & Hreach); exists f; (split; [|done]).
    + exists r, err. simpl. rewrite lookup_insert_ne; [done|]. intros <-. congruence.
    + simpl in Hr. destruct (decide (y = f)) as [<-|Hne].
      * rewrite lookup_insert_eq in Hr. injection Hr as <-. done.
      * rewrite lookup_insert_ne in Hr by done. by exists r, err.
  - rewrite elem_of_app, (Hskip x). split.
    + intros [(f & (r & err & Hr & Hst) & Hreach) | Hdesc].
      * exists f. split; [|done]. exists r, err. simpl.
        rewrite lookup_insert_ne; [done|]. intros <-. congruence.
      * exists y. split; [|by apply descendants_sound].
        eexists _, _. simpl. rewrite lookup_insert_eq. done.
    + intros (f & (r & err & Hr & Hst) & Hreach). simpl in Hr.
      destruct (decide (y = f)) as [<-|Hne].
      * right. by apply descendants_complete.
      * left. exists f. split; [|done]. rewrite lookup_insert_ne in Hr by done.
        by exists r, err.
Qed.

(** A cached result stays the outcome of the call logged for it. *)
Lemma run_instance_results_of_calls st y st' :
  results st !! y = None → invocation_count st y = 0%nat →
  results_of_calls resolve g st →
  run_instance resolve g st y = Return st' → results_of_calls resolve g st'.
Proof.
  intros Hy Hcount Hcalls. unfold run_instance.
  destruct (decide (y ∈ skipped st)) as [|Hnsk]; [by intros [= <-]|].
  destruct (lookup_instance g y) as [n|] eqn:Hn; [|done].
  destruct (resolve (type_id n)) as [d|] eqn:Hd; [|done].
  destruct (resolve_inputs g n (results st) (parameter_list d)) as [inputs|]; [|done].
  assert (head (filter (λ c : string * pydict, c.1 = y) (invocations st)) = None) as Hhd.
  { unfold invocation_count in Hcount. by destruct (filter _ (invocations st)). }
  assert (∀ sk r f r',
            <[y := r]> (results st) !! f = Some r' →
            r = result_of (execution_function d inputs) →
            ∃ n' d' inputs',
              lookup_instance g f = Some n' ∧ resolve (type_id n') = Some d' ∧
              inputs_of {| results := <[y := r]> (results st); skipped := sk;
                           invocations := (invocations st ++ [(y, inputs)])%list |} f
                = Some inputs' ∧
              r' = result_of (execution_function d' inputs')) as Hstep.
  { intros sk r f r' Hr Hout. rewrite inputs_of_snoc.
    destruct (decide (y = f)) as [<-|Hne].
    - rewrite lookup_insert_eq in Hr. injection Hr as <-.
      exists n, d, inputs. by rewrite Hhd.
    - rewrite lookup_insert_ne in Hr by done.
      destruct (Hcalls f r' Hr) as (n' & d' & inputs' & Hn' & Hd' & Hin' & Hr').
      exists n', d', inputs'. split; [done|]. split; [done|]. split; [|done].
      unfold inputs_of in Hin'.
      destruct (head (filter (λ c : string * pydict, c.1 = f) (invocations st))); [|done].
      simpl in Hin'. by injection Hin' as ->. }
  destruct (execution_function d inputs) as [outs|e] eqn:Hexec; intros [= <-];
    intros f r' Hr'; by apply (Hstep _ _ _ _ Hr').
Qed.

(** One instance of the scheduled list, for the three invariants. *)
Lemma run_instance_invariants done st y st' :
  well_formed g →
  run_invariants resolve g done st →
  y ∉ done →
  (∀ z, z ∈ descendants g y → z ∉ done ∧ z ≠ y) →
  run_instance resolve g st y = Return st' →
  run_invariants resolve g (y :: done) st'.
Proof.
  intros Hwf (Hinv & Hskip & Hcalls) Hy Hdesc Hrun.
  assert (results st !! y = None) as Hnone.
  { destruct Hinv as (_ & Hres & _). destruct (results st !! y) eqn:Hr; [|done].
    exfalso. apply Hy. apply (Hres y). by eexists. }
  assert (invocation_count st y = 0%nat) as Hzero.
  { destruct Hinv as (Hcount & _). rewrite Hcount. rewrite decide_False; [done|]. tauto. }
  split; [|split].
  - by eapply run_instance_invariant.
  - by eapply run_instance_skip.
  - by eapply run_instance_results_of_calls.
Qed.


Lemma run_batch_app l1 l2 st :
  run_batch resolve g (l1 ++ l2)%list st =
  match run_batch resolve g l1 st with
  | Return st' => run_batch resolve g l2 st'
  | Raise e => Raise e
  end.
Proof.
  revert st. induction l1 as [|y l1 IH]; intros st; simpl; [done|].
  destruct (run_instance resolve g st y); [apply IH | done].
Qed.

(** Running the batches is running the instances in the order the
    batches list them. *)
Lemma run_concat bs st : run resolve g bs st = run_batch resolve g (concat bs) st.
Proof.
  revert st. induction bs as [|b bs IH]; intros st; simpl; [done|].
  rewrite run_batch_app. destruct (run_batch resolve g b st); [apply IH | done].
Qed.

Lemma run_invariants_initial : run_invariants resolve g [] initial_state.
Proof.
  split; [apply engine_invariant_initial|]. split.
  - intros x. split; [by intros ?%elem_of_nil|].
    intros (f & (r & err & Hr & _) & _). simpl in Hr. by rewrite lookup_empty in Hr.
  - intros f r Hr. simpl in Hr. by rewrite lookup_empty in Hr.
Qed.


(** *** A run of a validated graph completes *)

Lemma resolve_inputs_returns n res specs :
  (∀ ps, ps ∈ specs → ∃ v, resolve_parameter g n res ps = Return v) →
  ∃ inputs, resolve_inputs g n res specs = Return inputs.
Proof.
  induction specs as [|ps rest IH]; intros Hall; simpl; [by eexists|].
  destruct (Hall ps) as [v ->]; [left|].
  destruct IH as [inputs ->]; [intros ps' Hps'; apply Hall; by right|].
  by eexists.
Qed.

(** One instance whose dependencies have all been processed: its inputs
    resolve, since a dependency that failed or was skipped would have had it
    skipped, and one that succeeded produced the port the edge names. *)
Lemma run_instance_returns done st y :
  validate resolve g = [] → produces_declared_outputs resolve →
  run_invariants resolve g done st → y ∈ ids g →
  (∀ e, e ∈ edges g → target_instance_id e = y → source_instance_id e ∈ done) →
  ∃ st', run_instance resolve g st y = Return st'.
Proof.
  intros Hval Hprod ((_ & Hres & _) & Hskip & Hcalls) Hy Hsources. unfold run_instance.
  destruct (decide (y ∈ skipped st)) as [|Hnsk]; [by eexists|].
  destruct (lookup_instance_elem g y Hy) as [n Hn]. rewrite Hn.
  destruct (lookup_instance_Some _ _ Hn) as [Hid Hin].
  destruct (validate_resolves resolve g n Hval Hin) as [d Hd]. rewrite Hd.
  destruct (resolve_inputs_returns n (results st) (parameter_list d)) as [inputs ->].
  { intros ps Hps. unfold resolve_parameter.
    destruct (dict_get (name ps) (parameters n)); [by eexists|].
    destruct (head (inbound (edges g) (instance_id n) (name ps))) as [e|] eqn:Hhd;
      [|by eexists].
    apply head_Some_elem_of in Hhd. unfold inbound in Hhd.
    apply list_elem_of_filter in Hhd as [[Htgt Hport] He].
    rewrite Hid in Htgt.
    assert (edge_rel (edges g) (source_instance_id e) y) as Hedge by (by exists e).
    assert (source_instance_id e ∉ skipped st) as Hsrc.
    { intros (f & Hf & Hfs)%Hskip. apply Hnsk, Hskip. exists f. split; [done|].
      by eapply tc_r. }
    destruct (proj2 (Hres (source_instance_id e))) as [r Hr]; [split; [eauto|done]|].
    rewrite Hr.
    destruct (Hcalls _ r Hr) as (ns & ds & inputs_s & Hns & Hds & _ & Hout).
    destruct (execution_function ds inputs_s) as [outs|err] eqn:Hexec; simpl in Hout.
    - pose proof (validate_edge_resolves resolve g e Hval He) as Hres_e.
      unfold edge_resolves, descriptor_of in Hres_e. rewrite Hns in Hres_e.
      simpl in Hres_e. rewrite Hds in Hres_e.
      destruct (lookup_instance g (target_instance_id e) ≫= _); [|done].
      apply andb_true_iff in Hres_e as [Hsp%bool_decide_eq_true _].
      destruct (Hprod _ _ _ _ Hds Hexec _ Hsp) as [v Hv].
      subst r. simpl. rewrite Hv. by eexists.
    - exfalso. apply Hnsk, Hskip. exists (source_instance_id e).
      split; [|by apply tc_once]. exists r, (exn_str err). split; [done|]. by subst r. }
  destruct (execution_function d inputs); by eexists.
Qed.

Lemma run_batch_returns (l : list string) done st :
  well_formed g → validate resolve g = [] → produces_declared_outputs resolve →
  run_invariants resolve g done st →
  NoDup l → (∀ y, y ∈ l → y ∉ done ∧ y ∈ ids g) →
  (∀ (l1 : list string) y l2, l = (l1 ++ y :: l2)%list →
     (∀ z, z ∈ descendants g y → z ∉ done ∧ z ∉ l1 ∧ z ≠ y) ∧
     (∀ e, e ∈ edges g → target_instance_id e = y →
           source_instance_id e ∈ done ∨ source_instance_id e ∈ l1)) →
  ∃ st', run_batch resolve g l st = Return st'.
Proof.
  intros Hwf Hval Hprod. revert done st.
  induction l as [|y l IH]; intros done st Hinv Hnd Hfresh Hcond; simpl; [by eexists|].
  apply NoDup_cons in Hnd as [Hyl Hnd].
  destruct (Hcond [] y l eq_refl) as [Hdesc Hsrc].
  destruct (Hfresh y) as [Hyd Hyids]; [left|].
  destruct (run_instance_returns done st y) as [st1 Hst1]; try done.
  { intros e He Ht. destruct (Hsrc e He Ht) as [?|?%elem_of_nil]; done. }
  rewrite Hst1. apply (IH (y :: done) st1); [|done| |].
  - apply (run_instance_invariants done st); [done|done|done| |done].
    intros z Hz. destruct (Hdesc z Hz) as (? & _ & ?). done.
  - intros y' Hy'. destruct (Hfresh y') as [? ?]; [by right|]. split; [|done].
    intros [->|?]%elem_of_cons; done.
  - intros l1 y' l2 ->. destruct (Hcond (y :: l1) y' l2 eq_refl) as [Hd' Hs'].
    split.
    + intros z Hz. destruct (Hd' z Hz) as (? & ? & ?).
      rewrite !elem_of_cons in *. tauto.
    + intros e He Ht. rewrite elem_of_cons.
      destruct (Hs' e He Ht) as [?|[?|?]%elem_of_cons]; tauto.
Qed.

(** On a scheduled graph every dependency of an instance is listed before
    it. *)
Lemma sources_listed_earlier bs (l1 : list string) y l2 e :
  well_formed g → order g = Some (Batches bs) →
  concat bs = (l1 ++ y :: l2)%list →
  e ∈ edges g → target_instance_id e = y → source_instance_id e ∈ l1.
Proof.
  intros Hwf Hord Hsplit He Ht.
  destruct (order_batches g bs Hwf Hord) as (Hperm & Hnd & _ & Hedges).
  destruct (Hedges e He) as (i & j & Hi & Hj & Hij). rewrite Ht in Hj.
  assert (source_instance_id e ∈ concat bs) as Hs.
  { rewrite Hperm. destruct Hwf as [_ Hends]. by apply Hends. }
  assert (concat bs !! length l1 = Some y) as Hyl.
  { rewrite Hsplit. by apply list_lookup_middle. }
  rewrite Hsplit in Hs. apply elem_of_app in Hs as [?|[Heq|Hl2]%elem_of_cons]; [done| |].
  - exfalso. rewrite Heq in Hi. simplify_eq. lia.
  - exfalso. apply list_elem_of_lookup_1 in Hl2 as [k Hk].
    assert (concat bs !! (length l1 + S k)%nat = Some (source_instance_id e)) as Hsl.
    { rewrite Hsplit. rewrite lookup_app_r by lia.
      replace (length l1 + S k - length l1)%nat with (S k) by lia. done. }
    pose proof (concat_lookup_batch_index bs _ _ _ _ _ _ Hnd Hsl Hyl ltac:(lia) Hi Hj). lia.
Qed.

(** A validated graph with unique instance ids, once scheduled, runs to
    completion whatever its execution functions do: a node that fails is
    recorded and its dependents are skipped, and nothing aborts the run. *)
Lemma run_returns bs :
  validate resolve g = [] → NoDup (ids g) → produces_declared_outputs resolve →
  order g = Some (Batches bs) →
  ∃ st, run resolve g bs initial_state = Return st.
Proof.
  intros Hval Hnd Hprod Hord.
  pose proof (validate_well_formed resolve g Hval Hnd) as Hwf.
  destruct (order_batches g bs Hwf Hord) as (Hperm & Hndc & _ & _).
  setoid_rewrite run_concat.
  apply (run_batch_returns _ []); try done.
  - apply run_invariants_initial.
  - intros y Hy. split; [by intros ?%elem_of_nil|]. by rewrite <- Hperm.
  - intros l1 y l2 Hsplit. split.
    + intros z Hz. destruct (descendants_listed_later bs l1 y l2 z Hwf Hord Hsplit Hz).
      split; [by intros ?%elem_of_nil | done].
    + intros e He Ht. right. by eapply sources_listed_earlier.
Qed.


End Engine_facts.

Section Engine_scenarios.
Import Core.




End Engine_scenarios.

(** ** POST /node/execute on the executor *)

Section Execute_facts.
Import Controller Core.
Variable resolve : Registry.

Lemma resolve_parameter_raise g n res ps e :
  resolve_parameter g n res ps = Raise e → is_ValueError e = false.
Proof.
  unfold resolve_parameter.
  destruct (dict_get (name ps) (parameters n)); [done|].
  destruct (head _) as [ed|]; [|done].
  destruct (res !! source_instance_id ed) as [r|]; [|by intros [= <-]].
  destruct (dict_get (source_port ed) (outputs r)); [done|by intros [= <-]].
Qed.

Lemma resolve_inputs_raise g n res specs e :
  resolve_inputs g n res specs = Raise e → is_ValueError e = false.
Proof.
  induction specs as [|ps rest IH]; simpl; [done|].
  destruct (resolve_parameter g n res ps) eqn:Hps.
  - destruct (resolve_inputs g n res rest); [done|]. intros [= <-]. by apply IH.
  - intros [= <-]. by eapply resolve_parameter_raise.
Qed.

Lemma run_instance_raise g st i e :
  run_instance resolve g st i = Raise e → is_ValueError e = false.
Proof.
  unfold run_instance. destruct (decide (i ∈ skipped st)); [done|].
  destruct (lookup_instance g i) as [nd|]; [|by intros [= <-]].
  destruct (resolve (type_id nd)) as [d|]; [|by intros [= <-]].
  destruct (resolve_inputs g nd (results st) (parameter_list d)) as [inputs|] eqn:Hin.
  - by destruct (execution_function d inputs).
  - intros [= <-]. by eapply resolve_inputs_raise.
Qed.

Lemma run_batch_raise g l st e :
  run_batch resolve g l st = Raise e → is_ValueError e = false.
Proof.
  revert st. induction l as [|i l IH]; intros st; simpl; [done|].
  destruct (run_instance resolve g st i) eqn:Hi; [apply IH|].
  intros [= <-]. by eapply run_instance_raise.
Qed.

(** What aborts a run is an internal error, never a [ValueError]: a node
    that fails is recorded in its result and the run goes on. *)
Lemma run_raise g bs st e :
  run resolve g bs st = Raise e → is_ValueError e = false.
Proof. rewrite run_concat. apply run_batch_raise. Qed.

(** C4, amended: for a request body the request model accepts, whose nodes
    and edges give the graph [g]:
    - when the validator reports errors, or the scheduler a cycle, the
      answer is a 400 whose detail names the first error, or the cycle;
    - when the definition is valid, with unique instance ids, the run
      completes whatever the nodes do, provided an execution function that
      returns produces the ports its descriptor declares: a node that fails
      is recorded, and the answer is the success response with the
      aggregated results;
    - whatever the executor, the handler classifies by exception class
      alone: a [ValueError] is answered with a 400 carrying its message, any
      other exception with a 500, a return with the success response, and a
      body the request model rejects with a 422. *)
Theorem post_node_execute_status_classes
    (body : pyval) (workflow : Workflow) (g : WorkflowGraph) :
  Workflow_validate body = Some workflow →
  graph_of_workflow_data (Workflow_dict workflow) = Some g →
  let response := post_node_execute (WorkflowExecutor resolve) body in
  (∀ err errs, validate resolve g = err :: errs →
     response = Raise (HTTPException 400%Z (error_message err))) ∧
  (validate resolve g = [] →
     ∀ involved, order g = Some (CycleError involved) →
       response = Raise (HTTPException 400%Z
                           ("CycleError(" +:+ String.concat ", " involved +:+ ")"))) ∧
  (validate resolve g = [] → NoDup (ids g) → produces_declared_outputs resolve →
     ∀ bs, order g = Some (Batches bs) →
       ∃ st, run resolve g bs initial_state = Return st ∧
             response = Return [("status", PStr "success");
                                ("message", PStr "워크플로우 실행 완료");
                                ("outputs", PDict (collect g st))]) ∧
  (validate resolve g = [] →
     ∀ bs st, order g = Some (Batches bs) →
       run resolve g bs initial_state = Return st →
       response = Return [("status", PStr "success");
                          ("message", PStr "워크플로우 실행 완료");
                          ("outputs", PDict (collect g st))]) ∧
  (∀ executor e, executor (Workflow_dict workflow) = Raise e →
     post_node_execute executor body =
       Raise (HTTPException (if is_ValueError e then 400%Z else 500%Z)
                (if is_ValueError e then exn_str e else "Internal Server Error"))) ∧
  (∀ executor final_outputs, executor (Workflow_dict workflow) = Return final_outputs →
     post_node_execute executor body =
       Return [("status", PStr "success");
               ("message", PStr "워크플로우 실행 완료");
               ("outputs", final_outputs)]) ∧
  (∀ executor body', Workflow_validate body' = None →
     post_node_execute executor body' = Raise (HTTPException 422%Z "Unprocessable Entity")).
Proof.
  intros Hval Hg response. subst response.
  assert (∀ bs st, validate resolve g = [] → order g = Some (Batches bs) →
            run resolve g bs initial_state = Return st →
            post_node_execute (WorkflowExecutor resolve) body =
              Return [("status", PStr "success");
                      ("message", PStr "워크플로우 실행 완료");
                      ("outputs", PDict (collect g st))]) as Hcompleted.
  { intros bs st Hv Hord Hrun. unfold post_node_execute. rewrite Hval.
    unfold execute_workflow, WorkflowExecutor. rewrite Hg. unfold execute.
    rewrite Hv, Hord. simpl. by rewrite Hrun. }
  split; [|split; [|split; [|split; [|split; [|split]]]]].
  - intros err errs Herr. unfold post_node_execute. rewrite Hval.
    unfold execute_workflow, WorkflowExecutor. rewrite Hg. unfold execute.
    by rewrite Herr.
  - intros Hv involved Hcyc. unfold post_node_execute. rewrite Hval.
    unfold execute_workflow, WorkflowExecutor. rewrite Hg. unfold execute.
    by rewrite Hv, Hcyc.
  - intros Hv Hnd Hprod bs Hord.
    destruct (run_returns resolve g bs Hv Hnd Hprod Hord) as [st Hrun].
    exists st. split; [done|]. by apply (Hcompleted bs).
  - intros Hv bs st Hord Hrun. by apply (Hcompleted bs).
  - intros executor e He. unfold post_node_execute. rewrite Hval.
    unfold execute_workflow. rewrite He. by destruct (is_ValueError e).
  - intros executor final_outputs He. unfold post_node_execute. rewrite Hval.
    unfold execute_workflow. by rewrite He.
  - intros executor body' Hnone. unfold post_node_execute. by rewrite Hnone.
Qed.

End Execute_facts.

Section Execute_scenarios.
Import Controller Core.

Lemma registry_produces_declared_outputs : produces_declared_outputs Example.registry.
Proof.
  intros t d inputs outs Hd Hexec port Hport. unfold Example.registry in Hd.
  repeat case_decide; simplify_eq; simpl in *.
  - apply list_elem_of_singleton in Hport as ->. unfold Example.binop in Hexec.
    repeat case_match; simplify_eq. by eexists.
  - apply list_elem_of_singleton in Hport as ->. unfold Example.binop in Hexec.
    repeat case_match; simplify_eq. by eexists.
Qed.

(** C4, as stated, fails: the handler tells a malformed definition from an
    internal error by the exception class alone.  On the valid definition
    [add_then_multiply] an executor that fails for a reason of its own with
    a [ValueError] is answered with a 400, a client error, and not with a
    5xx. *)
Lemma internal_value_error_is_answered_400 :
  (∃ workflow, Workflow_validate Example.add_then_multiply_body = Some workflow ∧
               graph_of_workflow_data (Workflow_dict workflow)
               = Some Example.add_then_multiply) ∧
  validate Example.registry Example.add_then_multiply = [] ∧
  order Example.add_then_multiply = Some (Batches [["A"]; ["B"]]) ∧
  post_node_execute Example.undecodable_executor Example.add_then_multiply_body
  = Raise (HTTPException 400%Z "Expecting value: line 1 column 1 (char 0)").
Proof.
  split; [eexists; split; reflexivity|]. split; [reflexivity|].
  split; [vm_compute; reflexivity|]. reflexivity.
Qed.

(** Two independent nodes, one failing: the run completes and the response
    is the success response, with the failed node reported by its status
    and the other by its outputs. *)
Lemma post_node_execute_status_classes_witness :
  post_node_execute (WorkflowExecutor Example.registry) Example.partial_failure_body =
    Return [("status", PStr "success");
            ("message", PStr "워크플로우 실행 완료");
            ("outputs", PDict [("F", PStr "Failed: NodeExecutionError: boom");
                               ("I", PDict [("out", PInt 5)])])].
Proof.
  pose (g := {| Core.instances := [Example.node "F" "fail" [];
                                   Example.node "I" "add" [("x", PInt 2); ("y", PInt 3)]];
                Core.edges := [] |}).
  destruct (post_node_execute_status_classes Example.registry Example.partial_failure_body
              {| Controller.nodes :=
                   [[("id", PStr "F"); ("type", PStr "fail")];
                    [("id", PStr "I"); ("type", PStr "add");
                     ("parameters", PDict [("x", PInt 2); ("y", PInt 3)])]];
                 Controller.edges := []; Controller.view := [] |}
              g eq_refl eq_refl) as (_ & _ & Hok & _).
  destruct (Hok eq_refl) with (bs := [["F"; "I"]]) as (st & Hrun & Hresp).
  - apply (bool_decide_unpack _). vm_compute. exact I.
  - apply registry_produces_declared_outputs.
  - vm_compute. reflexivity.
  - rewrite Hresp. vm_compute in Hrun. injection Hrun as <-. vm_compute. reflexivity.
Defined.

End Execute_scenarios.

(** ** Process-wide state *)

Section Service_facts.
Import Controller Service.

(** C7, as stated, fails: GET /node/registry/nodes answers from the
    process-wide node registry, so the same request gets different answers
    from two processes that differ only in that registry; serving it reads
    ambient state. *)
Lemma get_all_nodes_reads_the_global_registry :
  let p1 := {| NODE_REGISTRY := []; files := ∅ |} in
  let p2 := {| NODE_REGISTRY := [[("id", PStr "add")]]; files := ∅ |} in
  (serve scenario_executor no_discovery no_generation p1 GetAllNodes).1
  = Return (PList []) ∧
  (serve scenario_executor no_discovery no_generation p2 GetAllNodes).1
  = Return (PList [PDict [("id", PStr "add")]]) ∧
  ¬ (∀ r, ambient_free scenario_executor no_discovery no_generation r).
Proof.
  split; [reflexivity|]. split; [reflexivity|].
  intros Hfree.
  destruct (Hfree GetAllNodes {| NODE_REGISTRY := []; files := ∅ |}
              {| NODE_REGISTRY := [[("id", PStr "add")]]; files := ∅ |}) as [Hsame _].
  discriminate Hsame.
Qed.

End Service_facts.

Section Serving.
Import Controller Service.
Variable WorkflowExecutor : pyval → process → result pyval * process.
Variable run_discovery : process → result unit * process.
Variable generate_json_spec : string → process → result unit * process.

#[local] Abbreviation serve := (Service.serve WorkflowExecutor run_discovery generate_json_spec).
#[local] Abbreviation serve_all := (Service.serve_all WorkflowExecutor run_discovery generate_json_spec).

Lemma serve_read_only p r : read_only r = true → (serve p r).2 = p.
Proof. by destruct r. Qed.

(** The requests that only read, in any number and order, leave the state
    as it was, and each is answered as if it had come first. *)
Lemma serve_all_read_only p rs :
  Forall (λ r, read_only r = true) rs →
  serve_all p rs = ((λ r, (serve p r).1) <$> rs, p).
Proof.
  induction 1 as [|r rs Hr _ IH]; simpl; [done|].
  pose proof (serve_read_only p r Hr) as Hp.
  destruct (serve p r) as [resp p']. simpl in Hp. subst p'.
  by rewrite IH.
Qed.

Lemma serve_all_app p rs1 rs2 :
  serve_all p (rs1 ++ rs2) =
  ((serve_all p rs1).1 ++ (serve_all (serve_all p rs1).2 rs2).1,
   (serve_all (serve_all p rs1).2 rs2).2)%list.
Proof.
  revert p. induction rs1 as [|r rs1 IH]; intros p; simpl.
  { by destruct (serve_all p rs2). }
  destruct (serve p r) as [resp p1]. rewrite IH.
  destruct (serve_all p1 rs1) as [resps p2]. simpl.
  by destruct (serve_all p2 rs2).
Qed.

(** C7, amended: process-wide state is read, and it persists between
    requests.
    - The read-only requests, in any number and order, leave the state as
      it was and are each answered as if served first; GET /node/get reads
      the files only, the two registry endpoints the node registry only.
    - The handler of POST /node/execute reads and changes the state through
      the executor only: a body the request model rejects is answered
      without touching it, and otherwise the state afterwards is the one
      the executor leaves, and the answer is the same from two states in
      which the executor answers the same.
    - GET /node/export leaves the state that [run_discovery] followed by
      [generate_json_spec] leave; when it succeeds the catalog file exists
      in that state, and after any read-only requests GET /node/get is
      answered from that file: what one request wrote, a later one
      reads. *)
Theorem process_state_is_read_and_persists (p : process) :
  (∀ rs, Forall (λ r, read_only r = true) rs →
     serve_all p rs = ((λ r, (serve p r).1) <$> rs, p)) ∧
  (∀ p' node_id,
     (files p' = files p → (serve p' GetNodes).1 = (serve p GetNodes).1) ∧
     (NODE_REGISTRY p' = NODE_REGISTRY p →
        (serve p' GetAllNodes).1 = (serve p GetAllNodes).1 ∧
        (serve p' (GetCategorizedParameters node_id)).1
        = (serve p (GetCategorizedParameters node_id)).1)) ∧
  (∀ body,
     (Workflow_validate body = None →
        serve p (PostExecute body)
        = (Raise (HTTPException 422%Z "Unprocessable Entity"), p)) ∧
     (∀ workflow, Workflow_validate body = Some workflow →
        (serve p (PostExecute body)).2 = (WorkflowExecutor (Workflow_dict workflow) p).2 ∧
        ∀ p', (WorkflowExecutor (Workflow_dict workflow) p').1
              = (WorkflowExecutor (Workflow_dict workflow) p).1 →
              (serve p' (PostExecute body)).1 = (serve p (PostExecute body)).1)) ∧
  (serve p GetExport).2 =
    match run_discovery p with
    | (Return _, p1) => (generate_json_spec "./constants/exported_nodes.json" p1).2
    | (Raise _, p1) => p1
    end ∧
  (∀ resp p' rs,
     serve p GetExport = (Return resp, p') →
     Forall (λ r, read_only r = true) rs →
     is_Some (files p' !! "./constants/exported_nodes.json") ∧
     serve_all p (GetExport :: rs ++ [GetNodes]) =
       (Return resp :: ((λ r, (serve p' r).1) <$> rs) ++ [NodeList.list_nodes (files p')],
        p')%list).
Proof.
  split; [apply serve_all_read_only|]. split; [|split; [|split]].
  - intros p' node_id. split.
    + intros Hfiles. simpl. unfold list_nodes. by rewrite Hfiles.
    + intros Hreg. simpl.
      unfold get_categorized_parameters, get_all_nodes, get_node_registry.
      by rewrite Hreg.
  - intros body. split.
    + intros Hnone. simpl. unfold post_node_execute. by rewrite Hnone.
    + intros workflow Hsome. simpl. rewrite Hsome. split; [done|].
      intros p' Hsame. unfold post_node_execute, execute_workflow.
      by rewrite Hsome, Hsame.
  - simpl. unfold export_nodes, export_nodes_try.
    destruct (run_discovery p) as [[[]|e1] p1]; [|done].
    destruct (generate_json_spec _ p1) as [[[]|e2] p2]; [|done].
    simpl. by destruct (negb _).
  - intros resp p' rs Hexport Hrs.
    assert (is_Some (files p' !! "./constants/exported_nodes.json")) as Hfile.
    { revert Hexport. simpl. unfold export_nodes, export_nodes_try.
      destruct (run_discovery p) as [[[]|e1] p1]; [|done].
      destruct (generate_json_spec _ p1) as [[[]|e2] p2]; [|done].
      unfold NodeList.os_path_exists. case_bool_decide as Hex; [|done].
      simpl. by intros [= _ <-]. }
    split; [done|].
    change (serve_all p (GetExport :: rs ++ [GetNodes]))
      with (let '(resp0, p0) := serve p GetExport in
            let '(resps, p'') := serve_all p0 (rs ++ [GetNodes]) in
            (resp0 :: resps, p'')).
    rewrite Hexport, serve_all_app, (serve_all_read_only p' rs Hrs). simpl.
    done.
Qed.

End Serving.

Section Serving_scenarios.
Import Controller Service.

(** An export that writes a catalog of one node into an empty process: the
    next GET /node/get, after a look at the registry, returns that
    catalog. *)
Lemma process_state_is_read_and_persists_witness :
  let p := {| NODE_REGISTRY := []; files := ∅ |} in
  let catalog := PList [PDict [("id", PStr "add")]] in
  (serve_all scenario_executor no_discovery (write_catalog catalog) p
     [GetExport; GetAllNodes; GetNodes]).1
  = [Return (PDict [("status", PStr "success");
                    ("message", PStr "Nodes exported successfully");
                    ("file", PStr "./constants/exported_nodes.json")]);
     Return (PList []);
     Return catalog].
Proof.
  intros p catalog.
  destruct (process_state_is_read_and_persists scenario_executor no_discovery
              (write_catalog catalog) p) as (_ & _ & _ & _ & Hpersist).
  destruct (Hpersist
              (PDict [("status", PStr "success");
                      ("message", PStr "Nodes exported successfully");
                      ("file", PStr "./constants/exported_nodes.json")])
              {| NODE_REGISTRY := [];
                 files := <["./constants/exported_nodes.json" := NodeList.Decodes catalog]> ∅ |}
              [GetAllNodes]) as [_ Hall].
  - vm_compute. reflexivity.
  - repeat constructor.
  - change [GetExport; GetAllNodes; GetNodes] with (GetExport :: [GetAllNodes] ++ [GetNodes]).
    rewrite Hall. vm_compute. reflexivity.
Defined.

End Serving_scenarios.

(** ** The catalog endpoints *)

Section Lookup_facts.
Import Controller Catalog.

Lemma eq_str_true v node_id : eq_str v node_id = true ↔ v = PStr node_id.
Proof.
  destruct v; simpl; try (split; [done | discriminate]).
  rewrite bool_decide_eq_true. split; [by intros -> | by intros [= ->]].
Qed.

Lemma other_id_cons_inv node_id n v (l : list pydict) :
  dict_get "id" n = Some v → Forall (other_id node_id) (n :: l) →
  eq_str v node_id = false ∧ Forall (other_id node_id) l.
Proof.
  intros Hv [(v' & Hv' & Hne) Hl]%Forall_cons. split; [congruence | done].
Qed.

Lemma find_node_found node_registry node_id node :
  find_node node_registry node_id = Return (Some node) ↔
  ∃ before after, node_registry = (before ++ node :: after)%list ∧
                  Forall (other_id node_id) before ∧
                  dict_get "id" node = Some (PStr node_id).
Proof.
  induction node_registry as [|n rest IH]; simpl.
  { split; [done|]. intros (b & a & Heq & _). by destruct b. }
  destruct (dict_get "id" n) as [v|] eqn:Hv.
  - destruct (eq_str v node_id) eqn:Heq.
    + split.
      * intros [= <-]. exists [], rest. apply eq_str_true in Heq as ->. by repeat split.
      * intros ([|b before] & after & Hsplit & Hbefore & Hid).
        -- by injection Hsplit as -> ->.
        -- injection Hsplit as -> ->.
           destruct (other_id_cons_inv _ _ _ _ Hv Hbefore). congruence.
    + rewrite IH. split.
      * intros (before & after & -> & Hb & Hid). exists (n :: before), after.
        split; [done|]. split; [|done]. constructor; [by exists v | done].
      * intros ([|b before] & after & Hsplit & Hbefore & Hid).
        -- injection Hsplit as -> ->. rewrite Hv in Hid. injection Hid as ->.
           simpl in Heq. by rewrite bool_decide_eq_true_2 in Heq.
        -- injection Hsplit as -> ->.
           destruct (other_id_cons_inv _ _ _ _ Hv Hbefore). eauto.
  - split; [done|].
    intros ([|b before] & after & Hsplit & Hbefore & Hid).
    + injection Hsplit as -> ->. congruence.
    + injection Hsplit as -> ->.
      apply Forall_cons in Hbefore as [(v' & Hv' & _) _]. congruence.
Qed.

Lemma find_node_absent node_registry node_id :
  find_node node_registry node_id = Return None ↔ Forall (other_id node_id) node_registry.
Proof.
  induction node_registry as [|n rest IH]; simpl; [by split; [constructor|]|].
  destruct (dict_get "id" n) as [v|] eqn:Hv.
  - destruct (eq_str v node_id) eqn:Heq.
    + split; [done|]. intros H. destruct (other_id_cons_inv _ _ _ _ Hv H). congruence.
    + rewrite IH. split.
      * intros Hrest. constructor; [by exists v | done].
      * by intros [_ ?]%Forall_cons.
  - split; [done|]. intros [(v' & Hv' & _) _]%Forall_cons. congruence.
Qed.

Lemma find_node_raises node_registry node_id e :
  find_node node_registry node_id = Raise e ↔
  e = OtherException "KeyError: 'id'" ∧
  ∃ before node after, node_registry = (before ++ node :: after)%list ∧
                       Forall (other_id node_id) before ∧ dict_get "id" node = None.
Proof.
  induction node_registry as [|n rest IH]; simpl.
  { split; [done|]. intros (_ & b & ? & a & Heq & _). by destruct b. }
  destruct (dict_get "id" n) as [v|] eqn:Hv.
  - destruct (eq_str v node_id) eqn:Heq.
    + split; [done|].
      intros (_ & [|b before] & node & after & Hsplit & Hbefore & Hid).
      * injection Hsplit as -> ->. congruence.
      * injection Hsplit as -> ->.
        destruct (other_id_cons_inv _ _ _ _ Hv Hbefore). congruence.
    + rewrite IH. split.
      * intros (-> & before & node & after & -> & Hb & Hid). split; [done|].
        exists (n :: before), node, after. split; [done|]. split; [|done].
        constructor; [by exists v | done].
      * intros (-> & [|b before] & node & after & Hsplit & Hbefore & Hid).
        -- injection Hsplit as -> ->. congruence.
        -- injection Hsplit as -> ->.
           destruct (other_id_cons_inv _ _ _ _ Hv Hbefore). split; [done|]. eauto 6.
  - split.
    + intros [= <-]. split; [done|]. exists [], n, rest. by repeat split.
    + intros (-> & _). done.
Qed.

(** X1: GET /node/registry/node/{node_id} returns a node exactly when the
    registry holds a node whose id is [node_id] and every node before it has
    an id, another one: the answer is the first such node, and the process
    state is left as it was. *)
Theorem get_node_by_id_returns_first_match (p : process) (node_id : string) (node : pydict) :
  get_node_by_id p node_id = (Return node, p) ↔
  ∃ before after, get_node_registry p = (before ++ node :: after)%list ∧
                  Forall (other_id node_id) before ∧
                  dict_get "id" node = Some (PStr node_id).
Proof.
  rewrite <- find_node_found. unfold get_node_by_id, get_node_by_id_try.
  destruct (find_node (get_node_registry p) node_id) as [[n|]|e]; simpl.
  - split; intros [= ->]; done.
  - split; [|done]. intros Heq. discriminate Heq.
  - split; [|done]. destruct (is_HTTPException e); intros Heq; discriminate Heq.
Qed.

(** X2: the failures of GET /node/registry/node/{node_id}.  It raises the
    404 "Node with id '...' not found" exactly when every node of the
    registry has an id and none is [node_id]; here the 404 does reach the
    caller.  It raises a 500 exactly when a node without the key "id" comes
    before any node whose id is [node_id]. *)
Theorem get_node_by_id_failures (p : process) (node_id : string) :
  ((get_node_by_id p node_id).1 =
     Raise (HTTPException 404%Z ("Node with id '" +:+ node_id +:+ "' not found")) ↔
   Forall (other_id node_id) (get_node_registry p)) ∧
  ((get_node_by_id p node_id).1 = Raise (HTTPException 500%Z "Internal Server Error") ↔
   ∃ before node after, get_node_registry p = (before ++ node :: after)%list ∧
                        Forall (other_id node_id) before ∧ dict_get "id" node = None).
Proof.
  unfold get_node_by_id, get_node_by_id_try. simpl.
  pose proof (find_node_absent (get_node_registry p) node_id) as Habs.
  pose proof (find_node_raises (get_node_registry p) node_id
                (OtherException "KeyError: 'id'")) as Hraise.
  destruct (find_node (get_node_registry p) node_id) as [[n|]|e] eqn:Hfind; simpl.
  - split; (split; [done|]).
    + intros H. apply (proj2 Habs) in H. discriminate H.
    + intros H. pose proof (proj2 Hraise (conj eq_refl H)) as Hbad. discriminate Hbad.
  - split; [split; [intros _; by apply Habs | done]|].
    split; [done|]. intros H.
    pose proof (proj2 Hraise (conj eq_refl H)) as Hbad. discriminate Hbad.
  - destruct (proj1 (find_node_raises _ _ e) Hfind) as [-> Hex]. simpl. split.
    + split; [done|]. intros H. apply (proj2 Habs) in H. discriminate H.
    + by split.
Qed.

End Lookup_facts.

Section Registry_facts.
Import Controller Catalog.

Lemma py_iter_raise v e : py_iter v = Raise e → is_HTTPException e = false.
Proof. destruct v; simpl; intros [= <-] || done; done. Qed.

Lemma categorize_raise parameters basic advanced e :
  categorize parameters basic advanced = Raise e → is_HTTPException e = false.
Proof.
  revert basic advanced. induction parameters as [|param rest IH]; intros basic advanced;
    simpl; [done|].
  destruct param; simpl; try (by intros [= <-]).
  destruct (truthy _); apply IH.
Qed.

(** X3: the two lookups by id agree on what is unknown.  The
    categorized-parameters endpoint raises the 404 "Node with id '...' not
    found" exactly when GET /node/registry/node/{node_id} does, and whenever
    the latter returns a node the former returns or raises a 500, never a
    404. *)
Theorem categorized_parameters_unknown_iff_by_id_unknown (p : process) (node_id : string) :
  ((get_categorized_parameters p node_id).1 = Raise (node_not_found node_id) ↔
   (get_node_by_id p node_id).1 = Raise (node_not_found node_id)) ∧
  (∀ node, (get_node_by_id p node_id).1 = Return node →
     (∃ resp, (get_categorized_parameters p node_id).1 = Return resp ∧
              dict_get "node_id" resp = Some (PStr node_id) ∧
              dict_get "node_name" resp = Some (node_get "nodeName" (PStr "") node) ∧
              dict_get "description" resp = Some (node_get "description" (PStr "") node)) ∨
     (get_categorized_parameters p node_id).1 =
       Raise (HTTPException 500%Z "Internal Server Error")).
Proof.
  unfold get_categorized_parameters, get_categorized_parameters_try,
    get_node_by_id, get_node_by_id_try. simpl.
  destruct (find_node (get_node_registry p) node_id) as [[n|]|e] eqn:Hfind; simpl.
  - split.
    + split; [|done].
      destruct (py_iter _) as [parameters|e] eqn:Hit.
      * destruct (categorize parameters [] []) as [[b a]|e] eqn:Hc; [done|].
        rewrite (categorize_raise _ _ _ _ Hc). done.
      * rewrite (py_iter_raise _ _ Hit). done.
    + intros node [= <-].
      destruct (py_iter _) as [parameters|e] eqn:Hit.
      * destruct (categorize parameters [] []) as [[b a]|e] eqn:Hc.
        -- left. eexists. split; [reflexivity|]. done.
        -- right. by rewrite (categorize_raise _ _ _ _ Hc).
      * right. by rewrite (py_iter_raise _ _ Hit).
  - split; [done|]. intros node Hbad. discriminate Hbad.
  - split; [done|]. intros node Hbad. by destruct (is_HTTPException e).
Qed.

Lemma available_nodes_spec node_registry :
  (Forall (λ node, is_Some (dict_get "id" node)) node_registry ∧
   ∃ ids, available_nodes node_registry = Return ids ∧
          Forall2 (λ node v, dict_get "id" node = Some v) node_registry ids) ∨
  (¬ Forall (λ node, is_Some (dict_get "id" node)) node_registry ∧
   available_nodes node_registry = Raise (OtherException "KeyError: 'id'")).
Proof.
  induction node_registry as [|n rest IH]; simpl.
  { left. split; [constructor|]. exists []. split; [done|constructor]. }
  destruct (dict_get "id" n) as [v|] eqn:Hv.
  - destruct IH as [(Hall & ids & -> & Hids)|(Hnot & ->)].
    + left. split; [constructor; [by rewrite Hv|done]|].
      exists (v :: ids). split; [done|]. by constructor.
    + right. split; [|done]. by intros [_ ?]%Forall_cons.
  - right. split; [|done]. intros [[? Hbad] _]%Forall_cons. congruence.
Qed.

(** X4: GET /node/registry answers exactly when every node of the registry
    has the key "id"; otherwise it raises a 500.  In the answer [node_count]
    is the number of nodes, [available_nodes] lists the nodes' ids in
    registry order, one per node, [registry_data] is the registry itself,
    and the process state is left as it was. *)
Theorem get_node_registry_info_counts {C : Type} (node_class_registry : list (string * C))
    (p : process) :
  let node_registry := get_node_registry p in
  (get_node_registry_info node_class_registry p).2 = p ∧
  ((Forall (λ node, is_Some (dict_get "id" node)) node_registry ∧
    ∃ ids,
      (get_node_registry_info node_class_registry p).1 =
        Return [("status", PStr "success");
                ("node_count", PInt (Z.of_nat (length node_registry)));
                ("available_nodes", PList ids);
                ("registry_data", PList (PDict <$> node_registry));
                ("class_registry_keys", PList (PStr <$> dict_keys node_class_registry))] ∧
      length ids = length node_registry ∧
      ∀ i node, node_registry !! i = Some node → ids !! i = dict_get "id" node) ∨
   (¬ Forall (λ node, is_Some (dict_get "id" node)) node_registry ∧
    (get_node_registry_info node_class_registry p).1 =
      Raise (HTTPException 500%Z "Internal Server Error"))).
Proof.
  intros node_registry. split; [done|].
  unfold get_node_registry_info. simpl. fold node_registry.
  destruct (available_nodes_spec node_registry) as [(Hall & ids & -> & Hids)|(Hnot & ->)].
  - left. split; [done|]. exists ids. split; [done|]. split.
    + symmetry. by eapply Forall2_length.
    + intros i node Hi.
      destruct (Forall2_lookup_l _ _ _ _ _ Hids Hi) as (v & Hv & Hid). congruence.
  - right. by split.
Qed.

End Registry_facts.

Section Search_facts.
Import Controller Catalog.
Variable str_lower : string → string.
Variable str_strip : string → string.

Lemma filter_nodes_Return test nodes l :
  filter_nodes test nodes = Return l →
  l = filter (λ node, holds (test node) = true) nodes.
Proof.
  revert l. induction nodes as [|n rest IH]; intros l; simpl; [by intros [= <-]|].
  destruct (test n) as [b|] eqn:Hn; [|done].
  destruct (filter_nodes test rest) as [l'|]; [|done].
  intros [= <-]. rewrite filter_cons, Hn. simpl. rewrite (IH l' eq_refl).
  destruct b; [by rewrite decide_True | by rewrite decide_False].
Qed.

Lemma filter_nodes_returns test nodes :
  Forall (λ node, ∃ b, test node = Return b) nodes →
  ∃ l, filter_nodes test nodes = Return l.
Proof.
  induction 1 as [|n rest [b Hn] _ [l IH]]; simpl; [by eexists|].
  rewrite Hn, IH. by eexists.
Qed.

Lemma filter_nodes_raises test nodes node :
  node ∈ nodes → (∀ b, test node ≠ Return b) → ∃ e, filter_nodes test nodes = Raise e.
Proof.
  intros Hin Hraise. induction nodes as [|n rest IH]; [by apply elem_of_nil in Hin|].
  simpl. destruct (test n) as [b|e] eqn:Hn; [|by eexists].
  apply elem_of_cons in Hin as [->|Hin]; [by destruct (Hraise b)|].
  destruct (IH Hin) as [e ->]. by eexists.
Qed.

Lemma narrow_Return criterion test nodes l :
  narrow criterion test (Return nodes) = Return l →
  l = filter (λ node, passes criterion test node = true) nodes.
Proof.
  unfold narrow, passes. destruct (given criterion) as [c|].
  - apply filter_nodes_Return.
  - intros [= <-]. induction nodes as [|n rest IH]; [done|].
    rewrite filter_cons, decide_True by done. by rewrite <- IH.
Qed.

Lemma narrow_Raise criterion test e l :
  narrow criterion test (Raise e) = Return l → False.
Proof. done. Qed.

(** X5: what GET /node/search returns.  When it returns, the answer is the
    registry filtered, in registry order, by the conjunction of the criteria
    that are given (a criterion that is absent or the empty string is not
    given): a node is in the answer exactly when it is in the registry and
    passes the query, tags, category and function tests; nothing is added or
    reordered, and the process state is left as it was. *)
Theorem search_nodes_filters_registry (p : process)
    (query tags category function : option string) (l : list pydict) :
  (search_nodes str_lower str_strip p query tags category function).1 = Return l →
  (search_nodes str_lower str_strip p query tags category function).2 = p ∧
  l = filter (λ node, matches str_lower str_strip query tags category function node = true)
             (get_node_registry p) ∧
  sublist l (get_node_registry p).
Proof.
  unfold search_nodes. cbn [fst snd]. intros Hret. split; [done|].
  assert (∀ r, internal_server_error r = Return l → r = Return l) as Hinv.
  { intros [x|e]; simpl; [by intros [= ->] | done]. }
  apply Hinv in Hret. unfold search_nodes_try in Hret. cbv zeta in Hret.
  destruct (narrow query (λ q, query_test str_lower (str_lower q))
              (Return (get_node_registry p))) as [l1|] eqn:H1; [|done].
  destruct (narrow tags (λ t, tags_test str_lower (search_tags_of str_lower str_strip t))
              (Return l1)) as [l2|] eqn:H2; [|done].
  destruct (narrow category (field_test str_lower "categoryId") (Return l2))
    as [l3|] eqn:H3; [|done].
  apply narrow_Return in H1, H2, H3, Hret. subst l l3 l2 l1.
  clear Hinv.
  assert (∀ nodes : list pydict,
    filter (λ node, passes function (field_test str_lower "functionId") node = true)
      (filter (λ node, passes category (field_test str_lower "categoryId") node = true)
         (filter (λ node, passes tags
                    (λ t, tags_test str_lower (search_tags_of str_lower str_strip t)) node = true)
            (filter (λ node, passes query (λ q, query_test str_lower (str_lower q)) node = true)
               nodes)))
    = filter (λ node, matches str_lower str_strip query tags category function node = true)
        nodes) as Heq.
  { intros nodes. rewrite !list_filter_filter. apply list_filter_iff. intros node.
    unfold matches. rewrite !andb_true_iff. tauto. }
  rewrite Heq. split; [done|]. apply sublist_filter.
Qed.

Lemma map_result_lower_strings (l : list pyval) :
  forallb is_str l = true → ∃ ss, map_result (py_lower str_lower) l = Return ss.
Proof.
  induction l as [|v l IH]; simpl; [by eexists|].
  intros [Hv Hl]%andb_true_iff. destruct v; try done. simpl.
  destruct (IH Hl) as [ss ->]. by eexists.
Qed.

Lemma py_lower_string v : is_str v = true → ∃ s, py_lower str_lower v = Return s.
Proof. destruct v; try done. by eexists. Qed.

Lemma searchable_tests node :
  searchable node = true →
  (∀ q, ∃ b, query_test str_lower q node = Return b) ∧
  (∀ ts, ∃ b, tags_test str_lower ts node = Return b) ∧
  (∀ c, ∃ b, field_test str_lower "categoryId" c node = Return b) ∧
  (∀ f, ∃ b, field_test str_lower "functionId" f node = Return b).
Proof.
  unfold searchable. rewrite !andb_true_iff. intros [[[[Hd Hn] Hc] Hf] Ht].
  destruct (py_lower_string _ Hd) as [d Hd'], (py_lower_string _ Hn) as [n Hn'],
    (py_lower_string _ Hc) as [c Hc'], (py_lower_string _ Hf) as [f Hf'].
  split; [|split; [|split]].
  - intros q. unfold query_test. rewrite Hd', Hn'. destruct (contains q d); by eexists.
  - intros ts. assert (∃ ss, node_tags_lower str_lower node = Return ss) as [ss Hss].
    { unfold node_tags_lower. destruct (node_get "tags" (PList []) node); try done.
      simpl. by apply map_result_lower_strings. }
    induction ts as [|t ts [b IH]]; simpl; [by eexists|].
    rewrite Hss. destruct (bool_decide _); by eexists.
  - intros c'. unfold field_test. rewrite Hc'. by eexists.
  - intros f'. unfold field_test. rewrite Hf'. by eexists.
Qed.

Lemma narrow_searchable criterion test nodes :
  Forall (λ node, searchable node = true) nodes →
  (∀ c node, searchable node = true → ∃ b, test c node = Return b) →
  ∃ l, narrow criterion test (Return nodes) = Return l ∧
       Forall (λ node, searchable node = true) l.
Proof.
  intros Hall Htest. unfold narrow. destruct (given criterion) as [c|]; [|by eexists].
  destruct (filter_nodes_returns (test c) nodes) as [l Hl].
  { eapply Forall_impl; [exact Hall|]. intros node Hn. by apply Htest. }
  exists l. split; [done|]. rewrite (filter_nodes_Return _ _ _ Hl).
  rewrite Forall_forall in Hall. apply Forall_forall.
  intros node [_ Hin]%list_elem_of_filter. by apply Hall.
Qed.

(** X6: on a registry whose nodes carry strings under description,
    nodeName, categoryId and functionId and a list of strings under tags
    (each of them possibly absent), GET /node/search returns for every
    combination of criteria; it never raises. *)
Theorem search_nodes_returns_on_searchable_registry (p : process)
    (query tags category function : option string) :
  Forall (λ node, searchable node = true) (get_node_registry p) →
  ∃ l, (search_nodes str_lower str_strip p query tags category function).1 = Return l.
Proof.
  intros Hall. unfold search_nodes, search_nodes_try. cbn [fst snd]. cbv zeta.
  destruct (narrow_searchable query (λ q, query_test str_lower (str_lower q)) _ Hall)
    as (l1 & -> & H1).
  { intros c node Hn. apply (searchable_tests node Hn). }
  destruct (narrow_searchable tags
              (λ t, tags_test str_lower (search_tags_of str_lower str_strip t)) _ H1)
    as (l2 & -> & H2).
  { intros c node Hn. apply (searchable_tests node Hn). }
  destruct (narrow_searchable category (field_test str_lower "categoryId") _ H2)
    as (l3 & -> & H3).
  { intros c node Hn. apply (searchable_tests node Hn). }
  destruct (narrow_searchable function (field_test str_lower "functionId") _ H3)
    as (l4 & -> & H4).
  { intros c node Hn. apply (searchable_tests node Hn). }
  by eexists.
Qed.

(** X7: one malformed node breaks every text search.  When a query is
    given and some node of the registry has a description that is not a
    string, GET /node/search raises a 500, whatever the other nodes and the
    other criteria are. *)
Theorem search_nodes_query_fails_on_non_string_description (p : process)
    (query tags category function : option string) (node : pydict) :
  given query ≠ None →
  node ∈ get_node_registry p →
  is_str (node_get "description" (PStr "") node) = false →
  (search_nodes str_lower str_strip p query tags category function).1 =
    Raise (HTTPException 500%Z "Internal Server Error").
Proof.
  intros Hq Hin Hdesc. unfold search_nodes, search_nodes_try. cbn [fst snd]. cbv zeta.
  destruct (given query) as [q|] eqn:Hgq; [|done].
  assert (∃ e, narrow query (λ q, query_test str_lower (str_lower q))
                 (Return (get_node_registry p)) = Raise e) as [e ->].
  { unfold narrow. rewrite Hgq. apply (filter_nodes_raises _ _ node Hin).
    intros b. unfold query_test.
    destruct (node_get "description" (PStr "") node); done. }
  done.
Qed.

End Search_facts.

Section Search_scenarios.
Import Controller Catalog.

(** Two nodes, searched by a tag that only the first carries. *)
Lemma search_nodes_filters_registry_witness :
  let a := [("id", PStr "add"); ("description", PStr "Adds two numbers");
            ("tags", PList [PStr "Math"; PStr "basic"]); ("categoryId", PStr "arith")] in
  let b := [("id", PStr "chat"); ("nodeName", PStr "Chat Model");
            ("tags", PList [PStr "LLM"]); ("categoryId", PStr "ai")] in
  let p := {| NODE_REGISTRY := [a; b]; files := ∅ |} in
  (search_nodes lower Config.strip p None (Some " math , x") None None).1 = Return [a] ∧
  sublist [a] [a; b].
Proof.
  intros a b p.
  destruct (search_nodes_filters_registry lower Config.strip p
              None (Some " math , x") None None [a] eq_refl) as (_ & _ & Hsub).
  split; [reflexivity | exact Hsub].
Defined.

(** The same registry answers a search that combines all four criteria. *)
Lemma search_nodes_returns_on_searchable_registry_witness :
  let a := [("id", PStr "add"); ("description", PStr "Adds two numbers");
            ("tags", PList [PStr "Math"; PStr "basic"]); ("categoryId", PStr "arith")] in
  let b := [("id", PStr "chat"); ("nodeName", PStr "Chat Model");
            ("tags", PList [PStr "LLM"]); ("categoryId", PStr "ai")] in
  let p := {| NODE_REGISTRY := [a; b]; files := ∅ |} in
  ∃ l, (search_nodes lower Config.strip p
          (Some "chat") (Some "llm") (Some "AI") (Some "")).1 = Return l.
Proof.
  intros a b p.
  apply (search_nodes_returns_on_searchable_registry lower Config.strip p).
  repeat constructor.
Defined.

(** A node described by a number, and a query. *)
Lemma search_nodes_query_fails_on_non_string_description_witness :
  let a := [("id", PStr "add"); ("description", PStr "Adds two numbers")] in
  let c := [("id", PStr "odd"); ("description", PInt 3)] in
  let p := {| NODE_REGISTRY := [a; c]; files := ∅ |} in
  (search_nodes lower Config.strip p (Some "adds") None None None).1 =
    Raise (HTTPException 500%Z "Internal Server Error").
Proof.
  intros a c p.
  apply (search_nodes_query_fails_on_non_string_description lower Config.strip p
           (Some "adds") None None None c).
  - done.
  - right. left.
  - reflexivity.
Defined.

End Search_scenarios.

Section Categories_facts.
Import Controller Catalog.

Lemma key_eq_sym a b : key_eq a b = key_eq b a.
Proof.
  destruct a, b; simpl; try done; try apply Z.eqb_sym; try apply String.eqb_sym.
Qed.

Lemma key_eq_trans a b c : key_eq a b = true → key_eq b c = true → key_eq a c = true.
Proof.
  destruct a, b; simpl; try done; destruct c; simpl; try done;
    rewrite ?Z.eqb_eq, ?String.eqb_eq; congruence.
Qed.

Lemma key_eq_refl a : hashable a = true → key_eq a a = true.
Proof.
  destruct a; simpl; try done; rewrite ?Z.eqb_eq, ?String.eqb_eq; done.
Qed.

Lemma key_lookup_cons k kv d :
  key_lookup k (kv :: d) = if key_eq kv.1 k then Some kv.2 else key_lookup k d.
Proof.
  unfold key_lookup. rewrite filter_cons.
  destruct (key_eq kv.1 k) eqn:Heq.
  - by rewrite decide_True.
  - by rewrite decide_False.
Qed.

(** Writing a key and reading a key back. *)
Lemma key_lookup_key_set k i v d :
  key_lookup k (key_set i v d) = if key_eq i k then Some v else key_lookup k d.
Proof.
  induction d as [|[k' v'] d IH]; simpl.
  { rewrite key_lookup_cons. simpl. by destruct (key_eq i k). }
  destruct (key_eq k' i) eqn:Hki.
  - rewrite !key_lookup_cons. simpl.
    destruct (key_eq i k) eqn:Hik.
    + by rewrite (key_eq_trans _ _ _ Hki Hik).
    + destruct (key_eq k' k) eqn:Hkk; [|done].
      rewrite key_eq_sym in Hki. by rewrite (key_eq_trans _ _ _ Hki Hkk) in Hik.
  - rewrite !key_lookup_cons, IH. simpl.
    destruct (key_eq k' k) eqn:Hkk; [|done].
    destruct (key_eq i k) eqn:Hik; [|done].
    rewrite key_eq_sym in Hik. by rewrite (key_eq_trans _ _ _ Hkk Hik) in Hki.
Qed.

Lemma key_set_keys k i v d :
  Forall (λ kv, key_eq k kv.1 = false) d → key_eq k i = false →
  Forall (λ kv, key_eq k kv.1 = false) (key_set i v d).
Proof.
  induction d as [|[k' v'] d IH]; simpl; intros Hd Hi.
  { by repeat constructor. }
  apply Forall_cons in Hd as [Hk' Hd].
  destruct (key_eq k' i); constructor; auto.
Qed.

Lemma distinct_keys_key_set i v d : distinct_keys d → distinct_keys (key_set i v d).
Proof.
  induction d as [|[k' v'] d IH]; simpl; [by repeat constructor|].
  intros [Hhd Hd]. destruct (key_eq k' i) eqn:Hki; simpl.
  - done.
  - split; [by apply key_set_keys | by apply IH].
Qed.

Lemma category_name_cons node rest k :
  category_name (node :: rest) k =
  match category_name rest k with
  | Some nm => Some nm
  | None =>
      if truthy (node_get "categoryId" PNone node) &&
         truthy (node_get "categoryName" PNone node) &&
         key_eq (node_get "categoryId" PNone node) k
      then Some (node_get "categoryName" PNone node) else None
  end.
Proof.
  unfold category_name. cbn [omap list_omap]. cbv zeta.
  destruct (truthy (node_get "categoryId" PNone node) &&
            truthy (node_get "categoryName" PNone node) &&
            key_eq (node_get "categoryId" PNone node) k).
  - rewrite last_cons. by destruct (last _).
  - by destruct (last _).
Qed.

Lemma collect_categories_spec node_registry acc :
  Forall (λ node, hashable (node_get "categoryId" PNone node) = true) node_registry →
  distinct_keys acc →
  ∃ categories,
    collect_categories node_registry acc = Return categories ∧
    distinct_keys categories ∧
    ∀ k, key_lookup k categories =
         match category_name node_registry k with
         | Some nm => Some nm
         | None => key_lookup k acc
         end.
Proof.
  revert acc. induction node_registry as [|node rest IH]; intros acc Hall Hacc.
  { exists acc. by repeat split. }
  apply Forall_cons in Hall as [Hh Hall]. simpl. rewrite Hh.
  destruct (truthy (node_get "categoryId" PNone node) &&
            truthy (node_get "categoryName" PNone node)) eqn:Hq.
  - destruct (IH (key_set (node_get "categoryId" PNone node)
                          (node_get "categoryName" PNone node) acc) Hall
                 (distinct_keys_key_set _ _ _ Hacc)) as (cats & -> & Hd & Hlook).
    exists cats. split; [done|]. split; [done|]. intros k.
    rewrite Hlook, category_name_cons, Hq, key_lookup_key_set. simpl.
    destruct (category_name rest k); [done|].
    by destruct (key_eq (node_get "categoryId" PNone node) k).
  - destruct (IH acc Hall Hacc) as (cats & -> & Hd & Hlook).
    exists cats. split; [done|]. split; [done|]. intros k.
    rewrite Hlook, category_name_cons, Hq. simpl.
    by destruct (category_name rest k).
Qed.

(** X8: GET /node/categories on a registry whose category ids are hashable
    (strings, numbers, or absent).  The endpoint returns one [{id, name}]
    entry per category; no two entries have equal ids; and the name listed
    for a category is the one given by the last node of the registry that
    has that category id and a category name, both truthy: a later node
    renames the category, and a node without a name does not.  The process
    state is left as it was. *)
Theorem get_all_categories_last_name_wins (p : process) :
  Forall (λ node, hashable (node_get "categoryId" PNone node) = true) (get_node_registry p) →
  ∃ categories,
    get_all_categories p =
      (Return ((λ kv, [("id", kv.1); ("name", kv.2)]) <$> categories), p) ∧
    distinct_keys categories ∧
    ∀ k, key_lookup k categories = category_name (get_node_registry p) k.
Proof.
  intros Hall.
  destruct (collect_categories_spec (get_node_registry p) [] Hall I)
    as (cats & Hc & Hd & Hlook).
  exists cats. unfold get_all_categories. rewrite Hc. split; [done|]. split; [done|].
  intros k. rewrite Hlook. by destruct (category_name _ k).
Qed.

(** Two nodes share the category "arith"; the later one names it. *)
Lemma get_all_categories_last_name_wins_witness :
  let reg := [ [("id", PStr "a"); ("categoryId", PStr "arith"); ("categoryName", PStr "Arithmetic")];
               [("id", PStr "b"); ("categoryId", PStr "ai"); ("categoryName", PStr "AI")];
               [("id", PStr "c"); ("categoryId", PStr "arith"); ("categoryName", PStr "Math")];
               [("id", PStr "d"); ("categoryId", PStr "x"); ("categoryName", PStr "")] ] in
  let p := {| NODE_REGISTRY := reg; files := ∅ |} in
  ∃ categories,
    get_all_categories p =
      (Return ((λ kv, [("id", kv.1); ("name", kv.2)]) <$> categories), p) ∧
    key_lookup (PStr "arith") categories = Some (PStr "Math") ∧
    key_lookup (PStr "x") categories = None.
Proof.
  intros reg p.
  destruct (get_all_categories_last_name_wins p) as (cats & Hget & _ & Hlook).
  - repeat constructor.
  - exists cats. split; [exact Hget|]. rewrite !Hlook. split; reflexivity.
Defined.

(** X9: an unhashable category id breaks GET /node/categories.  When some
    node has a truthy category name and a category id that is a non-empty
    list or dictionary, the endpoint raises a 500. *)
Theorem get_all_categories_fails_on_unhashable_id (p : process) (node : pydict) :
  node ∈ get_node_registry p →
  truthy (node_get "categoryId" PNone node) = true →
  truthy (node_get "categoryName" PNone node) = true →
  hashable (node_get "categoryId" PNone node) = false →
  get_all_categories p = (Raise (HTTPException 500%Z "Internal Server Error"), p).
Proof.
  intros Hin Hid Hname Hunh. unfold get_all_categories.
  assert (∀ acc, ∃ e, collect_categories (get_node_registry p) acc = Raise e) as Hraise.
  { revert Hin. generalize (get_node_registry p). intros reg.
    induction reg as [|n rest IH]; intros Hin acc; [by apply elem_of_nil in Hin|].
    simpl. apply elem_of_cons in Hin as [<-|Hin].
    - rewrite Hid, Hname, Hunh. by eexists.
    - destruct (truthy (node_get "categoryId" PNone n) &&
                truthy (node_get "categoryName" PNone n)); [|by apply IH].
      destruct (hashable (node_get "categoryId" PNone n)); [by apply IH|by eexists]. }
  by destruct (Hraise []) as [e ->].
Qed.

Lemma get_all_categories_fails_on_unhashable_id_witness :
  get_all_categories {| NODE_REGISTRY := [[("categoryId", PList [PStr "a"]);
                                           ("categoryName", PStr "A")]];
                        files := ∅ |}
  = (Raise (HTTPException 500%Z "Internal Server Error"),
     {| NODE_REGISTRY := [[("categoryId", PList [PStr "a"]); ("categoryName", PStr "A")]];
        files := ∅ |}).
Proof.
  apply (get_all_categories_fails_on_unhashable_id _
           [("categoryId", PList [PStr "a"]); ("categoryName", PStr "A")]);
    [left | reflexivity..].
Defined.

End Categories_facts.

Section Tags_facts.
Import Controller Catalog.

Lemma insert_sorted_perm {A} (le : A → A → bool) x l : insert_sorted le x l ≡ₚ x :: l.
Proof.
  induction l as [|y l IH]; simpl; [done|].
  destruct (le x y); [done|]. rewrite IH. apply Permutation_swap.
Qed.

Lemma sort_by_perm {A} (le : A → A → bool) l : sort_by le l ≡ₚ l.
Proof.
  unfold sort_by. induction l as [|x l IH]; simpl; [done|].
  by rewrite insert_sorted_perm, IH.
Qed.

Lemma insert_sorted_Sorted {A} (le : A → A → bool) x l :
  (∀ a b, le a b = true ∨ le b a = true) →
  Sorted (λ a b, le a b = true) l →
  Sorted (λ a b, le a b = true) (insert_sorted le x l).
Proof.
  intros Htotal. induction l as [|y l IH]; simpl; intros Hs.
  { by repeat constructor. }
  destruct (le x y) eqn:Hxy.
  - constructor; [done|]. by constructor.
  - apply Sorted_inv in Hs as [Hs Hhd]. constructor; [by apply IH|].
    destruct l as [|z l]; simpl.
    + constructor. destruct (Htotal x y); congruence.
    + destruct (le x z).
      * constructor. destruct (Htotal x y); congruence.
      * constructor. by inversion Hhd.
Qed.

Lemma sort_by_Sorted {A} (le : A → A → bool) l :
  (∀ a b, le a b = true ∨ le b a = true) →
  Sorted (λ a b, le a b = true) (sort_by le l).
Proof.
  intros Htotal. unfold sort_by. induction l as [|x l IH]; simpl.
  - constructor.
  - by apply insert_sorted_Sorted.
Qed.

Lemma leb_ltb (a b : string) : String.leb a b = true → a ≠ b → String.ltb a b = true.
Proof.
  unfold String.leb, String.ltb. destruct (String.compare a b) eqn:Hc; try done.
  intros _ Hne. by apply String.compare_eq_iff in Hc.
Qed.

Lemma Sorted_leb_NoDup (l : list string) :
  Sorted (λ a b, String.leb a b = true) l → NoDup l →
  Sorted (λ a b, String.ltb a b = true) l.
Proof.
  induction 1 as [|a l Hs IH Hhd]; intros Hnd; [constructor|].
  apply NoDup_cons in Hnd as [Hnotin Hnd]. constructor; [by apply IH|].
  destruct Hhd as [|b l Hab]; constructor.
  apply leb_ltb; [done|]. intros ->. apply Hnotin. by left.
Qed.

Lemma mapM_str_of l ts : mapM str_of l = Some ts → l = PStr <$> ts.
Proof.
  intros H. apply mapM_Some_1 in H.
  induction H as [|v t l ts Hv _ IH]; [done|].
  destruct v; try discriminate. simpl in Hv. injection Hv as ->. by rewrite IH.
Qed.

Lemma mapM_str_of_fmap ts : mapM str_of (PStr <$> ts) = Some ts.
Proof.
  apply mapM_Some_2. induction ts; constructor; done.
Qed.

Lemma existsb_key_eq_str t (acc : list string) :
  existsb (λ x, key_eq x (PStr t)) (PStr <$> acc) = bool_decide (t ∈ acc).
Proof.
  induction acc as [|a acc IH]; [done|].
  rewrite fmap_cons. cbn [existsb key_eq]. rewrite IH.
  destruct (String.eqb a t) eqn:Heq; simpl.
  - apply String.eqb_eq in Heq as ->. symmetry. apply bool_decide_eq_true_2. by left.
  - apply String.eqb_neq in Heq. apply bool_decide_ext.
    rewrite elem_of_cons. naive_solver.
Qed.

Lemma add_tags_strings ts (acc : list string) :
  ∃ acc', add_tags (PStr <$> ts) (PStr <$> acc) = Return (PStr <$> acc') ∧
          (NoDup acc → NoDup acc') ∧
          ∀ t, t ∈ acc' ↔ t ∈ acc ∨ t ∈ ts.
Proof.
  revert acc. induction ts as [|t ts IH]; intros acc.
  { exists acc. split; [done|]. split; [done|]. intros t. rewrite elem_of_nil. tauto. }
  rewrite fmap_cons. cbn [add_tags hashable]. unfold set_add. rewrite existsb_key_eq_str. case_bool_decide as Hin.
  - destruct (IH acc) as (acc' & -> & Hnd & Hmem). exists acc'.
    split; [done|]. split; [done|]. intros u. rewrite Hmem, elem_of_cons.
    split; [tauto|]. intros [?|[->|?]]; tauto.
  - replace ((PStr <$> acc) ++ [PStr t])%list with (PStr <$> (acc ++ [t])%list)
      by by rewrite fmap_app.
    destruct (IH (acc ++ [t])%list) as (acc' & -> & Hnd & Hmem). exists acc'.
    split; [done|]. split.
    + intros Hacc. apply Hnd. apply NoDup_app. split; [done|].
      split; [|apply NoDup_singleton].
      intros u Hu ->%list_elem_of_singleton. done.
    + intros u. rewrite Hmem, elem_of_app, list_elem_of_singleton, elem_of_cons. tauto.
Qed.

Lemma collect_tags_strings node_registry tss (acc : list string) :
  mapM string_tags node_registry = Some tss →
  ∃ acc', collect_tags node_registry (PStr <$> acc) = Return (PStr <$> acc') ∧
          (NoDup acc → NoDup acc') ∧
          ∀ t, t ∈ acc' ↔ t ∈ acc ∨ ∃ ts, ts ∈ tss ∧ t ∈ ts.
Proof.
  intros H. apply mapM_Some_1 in H. revert acc.
  induction H as [|node ts rest tss Hnode _ IH]; intros acc; simpl.
  { exists acc. split; [done|]. split; [done|]. intros t. split; [tauto|].
    intros [?|(ts & []%elem_of_nil & _)]. done. }
  unfold string_tags in Hnode.
  destruct (node_get "tags" (PList []) node) as [| | | |l|]; try discriminate.
  apply mapM_str_of in Hnode as ->. simpl.
  destruct (add_tags_strings ts acc) as (acc1 & -> & Hnd1 & Hmem1).
  destruct (IH acc1) as (acc' & -> & Hnd & Hmem). exists acc'.
  split; [done|]. split; [tauto|]. intros t. rewrite Hmem, Hmem1. split.
  - intros [[?|?]|(ts' & ? & ?)]; [tauto| |].
    + right. exists ts. split; [by left|done].
    + right. exists ts'. split; [by right|done].
  - intros [?|(ts' & [->|?]%elem_of_cons & ?)]; [tauto|tauto|].
    right. by exists ts'.
Qed.

Lemma py_sorted_strings (l : list string) :
  py_sorted (PStr <$> l) = Return (PStr <$> sort_by String.leb l).
Proof.
  destruct l as [|a [|b l]]; [done|done|].
  unfold py_sorted.
  change (PStr <$> a :: b :: l) with (PStr a :: PStr b :: (PStr <$> l)) at 1.
  cbv iota beta. by rewrite (mapM_str_of_fmap (a :: b :: l)).
Qed.

(** X10: GET /node/tags on a registry in which every node's tags are absent
    or a list of strings.  The endpoint returns the tags in ascending order
    of their bytes, each once: the result lists a tag exactly when some node
    carries it, holds no duplicate, and each entry is strictly below the
    next.  The process state is left as it was. *)
Theorem get_all_tags_sorted_union (p : process) (tss : list (list string)) :
  mapM string_tags (get_node_registry p) = Some tss →
  ∃ tags : list string,
    get_all_tags p = (Return (PStr <$> tags), p) ∧
    Sorted (λ a b, String.ltb a b = true) tags ∧
    NoDup tags ∧
    ∀ t, t ∈ tags ↔ ∃ ts, ts ∈ tss ∧ t ∈ ts.
Proof.
  intros Htss.
  destruct (collect_tags_strings _ _ [] Htss) as (all_tags & Hc & Hnd & Hmem).
  specialize (Hnd (NoDup_nil_2)).
  exists (sort_by String.leb all_tags). unfold get_all_tags.
  change (@nil pyval) with (PStr <$> @nil string). rewrite Hc, py_sorted_strings.
  assert (NoDup (sort_by String.leb all_tags)) as Hnd'.
  { by rewrite sort_by_perm. }
  split; [done|]. split; [|split; [done|]].
  - apply Sorted_leb_NoDup; [|done]. apply sort_by_Sorted, String.leb_total.
  - intros t. rewrite sort_by_perm, Hmem, elem_of_nil. tauto.
Qed.

(** Three nodes, one of them without tags; "math" is carried twice. *)
Lemma get_all_tags_sorted_union_witness :
  ∃ tags : list string,
    get_all_tags {| NODE_REGISTRY := [ [("id", PStr "a"); ("tags", PList [PStr "math"; PStr "basic"])];
                                       [("id", PStr "b")];
                                       [("id", PStr "c"); ("tags", PList [PStr "llm"; PStr "math"])] ];
                    files := ∅ |}
    = (Return (PStr <$> tags),
       {| NODE_REGISTRY := [ [("id", PStr "a"); ("tags", PList [PStr "math"; PStr "basic"])];
                             [("id", PStr "b")];
                             [("id", PStr "c"); ("tags", PList [PStr "llm"; PStr "math"])] ];
          files := ∅ |}) ∧
    Sorted (λ a b, String.ltb a b = true) tags ∧
    NoDup tags ∧
    ∀ t, t ∈ tags ↔ ∃ ts, ts ∈ [["math"; "basic"]; []; ["llm"; "math"]] ∧ t ∈ ts.
Proof.
  apply (get_all_tags_sorted_union _ [["math"; "basic"]; []; ["llm"; "math"]]).
  reflexivity.
Defined.

End Tags_facts.

Section Validation_facts.
Import Controller Catalog.
Variable validate_parameters : pyval → result (pyval * pyval).

Lemma validation_results_spec node_registry results :
  validation_results validate_parameters node_registry = Return results →
  Forall2 (λ node r,
             dict_get "node_id" r = dict_get "id" node ∧
             ∃ is_valid errors,
               validate_parameters (node_get "parameters" (PList []) node)
                 = Return (is_valid, errors) ∧
               dict_get "is_valid" r = Some is_valid ∧
               dict_get "errors" r = Some errors)
          (filter has_parameters node_registry) results.
Proof.
  revert results. induction node_registry as [|node rest IH]; intros results; simpl.
  { intros [= <-]. constructor. }
  destruct (truthy (node_get "parameters" (PList []) node)) eqn:Htruthy.
  - rewrite filter_cons_True by done.
    destruct (validate_parameters _) as [[is_valid errors]|] eqn:Hv; [|done].
    destruct (dict_get "id" node) as [node_id|] eqn:Hid; [|done].
    destruct (py_len _) as [n|]; [|done].
    destruct (validation_results _ rest) as [results'|]; [|done].
    intros [= <-]. constructor; [|by apply IH].
    split; [by rewrite Hid|]. by exists is_valid, errors.
  - rewrite filter_cons_False; [apply IH|].
    unfold has_parameters. by rewrite Htruthy.
Qed.

(** X11: what GET /node/parameters/validation reports when it returns.  The
    body has one result per node of the registry whose parameters are
    truthy, in registry order, each with that node's id and the verdict and
    errors that [validate_parameters] gave for its parameters; the counts
    add up ([total_nodes] = [valid_nodes] + [invalid_nodes], none negative),
    and [total_nodes] is the number of such nodes.  The process state is
    left as it was. *)
Theorem validate_all_parameters_counts (p : process) (body : pydict) :
  (validate_all_parameters validate_parameters p).1 = Return body →
  (validate_all_parameters validate_parameters p).2 = p ∧
  ∃ (total valid invalid : Z) (results : list pydict),
    body = [("total_nodes", PInt total); ("valid_nodes", PInt valid);
            ("invalid_nodes", PInt invalid);
            ("validation_results", PList (PDict <$> results))] ∧
    (total = valid + invalid ∧ 0 ≤ valid ∧ 0 ≤ invalid)%Z ∧
    total = Z.of_nat (length (filter has_parameters (get_node_registry p))) ∧
    valid = Z.of_nat (length (filter (λ r, truthy (node_get "is_valid" PNone r) = true) results)) ∧
    Forall2 (λ node r,
               dict_get "node_id" r = dict_get "id" node ∧
               ∃ is_valid errors,
                 validate_parameters (node_get "parameters" (PList []) node)
                   = Return (is_valid, errors) ∧
                 dict_get "is_valid" r = Some is_valid ∧
                 dict_get "errors" r = Some errors)
            (filter has_parameters (get_node_registry p)) results.
Proof.
  unfold validate_all_parameters. cbn [fst snd]. intros Hret. split; [done|].
  destruct (validation_results _ _) as [results|] eqn:Hres; [|done].
  injection Hret as <-.
  pose proof (validation_results_spec _ _ Hres) as Hspec.
  exists (Z.of_nat (length results)), (Z.of_nat (valid_count results)),
         (Z.of_nat (length results) - Z.of_nat (valid_count results))%Z, results.
  assert (valid_count results ≤ length results)%nat as Hle.
  { unfold valid_count. apply length_filter. }
  split; [done|]. split; [lia|]. split; [|split; [done|done]].
  by rewrite (Forall2_length _ _ _ Hspec).
Qed.

(** X12: a node that has parameters but no ["id"] breaks GET
    /node/parameters/validation, whatever [validate_parameters] does and
    wherever the node stands in the registry: the endpoint raises a 500. *)
Theorem validate_all_parameters_needs_ids (p : process) (node : pydict) :
  node ∈ get_node_registry p →
  truthy (node_get "parameters" (PList []) node) = true →
  dict_get "id" node = None →
  validate_all_parameters validate_parameters p
  = (Raise (HTTPException 500%Z "Internal Server Error"), p).
Proof.
  intros Hin Hparams Hid. unfold validate_all_parameters.
  assert (∃ e, validation_results validate_parameters (get_node_registry p) = Raise e)
    as [e ->]; [|done].
  revert Hin. generalize (get_node_registry p). intros reg.
  induction reg as [|n rest IH]; intros Hin; [by apply elem_of_nil in Hin|].
  simpl. apply elem_of_cons in Hin as [<-|Hin].
  - rewrite Hparams, Hid. destruct (validate_parameters _) as [[??]|]; by eexists.
  - destruct (IH Hin) as [e ->].
    destruct (truthy (node_get "parameters" (PList []) n)); [|by eexists].
    destruct (validate_parameters (node_get "parameters" (PList []) n)) as [[??]|];
      [|by eexists].
    destruct (dict_get "id" n); [|by eexists].
    destruct (py_len (node_get "parameters" (PList []) n)); by eexists.
Qed.

End Validation_facts.

Section Validation_scenarios.
Import Controller Catalog.

Lemma validate_all_parameters_counts_witness :
  (validate_all_parameters at_most_one three_nodes).2 = three_nodes ∧
  ∃ (total valid invalid : Z) (results : list pydict),
    [("total_nodes", PInt 2); ("valid_nodes", PInt 1); ("invalid_nodes", PInt 1);
     ("validation_results",
      PList [PDict [("node_id", PStr "a"); ("node_name", PStr ""); ("is_valid", PBool true);
                    ("errors", PList []); ("parameter_count", PInt 1)];
             PDict [("node_id", PStr "c"); ("node_name", PStr ""); ("is_valid", PBool false);
                    ("errors", PList [PStr "too many parameters"]);
                    ("parameter_count", PInt 2)]])]
    = [("total_nodes", PInt total); ("valid_nodes", PInt valid);
       ("invalid_nodes", PInt invalid);
       ("validation_results", PList (PDict <$> results))] ∧
    (total = valid + invalid ∧ 0 ≤ valid ∧ 0 ≤ invalid)%Z ∧
    total = Z.of_nat (length (filter has_parameters (get_node_registry three_nodes))) ∧
    valid = Z.of_nat (length (filter (λ r, truthy (node_get "is_valid" PNone r) = true) results)) ∧
    Forall2 (λ node r,
               dict_get "node_id" r = dict_get "id" node ∧
               ∃ is_valid errors,
                 at_most_one (node_get "parameters" (PList []) node)
                   = Return (is_valid, errors) ∧
                 dict_get "is_valid" r = Some is_valid ∧
                 dict_get "errors" r = Some errors)
            (filter has_parameters (get_node_registry three_nodes)) results.
Proof.
  apply (validate_all_parameters_counts at_most_one three_nodes). reflexivity.
Defined.

Lemma validate_all_parameters_needs_ids_witness :
  validate_all_parameters at_most_one
    {| NODE_REGISTRY := [ [("id", PStr "a"); ("parameters", PList [PInt 1])];
                          [("parameters", PList [PInt 1])] ];
       files := ∅ |}
  = (Raise (HTTPException 500%Z "Internal Server Error"),
     {| NODE_REGISTRY := [ [("id", PStr "a"); ("parameters", PList [PInt 1])];
                           [("parameters", PList [PInt 1])] ];
        files := ∅ |}).
Proof.
  apply (validate_all_parameters_needs_ids at_most_one _ [("parameters", PList [PInt 1])]).
  - right. left.
  - reflexivity.
  - reflexivity.
Defined.

End Validation_scenarios.

(** ** [ConfigComposer]: initialisation and lookup *)

Section Composer_facts.
Import Composer.
Variable initialize_database : category → outcome bool.

Lemma initialize_categories_returns items configs :
  Forall (λ item : string * category, item.1 ≠ "database" → tolerated item.2) items →
  initialize_categories items configs = (Ok (), foldl update configs (omap contribution items)).
Proof.
  revert configs. induction items as [|[name c] items IH]; intros configs Hall; [done|].
  apply Forall_cons in Hall as [Hc Hall]. cbn [initialize_categories omap list_omap].
  unfold contribution at 1. cbn [fst snd] in *.
  destruct (String.eqb name "database") eqn:Hname; cbn [negb].
  - by apply IH.
  - apply String.eqb_neq in Hname. destruct (Hc Hname) as [[cs ->]|[msg ->]]; by apply IH.
Qed.

Lemma initialize_categories_returned items configs configs' :
  initialize_categories items configs = (Ok (), configs') →
  Forall (λ item : string * category, item.1 ≠ "database" → tolerated item.2) items.
Proof.
  revert configs. induction items as [|[name c] items IH]; intros configs; [by constructor|].
  cbn [initialize_categories].
  destruct (String.eqb name "database") eqn:Hname; cbn [negb].
  - intros H. constructor; [|by eapply IH].
    apply String.eqb_eq in Hname. by intros ?.
  - destruct (initialize c) as [cs|[msg|msg|msg]] eqn:Hc; try done.
    + intros H. constructor; [|by eapply IH]. intros _. left. by exists cs.
    + intros H. constructor; [|by eapply IH]. intros _. right. by exists msg.
Qed.

Lemma initialize_categories_dom items configs :
  dom configs ⊆ dom (initialize_categories items configs).2.
Proof.
  revert configs. induction items as [|[name c] items IH]; intros configs; [done|].
  cbn [initialize_categories].
  destruct (negb (String.eqb name "database")); [|by apply IH].
  destruct (initialize c) as [cs|[msg|msg|msg]].
  - etrans; [|apply IH]. unfold update. rewrite dom_union. set_solver.
  - apply IH.
  - done.
  - done.
Qed.

Lemma lookup_foldl_update (cs : list settings) (configs : settings) k :
  foldl update configs cs !! k =
  match last (omap (λ c : settings, c !! k) cs) with
  | Some v => Some v
  | None => configs !! k
  end.
Proof.
  revert configs. induction cs as [|c cs IH]; intros configs; [done|].
  cbn [foldl omap list_omap]. rewrite IH. unfold update.
  destruct (c !! k) as [v|] eqn:Hc.
  - rewrite last_cons. destruct (last _); [done|].
    by apply lookup_union_Some_l.
  - destruct (last _); [done|]. by rewrite lookup_union_r.
Qed.

Lemma dict_get_dict_set {A} k k' (v : A) d :
  dict_get k (dict_set k' v d) = if decide (k' = k) then Some v else dict_get k d.
Proof.
  induction d as [|[k0 v0] d IH]; simpl.
  { done. }
  destruct (decide (k0 = k')) as [->|Hne]; simpl.
  - by destruct (decide (k' = k)).
  - rewrite IH. destruct (decide (k0 = k)) as [->|]; [|done].
    by rewrite decide_False.
Qed.

Lemma dict_get_fmap {A B} (f : A → B) k (d : list (string * A)) :
  dict_get k (prod_map id f <$> d) = f <$> dict_get k d.
Proof.
  induction d as [|[k0 v0] d IH]; simpl; [done|].
  by destruct (decide (k0 = k)).
Qed.

Lemma with_all_configs_same self : with_all_configs self (all_configs self) = self.
Proof. by destruct self. Qed.

Lemma initialize_all_configs_returned (self : ConfigComposer) (result : list (string * entry)) :
  (initialize_all_configs initialize_database self).1 = Ok result →
  (∀ database, dict_get "database" (config_categories self) = Some database →
     (∃ configs, initialize database = Ok configs) ∧
     (∃ flag, initialize_database database = Ok flag)) ∧
  Forall (λ item : string * category, item.1 ≠ "database" → tolerated item.2)
         (config_categories self).
Proof.
  unfold initialize_all_configs, initialize_database_category.
  destruct (dict_get "database" (config_categories self)) as [db|].
  - destruct (initialize db) as [cs|e] eqn:Hdb; [|done]. cbv zeta.
    destruct (initialize_database db) as [flag|e] eqn:Hflag; [|done].
    destruct (initialize_categories _ _) as [[[]|e] configs'] eqn:Hcats; [|done].
    intros _. split.
    + intros ? [= <-]. rewrite Hdb, Hflag. split; by eexists.
    + by eapply initialize_categories_returned.
  - destruct (initialize_categories _ _) as [[[]|e] configs'] eqn:Hcats; [|done].
    intros _. split; [done|]. by eapply initialize_categories_returned.
Qed.

(** X13: when [initialize_all_configs] returns.  It returns exactly when the
    database category, if there is one, initialises and
    [initialize_database] returns, and every other category's
    [initialize()] returns or raises [AttributeError].  The handler around
    each category does not cover the database category: whatever that one
    raises, an [AttributeError] included, ends the call. *)
Theorem initialize_all_configs_returns_iff (self : ConfigComposer) :
  (∃ result, (initialize_all_configs initialize_database self).1 = Ok result) ↔
  (∀ database, dict_get "database" (config_categories self) = Some database →
     (∃ configs, initialize database = Ok configs) ∧
     (∃ flag, initialize_database database = Ok flag)) ∧
  Forall (λ item : string * category, item.1 ≠ "database" → tolerated item.2)
         (config_categories self).
Proof.
  unfold initialize_all_configs, initialize_database_category.
  destruct (dict_get "database" (config_categories self)) as [db|].
  - destruct (initialize db) as [cs|e] eqn:Hdb.
    + cbv zeta. destruct (initialize_database db) as [flag|e] eqn:Hflag.
      * destruct (initialize_categories _ _) as [[[]|e] configs'] eqn:Hcats.
        -- split; [|by eexists]. intros _. split.
           ++ intros ? [= <-]. rewrite Hdb, Hflag. split; by eexists.
           ++ by eapply initialize_categories_returned.
        -- split; [by intros [? ?]|]. intros [_ Hall].
           rewrite (initialize_categories_returns _ _ Hall) in Hcats. done.
      * split; [by intros [? ?]|]. intros [Hd _].
        destruct (Hd db eq_refl) as [_ [flag Hf]]. congruence.
    + split; [by intros [? ?]|]. intros [Hd _].
      destruct (Hd db eq_refl) as [[cs Hcs] _]. congruence.
  - destruct (initialize_categories _ _) as [[[]|e] configs'] eqn:Hcats.
    + split; [|by eexists]. intros _. split; [done|].
      by eapply initialize_categories_returned.
    + split; [by intros [? ?]|]. intros [_ Hall].
      rewrite (initialize_categories_returns _ _ Hall) in Hcats. done.
Qed.

(** X14: lookup after initialisation.  When [initialize_all_configs]
    returns, [get_config_by_name] on the resulting state gives, for a name
    some merged category provides, the setting of the last category that
    provides it, the database category counting as the first; for any other
    name it answers as before the call (the setting it had, or
    [KeyError]). *)
Theorem get_config_by_name_after_initialize (self : ConfigComposer)
    (result : list (string * entry)) (config_name : string) :
  (initialize_all_configs initialize_database self).1 = Ok result →
  get_config_by_name (initialize_all_configs initialize_database self).2 config_name =
  match last_provided self config_name with
  | Some c => Ok c
  | None => get_config_by_name self config_name
  end.
Proof.
  intros Hret.
  assert (all_configs (initialize_all_configs initialize_database self).2 !! config_name =
          match last_provided self config_name with
          | Some c => Some c
          | None => all_configs self !! config_name
          end) as Hlook.
  { destruct (initialize_all_configs_returned self result Hret)
      as [Hdb Hall].
    clear Hret. unfold initialize_all_configs, initialize_database_category,
      last_provided, merged.
    destruct (dict_get "database" (config_categories self)) as [db|].
    - destruct (Hdb db eq_refl) as [[cs ->] [flag ->]]. cbv zeta.
      rewrite (initialize_categories_returns _ _ Hall). cbn [snd with_all_configs all_configs].
      change (foldl update (update (all_configs self) cs)
                (omap contribution (config_categories self)))
        with (foldl update (all_configs self)
                (cs :: omap contribution (config_categories self))).
      by rewrite lookup_foldl_update.
    - rewrite (initialize_categories_returns _ _ Hall). cbn [snd with_all_configs all_configs].
      by rewrite lookup_foldl_update. }
  unfold get_config_by_name at 1. rewrite Hlook.
  destruct (last_provided self config_name); [done|].
  reflexivity.
Qed.

(** X15: the dict [initialize_all_configs] returns.  Its ["all_configs"]
    entry is the [all_configs] of the resulting state, and every other key
    is bound to the category of that name, if there is one: a category that
    is itself named ["all_configs"] is not in the result.  The categories
    of the composer are left as they were. *)
Theorem initialize_all_configs_result (self : ConfigComposer)
    (result : list (string * entry)) :
  (initialize_all_configs initialize_database self).1 = Ok result →
  let self' := (initialize_all_configs initialize_database self).2 in
  config_categories self' = config_categories self ∧
  dict_get "all_configs" result = Some (AllConfigs (all_configs self')) ∧
  ∀ key, key ≠ "all_configs" →
         dict_get key result = Category <$> dict_get key (config_categories self).
Proof.
  unfold initialize_all_configs.
  destruct (initialize_database_category _ _) as [[[]|e] configs]; [|done].
  destruct (initialize_categories _ _) as [[[]|e] configs']; [|done].
  cbv zeta. cbn [fst snd]. intros [= <-]. split; [done|]. split.
  - rewrite dict_get_dict_set. by rewrite decide_True.
  - intros key Hkey. rewrite dict_get_dict_set, decide_False by done.
    apply dict_get_fmap.
Qed.

(** X16: failures of the database category.  If its [initialize()] raises,
    [initialize_all_configs] raises the same exception and leaves the state
    as it was; if [initialize()] returns and [initialize_database] raises,
    the call raises that exception and the database settings stay merged
    into [all_configs]. *)
Theorem initialize_all_configs_database_failure (self : ConfigComposer)
    (database : category) (e : error) :
  dict_get "database" (config_categories self) = Some database →
  (initialize database = Err e →
   initialize_all_configs initialize_database self = (Err e, self)) ∧
  (∀ configs, initialize database = Ok configs →
     initialize_database database = Err e →
     initialize_all_configs initialize_database self
     = (Err e, with_all_configs self (update (all_configs self) configs))).
Proof.
  intros Hdb. unfold initialize_all_configs, initialize_database_category. rewrite Hdb.
  split.
  - intros ->. by rewrite with_all_configs_same.
  - intros configs -> ->. done.
Qed.

(** X17: initialisation never drops a setting.  Whether
    [initialize_all_configs] returns or raises, every name that had a
    setting before the call has one after it, and the categories are the
    same. *)
Theorem initialize_all_configs_keeps_settings (self : ConfigComposer) :
  dom (all_configs self) ⊆ dom (all_configs (initialize_all_configs initialize_database self).2) ∧
  config_categories (initialize_all_configs initialize_database self).2 = config_categories self.
Proof.
  unfold initialize_all_configs.
  assert (dom (all_configs self) ⊆ dom (initialize_database_category initialize_database self).2)
    as Hdb.
  { unfold initialize_database_category.
    destruct (dict_get "database" (config_categories self)) as [db|]; [|done].
    destruct (initialize db) as [cs|e]; [|done]. cbv zeta.
    assert (dom (all_configs self) ⊆ dom (update (all_configs self) cs)).
    { unfold update. rewrite dom_union. set_solver. }
    by destruct (initialize_database db). }
  destruct (initialize_database_category _ _) as [[[]|e] configs]; [|done].
  pose proof (initialize_categories_dom (config_categories self) configs) as Hcats.
  cbn [snd] in Hdb.
  destruct (initialize_categories _ _) as [[[]|e] configs']; cbn [snd] in *;
    (split; [set_solver|done]).
Qed.

End Composer_facts.

Section Composer_scenarios.
Import Composer.

(** ["PORT"] is provided by the database category and by ["app"]; the
    database category is merged first, so the lookup gives 8000. *)
Lemma get_config_by_name_after_initialize_witness :
  get_config_by_name (initialize_all_configs database_up three_categories).2 "PORT"
  = Ok (a_setting (PInt 8000)) ∧
  get_config_by_name (initialize_all_configs database_up three_categories).2 "DEBUG"
  = Ok (a_setting (PBool false)).
Proof.
  split.
  - eapply eq_trans;
      [eapply (get_config_by_name_after_initialize database_up three_categories);
       vm_compute; reflexivity|].
    vm_compute. reflexivity.
  - eapply eq_trans;
      [eapply (get_config_by_name_after_initialize database_up three_categories);
       vm_compute; reflexivity|].
    vm_compute. reflexivity.
Defined.

Lemma initialize_all_configs_result_witness :
  ∃ result,
    (initialize_all_configs database_up three_categories).1 = Ok result ∧
    dict_get "all_configs" result
    = Some (AllConfigs (all_configs (initialize_all_configs database_up three_categories).2)) ∧
    dict_get "legacy" result = Some (Category legacy_category).
Proof.
  eexists. split; [vm_compute; reflexivity|].
  edestruct (initialize_all_configs_result database_up three_categories) as (_ & Hall & Hkey);
    [vm_compute; reflexivity|].
  split; [exact Hall|]. rewrite Hkey by done. reflexivity.
Defined.

Lemma initialize_all_configs_database_failure_witness :
  initialize_all_configs database_down three_categories
  = (Err (OtherError "connection refused"),
     with_all_configs three_categories
       (update (all_configs three_categories)
               {[ "PORT" := a_setting (PInt 5432);
                  "DATABASE_URL" := a_setting (PStr "sqlite://") ]})).
Proof.
  apply (proj2 (initialize_all_configs_database_failure database_down three_categories
                  database_category (OtherError "connection refused") eq_refl));
    reflexivity.
Defined.

End Composer_scenarios.

(** ** [ConfigComposer]: summary and directories *)

Section Summary_facts.
Import Composer.
Variable export_config_summary : outcome pyval.

Lemma dict_set_fresh {A} k (v : A) d :
  k ∉ dict_keys d → dict_set k v d = (d ++ [(k, v)])%list.
Proof.
  unfold dict_keys. induction d as [|[k0 v0] d IH]; simpl; [done|].
  intros Hnotin. apply not_elem_of_cons in Hnotin as [Hne Hnotin].
  rewrite decide_False by done. by rewrite IH.
Qed.

Lemma summarize_spec items acc categories :
  NoDup (dict_keys acc ++ dict_keys items) →
  summarize items acc = Ok categories →
  ∃ entries,
    categories = (acc ++ entries)%list ∧
    dict_keys entries = dict_keys items ∧
    Forall2 (λ (item : string * category) (e : string * pyval),
               summary_entry item.2 = Some e.2) items entries.
Proof.
  revert acc categories.
  induction items as [|[name c] items IH]; intros acc categories Hnd; simpl.
  { intros [= <-]. exists []. by rewrite app_nil_r. }
  assert (name ∉ dict_keys acc) as Hfresh.
  { apply NoDup_app in Hnd as (_ & Hdisj & _). intros Hin. apply (Hdisj _ Hin). by left. }
  assert (∀ v, NoDup (dict_keys (acc ++ [(name, v)]) ++ dict_keys items)) as Hnd'.
  { intros v. unfold dict_keys in *. rewrite fmap_app, <-(assoc_L (++)). done. }
  destruct (config_summary c) as [s|[msg|msg|msg]] eqn:Hc; try done.
  - rewrite dict_set_fresh by done. intros Hs.
    destruct (IH _ _ (Hnd' s) Hs) as (entries & -> & Hkeys & Hall).
    exists ((name, s) :: entries). rewrite <-(assoc_L (++)). split; [done|]. split.
    + change (name :: dict_keys entries = name :: dict_keys items). by rewrite Hkeys.
    + constructor; [|done]. unfold summary_entry. cbn [snd]. by rewrite Hc.
  - rewrite dict_set_fresh by done. intros Hs.
    destruct (IH _ _ (Hnd' _) Hs) as (entries & -> & Hkeys & Hall).
    exists ((name, PDict [("error", PStr msg)]) :: entries).
    rewrite <-(assoc_L (++)). split; [done|]. split.
    + change (name :: dict_keys entries = name :: dict_keys items). by rewrite Hkeys.
    + constructor; [|done]. unfold summary_entry. cbn [snd]. by rewrite Hc.
Qed.

(** X18: what [get_config_summary] reports when it returns.  Its
    ["categories"] dict has one entry per category, in the order of the
    categories and under their names: the category's own summary, or
    [{"error": message}] for a category whose [get_config_summary] raised
    [AttributeError], which is therefore listed rather than dropped.
    ["discovered_categories"] lists the same names, and ["total_configs"]
    is the number of settings. *)
Theorem get_config_summary_lists_every_category (self : ConfigComposer) (body : pydict) :
  NoDup (dict_keys (config_categories self)) →
  get_config_summary export_config_summary self = Ok body →
  ∃ categories persistent_summary,
    export_config_summary = Ok persistent_summary ∧
    body = [("total_configs", PInt (Z.of_nat (size (all_configs self))));
            ("discovered_categories", PList (PStr <$> dict_keys categories));
            ("categories", PDict categories);
            ("persistent_summary", persistent_summary)] ∧
    dict_keys categories = dict_keys (config_categories self) ∧
    Forall2 (λ (item : string * category) (e : string * pyval),
               summary_entry item.2 = Some e.2)
            (config_categories self) categories.
Proof.
  intros Hnd. unfold get_config_summary.
  destruct (summarize _ _) as [categories|e] eqn:Hs; [|done].
  destruct export_config_summary as [persistent_summary|e]; [|done].
  intros [= <-].
  destruct (summarize_spec _ [] _ Hnd Hs) as (entries & -> & Hkeys & Hall).
  exists entries, persistent_summary. simpl. by rewrite Hkeys.
Qed.

(** X19: an exception other than [AttributeError] from a category's
    [get_config_summary] ends [ConfigComposer.get_config_summary] with that
    exception, provided the categories before it did not raise one
    first. *)
Theorem get_config_summary_propagates (self : ConfigComposer)
    (before after : list (string * category)) (name : string) (c : category) (e : error) :
  config_categories self = (before ++ (name, c) :: after)%list →
  Forall (λ item : string * category, is_Some (summary_entry item.2)) before →
  config_summary c = Err e →
  (∀ msg, e ≠ AttributeError msg) →
  get_config_summary export_config_summary self = Err e.
Proof.
  intros Hcats Hbefore Hc He. unfold get_config_summary. rewrite Hcats. clear Hcats.
  assert (∀ acc, summarize (before ++ (name, c) :: after) acc = Err e) as ->; [|done].
  induction before as [|[n0 c0] before IH]; intros acc; simpl.
  - rewrite Hc. destruct e as [msg|msg|msg]; [by destruct (He msg)|done|done].
  - apply Forall_cons in Hbefore as [[s Hs] Hbefore]. unfold summary_entry in Hs.
    cbn [snd] in Hs.
    destruct (config_summary c0) as [s0|[msg|msg|msg]]; try done; by apply IH.
Qed.

End Summary_facts.

Section Directories_facts.
Import Composer.
Variable os_makedirs : string → gset string → outcome unit * gset string.

Lemma make_directories_present directories fs :
  Forall (λ d, d ∈ fs) directories →
  make_directories os_makedirs directories fs = (Ok (), fs).
Proof.
  induction 1 as [|d directories Hd _ IH]; simpl; [done|].
  unfold os_path_exists. by rewrite bool_decide_eq_true_2.
Qed.

Lemma make_directories_creates directories fs fs' :
  makedirs_creates os_makedirs →
  make_directories os_makedirs directories fs = (Ok (), fs') →
  fs ⊆ fs' ∧ Forall (λ d, d ∈ fs') directories.
Proof.
  intros Hmk. revert fs. induction directories as [|d directories IH]; intros fs; simpl.
  { intros [= <-]. by split. }
  unfold os_path_exists. case_bool_decide as Hd; simpl.
  - intros Hrest. destruct (IH _ Hrest) as [Hsub Hall].
    split; [done|]. constructor; [set_solver|done].
  - destruct (os_makedirs d fs) as [[[]|e] fs1] eqn:Hmake; [|done].
    intros Hrest. destruct (Hmk _ _ _ Hmake) as [Hin Hsub1].
    destruct (IH _ Hrest) as [Hsub Hall].
    split; [set_solver|]. constructor; [set_solver|done].
Qed.

(** X20: [ensure_directories] when nothing is missing.  If every directory
    of the app category's [DATA_DIRECTORIES] exists (in particular when
    there is no app category, or it has no such attribute), the call
    returns and the file system is as it was, whatever [os.makedirs] would
    have done: it is not called. *)
Theorem ensure_directories_nothing_to_do (self : ConfigComposer) (fs : gset string) :
  Forall (λ d, d ∈ fs) (data_directories self) →
  ensure_directories os_makedirs self fs = (Ok (), fs).
Proof.
  unfold ensure_directories, data_directories.
  destruct (dict_get "app" (config_categories self)) as [app|]; [|done].
  destruct (DATA_DIRECTORIES app) as [directories|]; [|done].
  apply make_directories_present.
Qed.

(** X21: [ensure_directories] when it returns, on a file system where a
    returning [os.makedirs] has created its path and removed nothing.
    Every directory of [DATA_DIRECTORIES] then exists, nothing that existed
    is gone, and calling it again changes nothing. *)
Theorem ensure_directories_creates (self : ConfigComposer) (fs fs' : gset string) :
  makedirs_creates os_makedirs →
  ensure_directories os_makedirs self fs = (Ok (), fs') →
  fs ⊆ fs' ∧
  Forall (λ d, d ∈ fs') (data_directories self) ∧
  ensure_directories os_makedirs self fs' = (Ok (), fs').
Proof.
  intros Hmk Hret.
  assert (fs ⊆ fs' ∧ Forall (λ d, d ∈ fs') (data_directories self)) as [Hsub Hall].
  { revert Hret. unfold ensure_directories, data_directories.
    destruct (dict_get "app" (config_categories self)) as [app|];
      [|by intros [= <-]].
    destruct (DATA_DIRECTORIES app) as [directories|]; [|by intros [= <-]].
    by apply make_directories_creates. }
  split; [done|]. split; [done|].
  revert Hall. unfold ensure_directories, data_directories.
  destruct (dict_get "app" (config_categories self)) as [app|]; [|done].
  destruct (DATA_DIRECTORIES app) as [directories|]; [|done].
  apply make_directories_present.
Qed.

End Directories_facts.

Section Summary_scenarios.
Import Composer.

Lemma get_config_summary_lists_every_category_witness :
  ∃ categories persistent_summary,
    Ok PNone = Ok persistent_summary ∧
    [("total_configs", PInt 1);
     ("discovered_categories", PList [PStr "app"; PStr "legacy"; PStr "database"]);
     ("categories",
      PDict [("app", PDict [("settings", PInt 2)]);
             ("legacy",
              PDict [("error",
                      PStr "'LegacyConfig' object has no attribute 'get_config_summary'")]);
             ("database", PDict [("settings", PInt 2)])]);
     ("persistent_summary", PNone)]
    = [("total_configs", PInt (Z.of_nat (size (all_configs three_categories))));
       ("discovered_categories", PList (PStr <$> dict_keys categories));
       ("categories", PDict categories);
       ("persistent_summary", persistent_summary)] ∧
    dict_keys categories = dict_keys (config_categories three_categories) ∧
    Forall2 (λ (item : string * category) (e : string * pyval),
               summary_entry item.2 = Some e.2)
            (config_categories three_categories) categories.
Proof.
  apply (get_config_summary_lists_every_category (Ok PNone) three_categories).
  - vm_compute. repeat constructor; set_solver.
  - vm_compute. reflexivity.
Defined.

Lemma get_config_summary_propagates_witness :
  get_config_summary (Ok PNone)
    {| config_categories :=
         [("legacy", legacy_category);
          ("app", {| initialize := Ok ∅;
                     config_summary := Err (OtherError "ValueError: bad setting");
                     DATA_DIRECTORIES := None |})];
       all_configs := ∅ |}
  = Err (OtherError "ValueError: bad setting").
Proof.
  eapply (get_config_summary_propagates (Ok PNone) _ [("legacy", legacy_category)] []).
  - reflexivity.
  - repeat constructor. by eexists.
  - reflexivity.
  - intros msg. discriminate.
Defined.

Lemma ensure_directories_nothing_to_do_witness :
  ensure_directories (λ _ fs, (Err (OtherError "PermissionError"), fs))
    three_categories {[ "data"; "logs"; "tmp" ]}
  = (Ok (), {[ "data"; "logs"; "tmp" ]}).
Proof.
  apply ensure_directories_nothing_to_do.
  vm_compute. repeat constructor.
Defined.

Lemma ensure_directories_creates_witness :
  ({[ "data" ]} : gset string) ⊆ {[ "logs" ]} ∪ {[ "data" ]} ∧
  Forall (λ d, d ∈ ({[ "logs" ]} ∪ {[ "data" ]} : gset string))
         (data_directories three_categories) ∧
  ensure_directories makedirs_ok three_categories ({[ "logs" ]} ∪ {[ "data" ]})
  = (Ok (), {[ "logs" ]} ∪ {[ "data" ]}).
Proof.
  apply (ensure_directories_creates makedirs_ok three_categories {[ "data" ]}).
  - intros path fs fs' [= <-]. set_solver.
  - vm_compute. reflexivity.
Defined.

End Summary_scenarios.

(** ** GET /node/get and GET /node/export: outcomes *)

Section Export_facts.
Import NodeList Controller.
Variable run_discovery : process → result unit * process.
Variable generate_json_spec : string → process → result unit * process.

(** X22: the outcomes of GET /node/get.  It returns [v] exactly when the
    exported catalog exists and decodes to the truthy value [v]; in every
    other case (no file, a file that cannot be read or decoded, an empty
    catalog) it raises a 500 with the detail "Internal Server Error", so
    the branch that re-raises an [HTTPException] never passes on anything
    else. *)
Theorem list_nodes_outcomes (fs : filesystem) :
  (∀ v, NodeList.list_nodes fs = Return v ↔
        fs !! exported_nodes_path = Some (Decodes v) ∧ truthy v = true) ∧
  (∀ e, NodeList.list_nodes fs = Raise e →
        e = HTTPException 500%Z "Internal Server Error").
Proof.
  unfold NodeList.list_nodes, get_node_list, get_node_list_try, os_path_exists, json_load.
  destruct (fs !! exported_nodes_path) as [[v0|msg]|] eqn:Hfile.
  - rewrite bool_decide_eq_true_2 by eauto. cbn [negb].
    destruct (truthy v0) eqn:Hv0; cbn [negb is_HTTPException].
    + split.
      * intros v. split; [intros [= <-]; done|]. by intros [[= <-] _].
      * intros e. done.
    + split.
      * intros v. split; [done|]. intros [[= <-] Hv]. congruence.
      * intros e [= <-]. done.
  - rewrite bool_decide_eq_true_2 by eauto. cbn [negb is_HTTPException]. split.
    + intros v. split; [done|]. by intros [? _].
    + intros e [= <-]. done.
  - rewrite bool_decide_eq_false_2 by (intros [? ?]; done). cbn [negb is_HTTPException].
    split.
    + intros v. split; [done|]. by intros [? _].
    + intros e [= <-]. done.
Qed.

(** X23: the outcomes of GET /node/export.  It returns exactly when
    discovery and the generation of the catalog both return and the
    catalog file exists afterwards, and the body is then the fixed success
    record; whenever it raises, the exception is a 500 with the detail
    "Internal Server Error", so the handler's own detail "Failed to
    generate nodes JSON file." never reaches the caller. *)
Theorem export_nodes_outcomes (p : process) :
  (∀ r p', export_nodes run_discovery generate_json_spec p = (Return r, p') ↔
           ∃ u1 u2 p1,
             run_discovery p = (Return u1, p1) ∧
             generate_json_spec "./constants/exported_nodes.json" p1 = (Return u2, p') ∧
             is_Some (files p' !! "./constants/exported_nodes.json") ∧
             r = [("status", PStr "success");
                  ("message", PStr "Nodes exported successfully");
                  ("file", PStr "./constants/exported_nodes.json")]) ∧
  (∀ e p', export_nodes run_discovery generate_json_spec p = (Raise e, p') →
           e = HTTPException 500%Z "Internal Server Error").
Proof.
  unfold export_nodes, export_nodes_try, os_path_exists.
  destruct (run_discovery p) as [[u1|e1] p1] eqn:Hd.
  - cbv zeta.
    destruct (generate_json_spec "./constants/exported_nodes.json" p1) as [[u2|e2] p2] eqn:Hg.
    + case_bool_decide as Hex; cbn [negb].
      * split; [|done]. intros r p'. split.
        -- intros [= <- <-]. by exists u1, u2, p1.
        -- intros (u1' & u2' & p1' & [= <- <-] & Hg' & _ & ->).
           rewrite Hg in Hg'. by injection Hg' as <- <-.
      * split; [|by intros e p' [= <- <-]]. intros r p'. split; [done|].
        intros (u1' & u2' & p1' & [= <- <-] & Hg' & Hsome & _).
        rewrite Hg in Hg'. injection Hg' as <- <-. done.
    + split; [|by intros e p' [= <- <-]]. intros r p'. split; [done|].
      intros (u1' & u2' & p1' & [= <- <-] & Hg' & _). rewrite Hg in Hg'. done.
  - split; [|by intros e p' [= <- <-]]. intros r p'. split; [done|].
    by intros (u1' & u2' & p1' & ? & _).
Qed.

End Export_facts.

(** ** The OpenAI key check *)

Section Blank_key_facts.
Import Config.

(** X24: which OpenAI keys count as not configured.  For a composer whose
    ["openai"] category has an [API_KEY], [validate_critical_configs] gives
    the warning "OpenAI API key is not configured" exactly when the key is
    [None], empty, or made only of characters [str.isspace] holds for (the
    no-break space and the other Unicode spaces included); a key with any
    other character gives no warning. *)
Theorem openai_warning_iff_blank_key (self : ConfigComposer) (o : category)
    (k : PersistentConfig (option string)) :
  config_categories self !! "openai" = Some o →
  API_KEY o = Some k →
  (warnings (validate_critical_configs self) = ["OpenAI API key is not configured"] ↔
   match value k with None => True | Some s => whitespace_only s end) ∧
  (warnings (validate_critical_configs self) = [] ↔
   ∃ s, value k = Some s ∧ ¬ whitespace_only s).
Proof.
  intros Ho Hk.
  pose proof (api_key_blank_spec (value k)) as Hblank.
  assert (warnings (validate_critical_configs self) =
          if api_key_blank (value k) then ["OpenAI API key is not configured"] else [])
    as ->.
  { unfold validate_critical_configs.
    assert (∀ r, warnings (check_port self r) = warnings r) as Hp.
    { intros r. unfold check_port. destruct (config_categories self !! "app") as [a|]; [|done].
      destruct (PORT a) as [pt|]; [|done]. cbv zeta. by destruct (negb _). }
    assert (∀ r, warnings (check_timeout self r) = warnings r) as Ht.
    { intros r. unfold check_timeout.
      destruct (config_categories self !! "workflow") as [w|]; [|done].
      destruct (EXECUTION_TIMEOUT w) as [t|]; [|done]. cbv zeta. by destruct (_ <=? _)%Z. }
    cbv zeta. rewrite Ht, Hp. unfold check_openai. rewrite Ho, Hk.
    by destruct (api_key_blank (value k)). }
  destruct (api_key_blank (value k)) eqn:Hb.
  - split; [by rewrite <-Hblank|]. split; [done|].
    intros (s & Hs & Hn). rewrite Hs in Hblank. destruct Hn. by apply Hblank.
  - split.
    + split; [done|]. intros H. apply Hblank in H. done.
    + split; [|done]. intros _. destruct (value k) as [s|] eqn:Hs.
      * exists s. split; [done|]. intros H. apply Hblank in H. done.
      * simpl in Hb. discriminate Hb.
Qed.

(** A key made of a no-break space (U+00A0) and a space. *)
Lemma openai_warning_iff_blank_key_witness :
  let self := {| config_categories :=
                   {[ "openai" := {| API_KEY := Some {| value := Some (chr 160 +:+ " ") |};
                                     PORT := None; EXECUTION_TIMEOUT := None |} ]} |} in
  (warnings (validate_critical_configs self) = ["OpenAI API key is not configured"] ↔
   whitespace_only (chr 160 +:+ " ")) ∧
  (warnings (validate_critical_configs self) = [] ↔
   ∃ s, Some (chr 160 +:+ " ") = Some s ∧ ¬ whitespace_only s).
Proof.
  apply (openai_warning_iff_blank_key _
           {| API_KEY := Some {| value := Some (chr 160 +:+ " ") |}; PORT := None;
              EXECUTION_TIMEOUT := None |}
           {| value := Some (chr 160 +:+ " ") |}); reflexivity.
Defined.

End Blank_key_facts.
